(** * Team statistics aggregation of the club-management functions

    A shallow embedding of the callable [calculateTeamStats] of the cloud
    functions module, together with the helpers it calls
    ([getAuthContext], [hasClubPermission]) and the part of the document
    store it reads and writes.

    Numbers are the integers the data model stores in goal and counter
    fields; a goal field that holds no integer (a fraction, NaN) is
    outside the embedding.  A JavaScript number is a double, and on the integers up to
    [MAX_SAFE_INTEGER] in absolute value its [+], [>] and [===] are exact:
    there they are [Z.add], [Z.gtb] and [Z.eqb], which is how the loops
    are written first ([processHome], [processAway]).  Outside that range
    a sum is rounded, so the statements that rest on exact sums or on
    comparing goals are made for collections within the range
    ([safeGoals]).  The loops are written a second time on doubles
    ([Js.processHome], [Js.processAway]): within the range the two
    agree, which is proved from the specification of the floating-point
    operations ([statsFor_on_doubles]), and beyond it the doubles show
    what the code computes.

    Documents are records, optional fields are options, the collections
    keyed by document id are finite maps and a query snapshot is the list
    of the documents it returns.  A document id is one path segment
    ([isDocId]).  Of another string [.doc] makes no reference to a
    document of the collection: for the empty string or for [A/x] it
    throws before the store is asked.  The reads are therefore embedded
    for document ids, and a statement about the read by an id that comes
    from a request and names no stored document assumes a document id. *)

From Stdlib Require Import ZArith Lia.
From Stdlib Require PrimFloat FloatOps SpecFloat FloatAxioms.
From stdpp Require Import base option list gmap strings.

Local Open Scope Z_scope.

(* ===================================================================== *)
(** ** Domain types (shared/types) *)
(* ===================================================================== *)

Inductive MatchStatus :=
  | scheduled | live | halftime | finished | postponed | cancelled.

#[global] Instance MatchStatus_eq_dec : EqDecision MatchStatus.
Proof. solve_decision. Defined.

Inductive MembershipStatus :=
  | pending | active | suspended | inactive.

#[global] Instance MembershipStatus_eq_dec : EqDecision MembershipStatus.
Proof. solve_decision. Defined.

Inductive StreakType := win | draw | loss.

Record StreakInfo := mkStreakInfo {
  type : StreakType;
  count : Z
}.

Record TeamStats := mkTeamStats {
  matchesPlayed : Z;
  wins : Z;
  draws : Z;
  losses : Z;
  goalsFor : Z;
  goalsAgainst : Z;
  points : Z;
  currentStreak : StreakInfo
}.

Record MatchResult := mkMatchResult {
  homeGoals : Z;
  awayGoals : Z;
  homeTeamPenalties : option Z;
  awayTeamPenalties : option Z;
  notes : option string
}.

(** A match document.  The competition, venue, events, line-up and match
    statistics of the interface are never read by the functions embedded
    here and are left out. *)
Module Match.
Record t := mk {
  id : string;
  clubId : string;
  homeTeamId : string;
  awayTeamId : string;
  date : Z;
  status : MatchStatus;
  result : option MatchResult;
  createdAt : Z;
  updatedAt : Z;
  version : Z
}.
End Match.

Record Coach := mkCoach {
  userId : string;
  licenseLevel : option string;
  specializations : list string;
  assignedAt : Z
}.

Module Team.
Record t := mk {
  id : string;
  createdAt : Z;
  updatedAt : Z;
  version : Z;
  createdBy : string;
  updatedBy : string;
  clubId : string;
  name : string;
  category : string;
  season : string;
  description : option string;
  coach : Coach;
  players : list string;
  stats : TeamStats
}.
End Team.

Module ClubMembership.
Record t := mk {
  clubId : string;
  userId : string;
  status : MembershipStatus;
  joinedAt : Z;
  approvedBy : option string;
  approvedAt : option Z
}.
End ClubMembership.

(* ===================================================================== *)
(** ** The match result reducer (the two [forEach] loops) *)
(* ===================================================================== *)

(** The five counters declared with [let] before the loops. *)
Record Tally := mkTally {
  t_wins : Z;
  t_draws : Z;
  t_losses : Z;
  t_goalsFor : Z;
  t_goalsAgainst : Z
}.

Definition tally0 : Tally := mkTally 0 0 0 0 0.

(** Body of the callback of the loop over the home matches, on goal
    counts within the safe integer range. *)
Definition processHome (acc : Tally) (m : Match.t) : Tally :=
  match Match.result m with
  | Some r =>
      let gf := t_goalsFor acc + homeGoals r in
      let ga := t_goalsAgainst acc + awayGoals r in
      if homeGoals r >? awayGoals r then
        mkTally (t_wins acc + 1) (t_draws acc) (t_losses acc) gf ga
      else if homeGoals r =? awayGoals r then
        mkTally (t_wins acc) (t_draws acc + 1) (t_losses acc) gf ga
      else
        mkTally (t_wins acc) (t_draws acc) (t_losses acc + 1) gf ga
  | None => acc
  end.

(** Body of the callback of the loop over the away matches. *)
Definition processAway (acc : Tally) (m : Match.t) : Tally :=
  match Match.result m with
  | Some r =>
      let gf := t_goalsFor acc + awayGoals r in
      let ga := t_goalsAgainst acc + homeGoals r in
      if awayGoals r >? homeGoals r then
        mkTally (t_wins acc + 1) (t_draws acc) (t_losses acc) gf ga
      else if awayGoals r =? homeGoals r then
        mkTally (t_wins acc) (t_draws acc + 1) (t_losses acc) gf ga
      else
        mkTally (t_wins acc) (t_draws acc) (t_losses acc + 1) gf ga
  | None => acc
  end.

(** The counters after both loops: home snapshot first, away snapshot
    second, each in snapshot order. *)
Definition runLoops (homeDocs awayDocs : list Match.t) : Tally :=
  fold_left processAway awayDocs (fold_left processHome homeDocs tally0).

(** The [stats] object built after the loops. *)
Definition buildStats (acc : Tally) : TeamStats :=
  let matchesPlayed := t_wins acc + t_draws acc + t_losses acc in
  let points := (t_wins acc * 3) + t_draws acc in
  {| matchesPlayed := matchesPlayed;
     wins := t_wins acc;
     draws := t_draws acc;
     losses := t_losses acc;
     goalsFor := t_goalsFor acc;
     goalsAgainst := t_goalsAgainst acc;
     points := points;
     currentStreak := {| type := win; count := 0 |} |}.

Definition aggregate (homeDocs awayDocs : list Match.t) : TeamStats :=
  buildStats (runLoops homeDocs awayDocs).

(* ===================================================================== *)
(** ** The document store and the effects of a callable *)
(* ===================================================================== *)

(** The collections the function touches: [teams] by document id, the
    [members] sub-collections by (club id, user id), and [matches] as the
    documents of the collection in the order queries return them. *)
Record Store := mkStore {
  teams : gmap string Team.t;
  members : gmap (string * string) ClubMembership.t;
  matches : list Match.t
}.

(** The store requests [calculateTeamStats] can issue, by call site. *)
Inductive StoreOp := TeamGet | MemberGet | HomeQuery | AwayQuery | TeamUpdate.

#[global] Instance StoreOp_eq_dec : EqDecision StoreOp.
Proof. solve_decision. Defined.

(** What one invocation finds outside itself: the wall clock read by
    [new Date()] and which store requests are rejected. *)
Record Env := mkEnv {
  now : Z;
  unavailable : StoreOp → bool
}.

Inductive HttpsCode :=
  | unauthenticated | invalid_argument | not_found
  | permission_denied | already_exists | internal.

Record HttpsError := mkHttpsError {
  code : HttpsCode;
  message : string
}.

(** A thrown value: an [HttpsError], or anything else (a rejected store
    request, a [TypeError]), which [instanceof HttpsError] tells apart. *)
Inductive Thrown :=
  | ThrowHttps (e : HttpsError)
  | ThrowOther (what : string).

(** The store and the log of the requests issued so far, oldest first. *)
Record World := mkWorld {
  db : Store;
  calls : list StoreOp
}.

Definition M (A : Type) : Type := World → (Thrown + A) * World.

Definition ret {A} (a : A) : M A := λ w, (inr a, w).

Definition bind {A B} (m : M A) (k : A → M B) : M B :=
  λ w, match m w with
       | (inl e, w') => (inl e, w')
       | (inr a, w') => k a w'
       end.

Definition throw {A} (e : Thrown) : M A := λ w, (inl e, w).

Definition tryCatch {A} (body : M A) (handler : Thrown → M A) : M A :=
  λ w, match body w with
       | (inl e, w') => handler e w'
       | (inr a, w') => (inr a, w')
       end.

Declare Scope fn_scope.
Delimit Scope fn_scope with fn.
Notation "'let*' x := m 'in' k" := (bind m (λ x, k))
  (at level 10, x name, m at level 100, k at level 200) : fn_scope.
Notation "m ;;; k" := (bind m (λ _, k))
  (at level 100, k at level 200, right associativity) : fn_scope.

(** Issuing a store request: it is logged, and rejected when the store is
    unavailable for it. *)
Definition request_store (env : Env) (op : StoreOp) : M unit :=
  λ w, let w' := mkWorld (db w) (calls w ++ [op]) in
       if unavailable env op
       then (inl (ThrowOther "store unavailable"), w')
       else (inr tt, w').

(** A document id: one path segment, that is a string that is not empty
    and has no [/] (the character 47) in it.  The ids under which a
    collection holds documents are document ids. *)
Fixpoint hasSlash (s : string) : bool :=
  match s with
  | EmptyString => false
  | String a s' => (Ascii.nat_of_ascii a =? 47)%nat || hasSlash s'
  end.

Definition isDocId (id : string) : bool :=
  negb (String.eqb id "") && negb (hasSlash id).

(** [db.collection(TEAMS).doc(teamId).get()] for a document id [teamId];
    [None] is a snapshot whose [exists] is false. *)
Definition getTeamDoc (env : Env) (teamId : string) : M (option Team.t) :=
  (request_store env TeamGet ;;;
   λ w, (inr (teams (db w) !! teamId), w))%fn.

(** [db.collection(CLUBS).doc(clubId).collection('members').doc(userId).get()]
    for document ids [clubId] and [userId]. *)
Definition getMembershipDoc (env : Env) (clubId userId : string)
  : M (option ClubMembership.t) :=
  (request_store env MemberGet ;;;
   λ w, (inr (members (db w) !! (clubId, userId)), w))%fn.

(** The two queries over the matches collection: equality on one team
    field and [status == 'finished']. *)
Definition finishedFor (field : Match.t → string) (teamId : string)
  (ms : list Match.t) : list Match.t :=
  filter (λ m, field m = teamId ∧ Match.status m = finished) ms.

Definition queryMatches (env : Env) (op : StoreOp)
  (field : Match.t → string) (teamId : string) : M (list Match.t) :=
  (request_store env op ;;;
   λ w, (inr (finishedFor field teamId (matches (db w))), w))%fn.

(** The fields [update({stats, updatedAt})] replaces in a team document. *)
Definition setStats (t : Team.t) (s : TeamStats) (at_ : Z) : Team.t :=
  {| Team.id := Team.id t;
     Team.createdAt := Team.createdAt t;
     Team.updatedAt := at_;
     Team.version := Team.version t;
     Team.createdBy := Team.createdBy t;
     Team.updatedBy := Team.updatedBy t;
     Team.clubId := Team.clubId t;
     Team.name := Team.name t;
     Team.category := Team.category t;
     Team.season := Team.season t;
     Team.description := Team.description t;
     Team.coach := Team.coach t;
     Team.players := Team.players t;
     Team.stats := s |}.

(** [db.collection(TEAMS).doc(teamId).update({stats, updatedAt: new Date()})];
    the store rejects an update of a document that does not exist. *)
Definition updateTeamDoc (env : Env) (teamId : string) (s : TeamStats) : M unit :=
  (request_store env TeamUpdate ;;;
   λ w, match teams (db w) !! teamId with
        | Some t =>
            (inr tt,
             mkWorld (mkStore (<[teamId := setStats t s (now env)]> (teams (db w)))
                              (members (db w)) (matches (db w)))
                     (calls w))
        | None => (inl (ThrowOther "no document to update"), w)
        end)%fn.

(* ===================================================================== *)
(** ** Utility functions *)
(* ===================================================================== *)

Record AuthToken := mkAuthToken {
  email : option string;
  email_verified : bool
}.

Record AuthData := mkAuthData {
  uid : string;
  token : AuthToken
}.

Record RequestData := mkRequestData {
  teamId : option string
}.

Record CallableRequest := mkCallableRequest {
  auth : option AuthData;
  data : option RequestData
}.

Record AuthContext := mkAuthContext {
  ctx_uid : string;
  ctx_email : option string;
  ctx_emailVerified : bool
}.

Definition getAuthContext (context : CallableRequest) : M AuthContext :=
  match auth context with
  | None =>
      throw (ThrowHttps (mkHttpsError unauthenticated "Authentication required"))
  | Some a =>
      ret {| ctx_uid := uid a;
             ctx_email := email (token a);
             ctx_emailVerified := email_verified (token a) |}
  end.

(** The [try] block answers whether the membership is active; the [catch]
    block answers [false] for anything thrown. *)
Definition hasClubPermission (env : Env) (userId clubId : string)
  (requiredRole : string) : M bool :=
  tryCatch
    (let* membershipDoc := getMembershipDoc env clubId userId in
     match membershipDoc with
     | None => ret false
     | Some membership =>
         ret (bool_decide (ClubMembership.status membership = active))
     end)%fn
    (λ _, ret false).

(* ===================================================================== *)
(** ** calculateTeamStats *)
(* ===================================================================== *)

Record Response := mkResponse {
  success : bool;
  stats : TeamStats
}.

(** [!teamId] holds of an absent identifier and of the empty string. *)
Definition calculateTeamStats (env : Env) (request : CallableRequest) : M Response :=
  tryCatch
    (let* auth := getAuthContext request in
     match data request with
     | None => throw (ThrowOther "cannot destructure request.data")
     | Some d =>
       match teamId d with
       | None =>
           throw (ThrowHttps (mkHttpsError invalid_argument "Team ID is required"))
       | Some teamId =>
         if bool_decide (teamId = "") then
           throw (ThrowHttps (mkHttpsError invalid_argument "Team ID is required"))
         else
           let* teamDoc := getTeamDoc env teamId in
           match teamDoc with
           | None =>
               throw (ThrowHttps (mkHttpsError not_found "Team not found"))
           | Some team =>
               let* hasPermission :=
                 hasClubPermission env (ctx_uid auth) (Team.clubId team) "member" in
               if negb hasPermission then
                 throw (ThrowHttps
                          (mkHttpsError permission_denied "No access to this team"))
               else
                 let* matchesSnapshot :=
                   queryMatches env HomeQuery Match.homeTeamId teamId in
                 let* awayMatchesSnapshot :=
                   queryMatches env AwayQuery Match.awayTeamId teamId in
                 let stats := aggregate matchesSnapshot awayMatchesSnapshot in
                 updateTeamDoc env teamId stats ;;;
                 ret {| success := true; stats := stats |}
           end
       end
     end)%fn
    (λ error,
       match error with
       | ThrowHttps _ => throw error
       | ThrowOther _ =>
           throw (ThrowHttps
                    (mkHttpsError internal "Failed to calculate team stats"))
       end).

(** One invocation against a store: the answer (an error or the response),
    the store afterwards and the store requests issued. *)
Definition invoke (env : Env) (request : CallableRequest) (s : Store)
  : (Thrown + Response) * World :=
  calculateTeamStats env request (mkWorld s []).

(* ===================================================================== *)
(** ** What the specification's words denote *)
(* ===================================================================== *)

Fixpoint sumZ {A} (f : A → Z) (l : list A) : Z :=
  match l with
  | [] => 0
  | x :: l' => f x + sumZ f l'
  end.

(** The results of the matches a snapshot contributes: those that carry
    a result. *)
Definition counted (docs : list Match.t) : list MatchResult :=
  omap Match.result docs.

(** [Number.MAX_SAFE_INTEGER]: up to it, in absolute value, a JavaScript
    number that is an integer is that integer, and adding and comparing
    such numbers is exact as long as the sum stays in the range. *)
Definition MAX_SAFE_INTEGER : Z := 2 ^ 53 - 1.

Definition goalsOf (r : MatchResult) : Z := homeGoals r + awayGoals r.

Definition safeResult (r : MatchResult) : bool :=
  (0 <=? homeGoals r) && (0 <=? awayGoals r).

(** A collection within the safe range.  Every reported goal count is a
    non-negative integer and all of them together add up to at most
    [MAX_SAFE_INTEGER], which bounds every sum of goals the loops form
    for any team.  Six times the number of matches is at most
    [MAX_SAFE_INTEGER] as well, which bounds the counters and the points:
    a match counts twice for a team that plays itself, at three points a
    win. *)
Definition safeGoals (ms : list Match.t) : bool :=
  forallb safeResult (counted ms)
  && (sumZ goalsOf (counted ms) <=? MAX_SAFE_INTEGER)
  && (6 * Z.of_nat (length ms) <=? MAX_SAFE_INTEGER).

(** The club membership that lets a caller through the permission check. *)
Definition isActiveMember (s : Store) (clubId userId : string) : Prop :=
  ∃ membership, members s !! (clubId, userId) = Some membership
                ∧ ClubMembership.status membership = active.

(** The store after a successful run for [teamId]. *)
Definition storeAfter (env : Env) (s : Store) (teamId : string)
  (team : Team.t) (st : TeamStats) : Store :=
  mkStore (<[teamId := setStats team st (now env)]> (teams s))
          (members s) (matches s).

Definition statsFor (teamId : string) (ms : list Match.t) : TeamStats :=
  aggregate (finishedFor Match.homeTeamId teamId ms)
            (finishedFor Match.awayTeamId teamId ms).

(** The fields of the statistics that count matches, and the points
    computed from them: (matchesPlayed, wins, draws, losses, points). *)
Definition counts (st : TeamStats) : Z * Z * Z * Z * Z :=
  (matchesPlayed st, wins st, draws st, losses st, points st).

Definition allCalls : list StoreOp :=
  [TeamGet; MemberGet; HomeQuery; AwayQuery; TeamUpdate].

(** Two results that differ at most in their penalty counts. *)
Definition samePenaltiesApartR (r r' : MatchResult) : Prop :=
  homeGoals r = homeGoals r' ∧ awayGoals r = awayGoals r' ∧ notes r = notes r'.

(** Two match documents that differ at most in the penalty counts of
    their results. *)
Definition samePenaltiesApart (m m' : Match.t) : Prop :=
  Match.id m = Match.id m'
  ∧ Match.clubId m = Match.clubId m'
  ∧ Match.homeTeamId m = Match.homeTeamId m'
  ∧ Match.awayTeamId m = Match.awayTeamId m'
  ∧ Match.date m = Match.date m'
  ∧ Match.status m = Match.status m'
  ∧ option_Forall2 samePenaltiesApartR (Match.result m) (Match.result m')
  ∧ Match.createdAt m = Match.createdAt m'
  ∧ Match.updatedAt m = Match.updatedAt m'
  ∧ Match.version m = Match.version m'.

(** Two team documents that agree on every field other than [stats] and
    [updatedAt]. *)
Definition sameOtherFields (t t' : Team.t) : Prop :=
  Team.id t = Team.id t'
  ∧ Team.createdAt t = Team.createdAt t'
  ∧ Team.version t = Team.version t'
  ∧ Team.createdBy t = Team.createdBy t'
  ∧ Team.updatedBy t = Team.updatedBy t'
  ∧ Team.clubId t = Team.clubId t'
  ∧ Team.name t = Team.name t'
  ∧ Team.category t = Team.category t'
  ∧ Team.season t = Team.season t'
  ∧ Team.description t = Team.description t'
  ∧ Team.coach t = Team.coach t'
  ∧ Team.players t = Team.players t'.

(** Counters add up componentwise; each loop body adds the contribution
    of one match to the counters it is given. *)
Definition addTally (a b : Tally) : Tally :=
  mkTally (t_wins a + t_wins b) (t_draws a + t_draws b)
          (t_losses a + t_losses b) (t_goalsFor a + t_goalsFor b)
          (t_goalsAgainst a + t_goalsAgainst b).

(** What one document of the matches collection adds to the counters of
    [teamId]: its home contribution when the home query returns it, plus
    its away contribution when the away query returns it. *)
Definition contribution (teamId : string) (m : Match.t) : Tally :=
  addTally
    (if bool_decide (Match.homeTeamId m = teamId ∧ Match.status m = finished)
     then processHome tally0 m else tally0)
    (if bool_decide (Match.awayTeamId m = teamId ∧ Match.status m = finished)
     then processAway tally0 m else tally0).

Definition tallyFor (teamId : string) (ms : list Match.t) : Tally :=
  runLoops (finishedFor Match.homeTeamId teamId ms)
           (finishedFor Match.awayTeamId teamId ms).

(** The documents in the order the two loops visit them, each with the
    loop that visits it. *)
Inductive Side := Home | Away.

Definition processEntry (acc : Tally) (e : Side * Match.t) : Tally :=
  match e.1 with
  | Home => processHome acc e.2
  | Away => processAway acc e.2
  end.

Definition processingOrder (homeDocs awayDocs : list Match.t)
  : list (Side * Match.t) :=
  ((λ m, (Home, m)) <$> homeDocs) ++ ((λ m, (Away, m)) <$> awayDocs).

(* ===================================================================== *)
(** ** The loops on JavaScript numbers *)
(* ===================================================================== *)

(** The two loops and the statistics literal once more, with the
    counters and the goals as the doubles they are at run time.  Within
    the safe range this is the computation above; beyond it the sums are
    rounded to the nearest double. *)
Module Js.

Definition number : Set := PrimFloat.float.

(** The number an integer is read as: up to [MAX_SAFE_INTEGER] in
    absolute value the integer itself, beyond it the nearest double. *)
Definition ofZ (z : Z) : number :=
  FloatOps.SF2Prim
    (SpecFloat.binary_normalize FloatOps.prec FloatOps.emax z 0 false).

(** The integer a number is, when it is one. *)
Definition toZ (x : number) : option Z :=
  match FloatOps.Prim2SF x with
  | SpecFloat.S754_zero _ => Some 0
  | SpecFloat.S754_finite s m e =>
      let v := if s then Z.neg m else Z.pos m in
      if 0 <=? e then Some (v * 2 ^ e)
      else if v mod 2 ^ (- e) =? 0 then Some (v / 2 ^ (- e))
      else None
  | _ => None
  end.

(** [a > b] and [a === b] on numbers. *)
Definition gt (a b : number) : bool := PrimFloat.ltb b a.
Definition strictEq (a b : number) : bool := PrimFloat.eqb a b.

(** [x++] on a counter. *)
Definition incr (x : number) : number := PrimFloat.add x (ofZ 1).

Record Tally := mkTally {
  t_wins : number;
  t_draws : number;
  t_losses : number;
  t_goalsFor : number;
  t_goalsAgainst : number
}.

Definition tally0 : Tally :=
  mkTally (ofZ 0) (ofZ 0) (ofZ 0) (ofZ 0) (ofZ 0).

Definition processHome (acc : Tally) (m : Match.t) : Tally :=
  match Match.result m with
  | Some r =>
      let hg := ofZ (homeGoals r) in
      let ag := ofZ (awayGoals r) in
      let gf := PrimFloat.add (t_goalsFor acc) hg in
      let ga := PrimFloat.add (t_goalsAgainst acc) ag in
      if gt hg ag then
        mkTally (incr (t_wins acc)) (t_draws acc) (t_losses acc) gf ga
      else if strictEq hg ag then
        mkTally (t_wins acc) (incr (t_draws acc)) (t_losses acc) gf ga
      else
        mkTally (t_wins acc) (t_draws acc) (incr (t_losses acc)) gf ga
  | None => acc
  end.

Definition processAway (acc : Tally) (m : Match.t) : Tally :=
  match Match.result m with
  | Some r =>
      let hg := ofZ (homeGoals r) in
      let ag := ofZ (awayGoals r) in
      let gf := PrimFloat.add (t_goalsFor acc) ag in
      let ga := PrimFloat.add (t_goalsAgainst acc) hg in
      if gt ag hg then
        mkTally (incr (t_wins acc)) (t_draws acc) (t_losses acc) gf ga
      else if strictEq ag hg then
        mkTally (t_wins acc) (incr (t_draws acc)) (t_losses acc) gf ga
      else
        mkTally (t_wins acc) (t_draws acc) (incr (t_losses acc)) gf ga
  | None => acc
  end.

Definition runLoops (homeDocs awayDocs : list Match.t) : Tally :=
  fold_left processAway awayDocs (fold_left processHome homeDocs tally0).

(** One step of a visit of the documents of both snapshots in any
    order. *)
Definition processEntry (acc : Tally) (e : Side * Match.t) : Tally :=
  match e.1 with
  | Home => processHome acc e.2
  | Away => processAway acc e.2
  end.

(** Counters that agree on wins, draws and losses. *)
Definition sameCounters (a b : Tally) : Prop :=
  t_wins a = t_wins b ∧ t_draws a = t_draws b ∧ t_losses a = t_losses b.

(** The statistics literal, without the streak, which no arithmetic
    enters. *)
Record TeamStats := mkTeamStats {
  matchesPlayed : number;
  wins : number;
  draws : number;
  losses : number;
  goalsFor : number;
  goalsAgainst : number;
  points : number
}.

Definition buildStats (acc : Tally) : TeamStats :=
  {| matchesPlayed :=
       PrimFloat.add (PrimFloat.add (t_wins acc) (t_draws acc)) (t_losses acc);
     wins := t_wins acc;
     draws := t_draws acc;
     losses := t_losses acc;
     goalsFor := t_goalsFor acc;
     goalsAgainst := t_goalsAgainst acc;
     points := PrimFloat.add (PrimFloat.mul (t_wins acc) (ofZ 3)) (t_draws acc) |}.

Definition aggregate (homeDocs awayDocs : list Match.t) : TeamStats :=
  buildStats (runLoops homeDocs awayDocs).

(** What a run for [teamId] computes over the matches collection [ms]. *)
Definition statsFor (teamId : string) (ms : list Match.t) : TeamStats :=
  aggregate (finishedFor Match.homeTeamId teamId ms)
            (finishedFor Match.awayTeamId teamId ms).

(** The fields of the statistics that count matches, and the points
    computed from them: (matchesPlayed, wins, draws, losses, points). *)
Definition counts (st : TeamStats)
  : number * number * number * number * number :=
  (matchesPlayed st, wins st, draws st, losses st, points st).

End Js.

(** The statistics of [Js.statsFor] as integers, when all of them are,
    with the streak literal put back. *)
Definition exactStats (st : Js.TeamStats) : option TeamStats :=
  mp ← Js.toZ (Js.matchesPlayed st);
  w ← Js.toZ (Js.wins st);
  d ← Js.toZ (Js.draws st);
  l ← Js.toZ (Js.losses st);
  gf ← Js.toZ (Js.goalsFor st);
  ga ← Js.toZ (Js.goalsAgainst st);
  p ← Js.toZ (Js.points st);
  Some (mkTeamStats mp w d l gf ga p (mkStreakInfo win 0)).

(** Integer counters and statistics as the doubles that hold them. *)
Definition toJsTally (t : Tally) : Js.Tally :=
  Js.mkTally (Js.ofZ (t_wins t)) (Js.ofZ (t_draws t)) (Js.ofZ (t_losses t))
             (Js.ofZ (t_goalsFor t)) (Js.ofZ (t_goalsAgainst t)).

Definition toJsStats (st : TeamStats) : Js.TeamStats :=
  Js.mkTeamStats (Js.ofZ (matchesPlayed st)) (Js.ofZ (wins st))
                 (Js.ofZ (draws st)) (Js.ofZ (losses st))
                 (Js.ofZ (goalsFor st)) (Js.ofZ (goalsAgainst st))
                 (Js.ofZ (points st)).

(* --------------------------------------------------------------------- *)
(** *** Doubles that are integers *)

(** The notions used to show that the arithmetic of doubles is exact on
    the safe integers that are not negative. *)
Definition safeNat (z : Z) : Prop := 0 ≤ z ≤ MAX_SAFE_INTEGER.

(** Counters that are all safe, and counters that are nowhere smaller
    than others. *)
Definition safeTally (t : Tally) : Prop :=
  safeNat (t_wins t) ∧ safeNat (t_draws t) ∧ safeNat (t_losses t)
  ∧ safeNat (t_goalsFor t) ∧ safeNat (t_goalsAgainst t).

Definition leTally (a b : Tally) : Prop :=
  t_wins a ≤ t_wins b ∧ t_draws a ≤ t_draws b ∧ t_losses a ≤ t_losses b
  ∧ t_goalsFor a ≤ t_goalsFor b ∧ t_goalsAgainst a ≤ t_goalsAgainst b.

(** [n] with [k] zero bits appended, and the number of bits of [n]. *)
Definition shl (n : positive) (k : nat) : positive := Nat.iter k xO n.

Definition size (n : positive) : Z := Zpos (Pos.size n).

(** The double that is the integer [n] of at most 53 bits: the mantissa
    is [n] shifted to 53 bits. *)
Definition canonSF (n : positive) : SpecFloat.spec_float :=
  SpecFloat.S754_finite false (shl n (Z.to_nat (53 - size n))) (size n - 53).

(** The double nearest to an integer, in the specification of the
    arithmetic; [Js.ofZ] is its primitive counterpart. *)
Definition sfOf (z : Z) : SpecFloat.spec_float :=
  SpecFloat.binary_normalize FloatOps.prec FloatOps.emax z 0 false.

(* ===================================================================== *)
(** ** Sample documents *)
(* ===================================================================== *)

Module Sample.
Definition zeroStats : TeamStats :=
  mkTeamStats 0 0 0 0 0 0 0 (mkStreakInfo win 0).

Definition mkTeam (tid club : string) : Team.t :=
  Team.mk tid 10 10 1 "ana" "ana" club tid "men_senior" "2024/25" None
          (mkCoach "ana" None [] 10) [] zeroStats.

Definition played (mid home away : string) (hg ag : Z) : Match.t :=
  Match.mk mid "club1" home away 100 finished
           (Some (mkMatchResult hg ag None None None)) 100 100 1.

Definition unreported (mid home away : string) : Match.t :=
  Match.mk mid "club1" home away 100 finished None 100 100 1.

(** The home win of the specification: A 3 - 1 B. *)
Definition homeWin : Match.t := played "m1" "A" "B" 3 1.

(** A played away and lost: B 2 - 0 A. *)
Definition awayLoss : Match.t := played "m3" "B" "A" 2 0.

(** A drawn cup tie that A won on penalties. *)
Definition shootout : Match.t :=
  Match.mk "m2" "club1" "A" "B" 200 finished
           (Some (mkMatchResult 2 2 (Some 5) (Some 4) None)) 200 200 1.

Definition shootoutNoPens : Match.t :=
  Match.mk "m2" "club1" "A" "B" 200 finished
           (Some (mkMatchResult 2 2 None None None)) 200 200 1.

Definition ana : AuthData := mkAuthData "ana" (mkAuthToken None true).

Definition anaMember : ClubMembership.t :=
  ClubMembership.mk "club1" "ana" active 10 (Some "ana") (Some 10).

Definition store (ms : list Match.t) : Store :=
  mkStore {[ "A" := mkTeam "A" "club1"; "B" := mkTeam "B" "club1" ]}
          {[ ("club1", "ana") := anaMember ]}
          ms.

Definition ask (who : option AuthData) (tid : string) : CallableRequest :=
  mkCallableRequest who (Some (mkRequestData (Some tid))).

Definition healthy : Env := mkEnv 500 (λ _, false).

Definition membersDown : Env :=
  mkEnv 500 (λ op, bool_decide (op = MemberGet)).

Definition writesDown : Env :=
  mkEnv 500 (λ op, bool_decide (op = TeamUpdate)).
End Sample.

(* ===================================================================== *)
(** ** Outcomes of single results *)
(* ===================================================================== *)

(** The three-way comparison of the loop bodies, seen from the home side
    and from the away side. *)
Definition homeWon (r : MatchResult) : bool := homeGoals r >? awayGoals r.
Definition awayWon (r : MatchResult) : bool := awayGoals r >? homeGoals r.
Definition level (r : MatchResult) : bool := homeGoals r =? awayGoals r.

Definition countIf {A} (p : A → bool) (l : list A) : Z :=
  sumZ (λ x, if p x then 1 else 0) l.

(** The statistics of a team no counted match refers to. *)
Definition emptyStats : TeamStats :=
  mkTeamStats 0 0 0 0 0 0 0 (mkStreakInfo win 0).

(** The team document with another value in its [stats] field. *)
Definition withStats (t : Team.t) (s : TeamStats) : Team.t :=
  setStats t s (Team.updatedAt t).

(** The counters of the opponent in a match between two teams: wins and
    losses change places, and so do goals for and against. *)
Definition swapTally (t : Tally) : Tally :=
  mkTally (t_losses t) (t_draws t) (t_wins t) (t_goalsAgainst t) (t_goalsFor t).

(* ===================================================================== *)
(** ** Clubs, memberships and users (shared/types) *)
(* ===================================================================== *)

Module Feature.
Inductive t := teams | matches | training | finance | communication
             | statistics | events.
End Feature.

Module Plan.
Inductive t := free | basic | premium | enterprise.
End Plan.

Module SubscriptionStatus.
Inductive t := active | expired | cancelled | suspended.
End SubscriptionStatus.

Module Role.
Inductive t := admin | manager | coach | player | parent | supporter.

#[global] Instance eq_dec : EqDecision t.
Proof. solve_decision. Defined.
End Role.

Module Colors.
Record t := mk {
  primary : string;
  secondary : string;
  accent : option string
}.
End Colors.

Module Address.
Record t := mk {
  street : string;
  city : string;
  postalCode : string;
  country : string
}.
End Address.

Module Contact.
Record t := mk {
  email : string;
  phone : option string;
  website : option string
}.
End Contact.

Module Settings.
Record t := mk {
  isPublic : bool;
  allowRegistration : bool;
  requireApproval : bool;
  features : list Feature.t
}.
End Settings.

Module Subscription.
Record t := mk {
  plan : Plan.t;
  status : SubscriptionStatus.t;
  expiresAt : Z;
  features : list Feature.t
}.
End Subscription.

Module ClubStats.
Record t := mk {
  memberCount : Z;
  teamCount : Z;
  matchCount : Z;
  activeSeasons : list string
}.
End ClubStats.

(** A club document, with the fields the functions write. *)
Module Club.
Record t := mk {
  name : string;
  slug : string;
  description : option string;
  colors : Colors.t;
  address : Address.t;
  contact : Contact.t;
  settings : Settings.t;
  subscription : Subscription.t;
  stats : ClubStats.t;
  createdBy : string;
  updatedBy : string;
  createdAt : Z;
  updatedAt : Z;
  version : Z
}.
End Club.

(** A document of a club's [members] sub-collection: the membership and
    the bookkeeping fields written with it. *)
Module MemberDoc.
Record t := mk {
  membership : ClubMembership.t;
  createdAt : Z;
  updatedAt : Z;
  version : Z
}.
End MemberDoc.

(** The entry [createClub] adds to a user's [clubMemberships] array. *)
Module UserClub.
Record t := mk {
  clubId : string;
  role : Role.t;
  joinedAt : Z
}.

#[global] Instance eq_dec : EqDecision t.
Proof. solve_decision. Defined.
End UserClub.

(** A user document.  The roles and preferences of the interface are
    neither read nor written by the functions embedded here and are left
    out. *)
Module User.
Record t := mk {
  email : string;
  displayName : string;
  photoURL : option string;
  emailVerified : bool;
  clubMemberships : list UserClub.t;
  createdAt : Z;
  updatedAt : Z;
  version : Z
}.
End User.

(* ===================================================================== *)
(** ** The store of the club functions and their effects *)
(* ===================================================================== *)

Record Db := mkDb {
  clubs : gmap string Club.t;
  memberDocs : gmap (string * string) MemberDoc.t;
  users : gmap string User.t
}.

(** The store requests of the club functions and of the triggers, with
    the document or value they name. *)
Inductive Ask :=
  | AskClub (clubId : string)
  | AskMember (clubId userId : string)
  | PutMember (clubId userId : string)
  | PatchClub (clubId : string)
  | AskSlug (slug : string)
  | CommitBatch.

#[global] Instance Ask_eq_dec : EqDecision Ask.
Proof. solve_decision. Defined.

(** What an invocation finds outside itself: the two clock readings
    ([new Date()] and [Date.now()]), which store requests are rejected,
    whether the store handle has a [FieldValue] member, the identifier
    an empty [doc()] call generates, and what the validation library
    accepts as an e-mail address and as a URL. *)
Record Host := mkHost {
  newDate : Z;
  dateNow : Z;
  rejects : Ask → bool;
  hasFieldValue : bool;
  autoId : string;
  isEmail : string → bool;
  isUrl : string → bool
}.

(** A thrown value, as the [catch] blocks tell them apart. *)
Inductive Raised :=
  | RaisedHttps (e : HttpsError)
  | RaisedZod
  | RaisedOther.

Record Sys := mkSys {
  dbOf : Db;
  asked : list Ask
}.

Module Fn.
Definition t (A : Type) : Type := Sys → (Raised + A) * Sys.

Definition ret {A} (a : A) : t A := λ w, (inr a, w).

Definition bind {A B} (m : t A) (k : A → t B) : t B :=
  λ w, match m w with
       | (inl e, w') => (inl e, w')
       | (inr a, w') => k a w'
       end.

Definition throw {A} (e : Raised) : t A := λ w, (inl e, w).

Definition tryCatch {A} (body : t A) (handler : Raised → t A) : t A :=
  λ w, match body w with
       | (inl e, w') => handler e w'
       | (inr a, w') => (inr a, w')
       end.

(** A store request: logged, and rejected when the host says so. *)
Definition ask (h : Host) (q : Ask) : t unit :=
  λ w, let w' := mkSys (dbOf w) (asked w ++ [q]) in
       if rejects h q then (inl RaisedOther, w') else (inr tt, w').

Definition read {A} (f : Db → A) : t A := λ w, (inr (f (dbOf w)), w).

Definition write (f : Db → Db) : t unit :=
  λ w, (inr tt, mkSys (f (dbOf w)) (asked w)).
End Fn.

Declare Scope club_scope.
Delimit Scope club_scope with club.
Notation "'let*' x := m 'in' k" := (Fn.bind m (λ x, k))
  (at level 10, x name, m at level 100, k at level 200) : club_scope.
Notation "m ;;; k" := (Fn.bind m (λ _, k))
  (at level 100, k at level 200, right associativity) : club_scope.

(** A callable request with a payload of type [D]; a missing payload is
    [None]. *)
Record Call (D : Type) := mkCall {
  caller : option AuthData;
  payload : option D
}.
Arguments mkCall {D}.
Arguments caller {D}.
Arguments payload {D}.

(** A field of a payload: absent, a string, or a value of another type. *)
Inductive Raw := Absent | Str (s : string) | NotStr.

(** [getAuthContext] for a request of any payload: it looks at [auth]
    alone and touches neither the store nor the request log. *)
Definition authContext {D} (request : Call D) : Fn.t AuthContext :=
  λ w, match getAuthContext (mkCallableRequest (caller request) None)
                            (mkWorld (mkStore ∅ ∅ []) []) with
       | (inr a, _) => (inr a, w)
       | (inl (ThrowHttps e), _) => (inl (RaisedHttps e), w)
       | (inl (ThrowOther _), _) => (inl RaisedOther, w)
       end.

(** [schema.parse(request.data)]: the parsed value, or a [ZodError]. *)
Definition parse {D P} (schema : option D → option P) (d : option D) : Fn.t P :=
  match schema d with
  | Some p => Fn.ret p
  | None => Fn.throw RaisedZod
  end.

(* --------------------------------------------------------------------- *)
(** *** Store operations *)

(** [db.collection(CLUBS).doc(clubId).get()] and the read of a member
    document below it, for document ids ([isDocId]), as with
    [getTeamDoc]. *)
Definition getClubDoc (h : Host) (clubId : string) : Fn.t (option Club.t) :=
  (Fn.ask h (AskClub clubId) ;;;
   Fn.read (λ d, clubs d !! clubId))%club.

Definition getMemberDoc (h : Host) (clubId userId : string)
  : Fn.t (option MemberDoc.t) :=
  (Fn.ask h (AskMember clubId userId) ;;;
   Fn.read (λ d, memberDocs d !! (clubId, userId)))%club.

(** [.set(membershipData)] on a member document: creates or replaces it. *)
Definition setMemberDoc (h : Host) (clubId userId : string) (m : MemberDoc.t)
  : Fn.t unit :=
  (Fn.ask h (PutMember clubId userId) ;;;
   Fn.write (λ d, mkDb (clubs d) (<[(clubId, userId) := m]> (memberDocs d))
                       (users d)))%club.

Definition withClubStats (c : Club.t) (s : ClubStats.t) (at_ : Z) : Club.t :=
  {| Club.name := Club.name c;
     Club.slug := Club.slug c;
     Club.description := Club.description c;
     Club.colors := Club.colors c;
     Club.address := Club.address c;
     Club.contact := Club.contact c;
     Club.settings := Club.settings c;
     Club.subscription := Club.subscription c;
     Club.stats := s;
     Club.createdBy := Club.createdBy c;
     Club.updatedBy := Club.updatedBy c;
     Club.createdAt := Club.createdAt c;
     Club.updatedAt := at_;
     Club.version := Club.version c |}.

(** The three counters [FieldValue.increment(1)] is applied to. *)
Definition bumpMembers (s : ClubStats.t) : ClubStats.t :=
  ClubStats.mk (ClubStats.memberCount s + 1) (ClubStats.teamCount s)
               (ClubStats.matchCount s) (ClubStats.activeSeasons s).

Definition bumpTeams (s : ClubStats.t) : ClubStats.t :=
  ClubStats.mk (ClubStats.memberCount s) (ClubStats.teamCount s + 1)
               (ClubStats.matchCount s) (ClubStats.activeSeasons s).

Definition bumpMatches (s : ClubStats.t) : ClubStats.t :=
  ClubStats.mk (ClubStats.memberCount s) (ClubStats.teamCount s)
               (ClubStats.matchCount s + 1) (ClubStats.activeSeasons s).

(** [.update({'stats.<counter>': db.FieldValue.increment(1), updatedAt})]
    on a club document.  The argument object is built before the store
    is asked, so a handle without [FieldValue] throws without a request;
    the store rejects an update of a document that does not exist. *)
Definition incrementClubStat (h : Host) (clubId : string)
  (bump : ClubStats.t → ClubStats.t) (at_ : Z) : Fn.t unit :=
  if negb (hasFieldValue h) then Fn.throw RaisedOther
  else
    (Fn.ask h (PatchClub clubId) ;;;
     λ w, match clubs (dbOf w) !! clubId with
          | Some c =>
              Fn.write
                (λ d, mkDb (<[clubId := withClubStats c (bump (Club.stats c)) at_]>
                              (clubs d))
                           (memberDocs d) (users d)) w
          | None => (inl RaisedOther, w)
          end)%club.

(* --------------------------------------------------------------------- *)
(** *** joinClub *)

Module RawJoin.
Record t := mk {
  clubId : Raw;
  role : Raw
}.
End RawJoin.

Module JoinData.
Record t := mk {
  clubId : string;
  role : string
}.
End JoinData.

(** [z.object({clubId: z.string(), role: z.enum([...])})] *)
Definition joinClubSchema (d : option RawJoin.t) : option JoinData.t :=
  match d with
  | Some {| RawJoin.clubId := Str c; RawJoin.role := Str r |} =>
      if bool_decide (r ∈ ["player"; "coach"; "parent"; "supporter"])
      then Some (JoinData.mk c r) else None
  | _ => None
  end.

Record JoinResponse := mkJoinResponse {
  join_success : bool;
  join_status : MembershipStatus;
  join_requiresApproval : bool
}.

Definition joinClub (h : Host) (request : Call RawJoin.t) : Fn.t JoinResponse :=
  Fn.tryCatch
    (let* auth := authContext request in
     let* data := parse joinClubSchema (payload request) in
     let* clubDoc := getClubDoc h (JoinData.clubId data) in
     match clubDoc with
     | None =>
         Fn.throw (RaisedHttps (mkHttpsError not_found "Club not found"))
     | Some club =>
         if negb (Settings.allowRegistration (Club.settings club)) then
           Fn.throw (RaisedHttps
                       (mkHttpsError permission_denied "Club registration is closed"))
         else
           let* existingMembership :=
             getMemberDoc h (JoinData.clubId data) (ctx_uid auth) in
           match existingMembership with
           | Some _ =>
               Fn.throw (RaisedHttps
                           (mkHttpsError already_exists
                                         "Already a member of this club"))
           | None =>
               let now := newDate h in
               let requiresApproval :=
                 Settings.requireApproval (Club.settings club) in
               let membershipData :=
                 MemberDoc.mk
                   (ClubMembership.mk
                      (JoinData.clubId data) (ctx_uid auth)
                      (if requiresApproval then pending else active)
                      now None
                      (if requiresApproval then None else Some now))
                   now now 1 in
               setMemberDoc h (JoinData.clubId data) (ctx_uid auth)
                            membershipData ;;;
               incrementClubStat h (JoinData.clubId data) bumpMembers now ;;;
               Fn.ret {| join_success := true;
                         join_status :=
                           ClubMembership.status
                             (MemberDoc.membership membershipData);
                         join_requiresApproval := requiresApproval |}
           end
     end)%club
    (λ error,
       match error with
       | RaisedHttps _ => Fn.throw error
       | RaisedZod =>
           Fn.throw (RaisedHttps
                       (mkHttpsError invalid_argument "Validation failed"))
       | RaisedOther =>
           Fn.throw (RaisedHttps (mkHttpsError internal "Failed to join club"))
       end).


Module ClubSample.
Definition fcOpen (approval : bool) : Club.t :=
  Club.mk "FC Open" "fc-open" None
          (Colors.mk "red" "white" None)
          (Address.mk "Main St 1" "Rome" "00100" "IT")
          (Contact.mk "info@fc-open.example" None None)
          (Settings.mk false true approval [Feature.teams; Feature.matches])
          (Subscription.mk Plan.free SubscriptionStatus.active 9000
                           [Feature.teams; Feature.matches])
          (ClubStats.mk 1 0 0 [])
          "ana" "ana" 10 10 1.

Definition fcClosed : Club.t :=
  Club.mk "FC Closed" "fc-closed" None
          (Colors.mk "blue" "black" None)
          (Address.mk "Side St 2" "Rome" "00100" "IT")
          (Contact.mk "info@fc-closed.example" None None)
          (Settings.mk false false true [Feature.teams; Feature.matches])
          (Subscription.mk Plan.free SubscriptionStatus.active 9000
                           [Feature.teams; Feature.matches])
          (ClubStats.mk 1 0 0 [])
          "ana" "ana" 10 10 1.

Definition anaDoc : MemberDoc.t := MemberDoc.mk Sample.anaMember 10 10 1.

Definition user (mail : string) : User.t :=
  User.mk mail mail None true [] 5 5 1.

Definition bo : AuthData := mkAuthData "bo" (mkAuthToken None true).

(** Two clubs, FC Open (id club1, founded by ana) and FC Closed, and two
    users. *)
Definition db (approval : bool) : Db :=
  mkDb {[ "club1" := fcOpen approval; "club2" := fcClosed ]}
       {[ ("club1", "ana") := anaDoc ]}
       {[ "ana" := user "ana@example.org"; "bo" := user "bo@example.org" ]}.

Definition host : Host :=
  mkHost 700 701 (λ _, false) true "club9"
         (λ s, bool_decide (is_Some (String.index 0 "@" s)))
         (λ s, String.prefix "https://" s).

Definition noFieldValue : Host :=
  mkHost 700 701 (λ _, false) false "club9"
         (λ s, bool_decide (is_Some (String.index 0 "@" s)))
         (λ s, String.prefix "https://" s).

Definition join (who : option AuthData) (club role : string) : Call RawJoin.t :=
  mkCall who (Some (RawJoin.mk (Str club) (Str role))).
End ClubSample.

(* --------------------------------------------------------------------- *)
(** *** What the properties of joinClub speak about *)

Definition joinableRoles : list string :=
  ["player"; "coach"; "parent"; "supporter"].

(** The member document a successful join writes. *)
Definition joinedMember (h : Host) (clubId userId : string) (approval : bool)
  : MemberDoc.t :=
  MemberDoc.mk
    (ClubMembership.mk clubId userId (if approval then pending else active)
                       (newDate h) None
                       (if approval then None else Some (newDate h)))
    (newDate h) (newDate h) 1.


(** The store after a successful join. *)
Definition joinedDb (h : Host) (d : Db) (clubId userId : string)
  (club : Club.t) : Db :=
  mkDb (<[clubId := withClubStats club (bumpMembers (Club.stats club))
                                  (newDate h)]> (clubs d))
       (<[(clubId, userId) :=
            joinedMember h clubId userId
                         (Settings.requireApproval (Club.settings club))]>
          (memberDocs d))
       (users d).


(* --------------------------------------------------------------------- *)
(** *** generateUniqueSlug *)

From stdpp Require pretty.

(** The slugs in use: the [slug] fields of the club documents. *)
Definition slugsOf (d : Db) : list string :=
  (λ kv, Club.slug kv.2) <$> map_to_list (clubs d).

(** [where('slug', '==', slug).limit(1).get()] and its [empty] flag. *)
Definition slugQueryEmpty (h : Host) (slug : string) : Fn.t bool :=
  (Fn.ask h (AskSlug slug) ;;;
   Fn.read (λ d, bool_decide (slug ∉ slugsOf d)))%club.

(** The [while (true)] loop, entered with the current [slug] and
    [counter], for at most [fuel] rounds; [None] when the rounds are used
    up before the loop returns. *)
Fixpoint slugLoop (fuel : nat) (h : Host) (baseSlug slug : string)
  (counter : nat) : Fn.t (option string) :=
  match fuel with
  | O => Fn.ret None
  | S fuel' =>
      (let* empty := slugQueryEmpty h slug in
       if (empty : bool) then Fn.ret (Some slug)
       else slugLoop fuel' h baseSlug
                     (baseSlug +:+ "-" +:+ pretty.pretty counter) (S counter))%club
  end.

(** The loop with one round more than there are club documents, which
    is as many as it can need (see [generateUniqueSlug_first_free]). *)
Definition generateUniqueSlug (h : Host) (baseSlug : string)
  : Fn.t (option string) :=
  λ w, slugLoop (S (length (slugsOf (dbOf w)))) h baseSlug baseSlug 1 w.

(** The slug the loop tries in its round [k], counting from 0. *)
Definition slugCandidate (baseSlug : string) (k : nat) : string :=
  match k with
  | O => baseSlug
  | S _ => baseSlug +:+ "-" +:+ pretty.pretty k
  end.

(* --------------------------------------------------------------------- *)
(** *** createClub *)

Module RawColors.
Record t := mk { primary : Raw; secondary : Raw; accent : Raw }.
End RawColors.

Module RawAddress.
Record t := mk { street : Raw; city : Raw; postalCode : Raw; country : Raw }.
End RawAddress.

Module RawContact.
Record t := mk { email : Raw; phone : Raw; website : Raw }.
End RawContact.

(** The payload of [createClub]; a nested field that is not an object is
    [None]. *)
Module RawClub.
Record t := mk {
  name : Raw;
  slug : Raw;
  description : Raw;
  colors : option RawColors.t;
  address : option RawAddress.t;
  contact : option RawContact.t
}.
End RawClub.

Module ClubInput.
Record t := mk {
  name : string;
  slug : string;
  description : option string;
  colors : Colors.t;
  address : Address.t;
  contact : Contact.t
}.
End ClubInput.

(** [z.string()] with further checks, and the same made [.optional()]. *)
Definition zString (ok : string → bool) (r : Raw) : option string :=
  match r with
  | Str s => if ok s then Some s else None
  | _ => None
  end.

Definition zOptional (ok : string → bool) (r : Raw) : option (option string) :=
  match r with
  | Absent => Some None
  | Str s => if ok s then Some (Some s) else None
  | NotStr => None
  end.

(** JavaScript's [length] of a string, which is what [.min] and [.max]
    compare: the number of its UTF-16 code units.  A string here is the
    sequence of the bytes of its UTF-8 encoding, in which a character
    below U+10000, one code unit, starts with a byte below 128 or from
    192 to 239, a character from U+10000 on, two code units, starts with
    a byte from 240 on, and the bytes from 128 to 191 continue a
    character. *)
Definition codeUnits (a : Ascii.ascii) : nat :=
  let n := Ascii.nat_of_ascii a in
  if (n <? 128)%nat then 1%nat
  else if (n <? 192)%nat then 0%nat
  else if (n <? 240)%nat then 1%nat
  else 2%nat.

Fixpoint jsLength (s : string) : nat :=
  match s with
  | EmptyString => 0%nat
  | String a s' => (codeUnits a + jsLength s')%nat
  end.

(** [.min(lo).max(hi)] *)
Definition lengthBetween (lo hi : nat) (s : string) : bool :=
  (lo <=? jsLength s)%nat && (jsLength s <=? hi)%nat.

(** One character of the class [a-z0-9-]. *)
Definition slugChar (a : Ascii.ascii) : bool :=
  let n := Ascii.nat_of_ascii a in
  ((97 <=? n)%nat && (n <=? 122)%nat)
  || ((48 <=? n)%nat && (n <=? 57)%nat)
  || (n =? 45)%nat.

Fixpoint allChars (p : Ascii.ascii → bool) (s : string) : bool :=
  match s with
  | EmptyString => true
  | String a s' => p a && allChars p s'
  end.

(** The pattern [/^[a-z0-9-]+$/]. *)
Definition slugPattern (s : string) : bool :=
  negb (String.eqb s "") && allChars slugChar s.

Definition anyString : string → bool := λ _, true.

Definition createClubSchema (h : Host) (d : option RawClub.t)
  : option ClubInput.t :=
  raw ← d;
  name ← zString (lengthBetween 2 100) (RawClub.name raw);
  slug ← zString (λ s, lengthBetween 3 50 s && slugPattern s) (RawClub.slug raw);
  description ← zOptional (lengthBetween 0 500) (RawClub.description raw);
  rawColors ← RawClub.colors raw;
  primary ← zString anyString (RawColors.primary rawColors);
  secondary ← zString anyString (RawColors.secondary rawColors);
  accent ← zOptional anyString (RawColors.accent rawColors);
  rawAddress ← RawClub.address raw;
  street ← zString anyString (RawAddress.street rawAddress);
  city ← zString anyString (RawAddress.city rawAddress);
  postalCode ← zString anyString (RawAddress.postalCode rawAddress);
  country ← zString anyString (RawAddress.country rawAddress);
  rawContact ← RawClub.contact raw;
  email ← zString (isEmail h) (RawContact.email rawContact);
  phone ← zOptional anyString (RawContact.phone rawContact);
  website ← zOptional (isUrl h) (RawContact.website rawContact);
  Some (ClubInput.mk name slug description
          (Colors.mk primary secondary accent)
          (Address.mk street city postalCode country)
          (Contact.mk email phone website)).

Record CreateResponse := mkCreateResponse {
  create_success : bool;
  create_clubId : string;
  create_slug : string
}.

(** [FieldValue.arrayUnion(x)]: [x] is added unless it is there already. *)
Definition arrayUnion (x : UserClub.t) (l : list UserClub.t) : list UserClub.t :=
  if bool_decide (x ∈ l) then l else l ++ [x].

Definition withClubMemberships (u : User.t) (l : list UserClub.t) (at_ : Z)
  : User.t :=
  {| User.email := User.email u;
     User.displayName := User.displayName u;
     User.photoURL := User.photoURL u;
     User.emailVerified := User.emailVerified u;
     User.clubMemberships := l;
     User.createdAt := User.createdAt u;
     User.updatedAt := at_;
     User.version := User.version u |}.

(** The club document [createClub] builds. *)
Definition newClub (h : Host) (data : ClubInput.t) (slug userId : string)
  : Club.t :=
  {| Club.name := ClubInput.name data;
     Club.slug := slug;
     Club.description := ClubInput.description data;
     Club.colors := ClubInput.colors data;
     Club.address := ClubInput.address data;
     Club.contact := ClubInput.contact data;
     Club.settings :=
       Settings.mk false false true [Feature.teams; Feature.matches];
     Club.subscription :=
       Subscription.mk Plan.free SubscriptionStatus.active
                       (dateNow h + 30 * 24 * 60 * 60 * 1000)
                       [Feature.teams; Feature.matches];
     Club.stats := ClubStats.mk 1 0 0 [];
     Club.createdBy := userId;
     Club.updatedBy := userId;
     Club.createdAt := newDate h;
     Club.updatedAt := newDate h;
     Club.version := 1 |}.

(** The creator's member document. *)
Definition founderDoc (h : Host) (clubId userId : string) : MemberDoc.t :=
  MemberDoc.mk
    (ClubMembership.mk clubId userId active (newDate h)
                       (Some userId) (Some (newDate h)))
    (newDate h) (newDate h) 1.

(** [batch.commit()] of the three writes: all are applied, or, when the
    store rejects the commit or the user document to update does not
    exist, none. *)
Definition commitCreateBatch (h : Host) (clubId : string) (club : Club.t)
  (userId : string) (member : MemberDoc.t) (entry : UserClub.t) : Fn.t unit :=
  (Fn.ask h CommitBatch ;;;
   λ w, match users (dbOf w) !! userId with
        | Some u =>
            Fn.write
              (λ d, mkDb (<[clubId := club]> (clubs d))
                         (<[(clubId, userId) := member]> (memberDocs d))
                         (<[userId := withClubMemberships u
                                        (arrayUnion entry (User.clubMemberships u))
                                        (newDate h)]> (users d))) w
        | None => (inl RaisedOther, w)
        end)%club.

Definition createClub (h : Host) (request : Call RawClub.t)
  : Fn.t CreateResponse :=
  Fn.tryCatch
    (let* auth := authContext request in
     let* data := parse (createClubSchema h) (payload request) in
     let* found := generateUniqueSlug h (ClubInput.slug data) in
     match found with
     | None => Fn.throw RaisedOther
     | Some slug =>
         let clubId := autoId h in
         let now := newDate h in
         let clubData := newClub h data slug (ctx_uid auth) in
         let membershipData := founderDoc h clubId (ctx_uid auth) in
         if negb (hasFieldValue h) then Fn.throw RaisedOther
         else
           commitCreateBatch h clubId clubData (ctx_uid auth) membershipData
                             (UserClub.mk clubId Role.admin now) ;;;
           Fn.ret {| create_success := true;
                     create_clubId := clubId;
                     create_slug := slug |}
     end)%club
    (λ error,
       match error with
       | RaisedZod =>
           Fn.throw (RaisedHttps
                       (mkHttpsError invalid_argument "Validation failed"))
       | _ =>
           Fn.throw (RaisedHttps (mkHttpsError internal "Failed to create club"))
       end).

Module CreateSample.
Definition payload (name slug : string) : RawClub.t :=
  RawClub.mk (Str name) (Str slug) Absent
             (Some (RawColors.mk (Str "green") (Str "white") Absent))
             (Some (RawAddress.mk (Str "Park 3") (Str "Rome") (Str "00100")
                                  (Str "IT")))
             (Some (RawContact.mk (Str "club@example.org") Absent Absent)).

Definition create (who : option AuthData) (name slug : string)
  : Call RawClub.t :=
  mkCall who (Some (payload name slug)).
End CreateSample.

(** The store after [createClub] has committed its batch for the user
    [userId], whose document was [u]. *)
Definition createdDb (h : Host) (d : Db) (data : ClubInput.t)
  (slug userId : string) (u : User.t) : Db :=
  mkDb (<[autoId h := newClub h data slug userId]> (clubs d))
       (<[(autoId h, userId) := founderDoc h (autoId h) userId]> (memberDocs d))
       (<[userId := withClubMemberships u
                      (arrayUnion (UserClub.mk (autoId h) Role.admin (newDate h))
                                  (User.clubMemberships u))
                      (newDate h)]> (users d)).

(* --------------------------------------------------------------------- *)
(** *** Firestore triggers *)

(** [onTeamCreated]: [team] is the created document, [None] when the
    event carries no data.  Everything thrown is logged and dropped. *)
Definition onTeamCreated (h : Host) (team : option Team.t) : Fn.t unit :=
  Fn.tryCatch
    (match team with
     | None => Fn.ret tt
     | Some team =>
         incrementClubStat h (Team.clubId team) bumpTeams (newDate h)
     end)
    (λ _, Fn.ret tt).

(** What [onMatchCompleted] reads of a match snapshot: the document, and
    the [homeTeam] and [awayTeam] objects it looks a [clubId] up in,
    which the match interface does not declare. *)
Record TeamRef := mkTeamRef {
  ref_clubId : option string
}.

Module MatchData.
Record t := mk {
  doc : Match.t;
  homeTeam : option TeamRef;
  awayTeam : option TeamRef
}.
End MatchData.

(** [x?.clubId] kept by [filter(Boolean)]: present and not empty. *)
Definition keptClubId (team : option TeamRef) : option string :=
  match team with
  | Some {| ref_clubId := Some c |} => if bool_decide (c = "") then None else Some c
  | _ => None
  end.

Definition clubIdsOf (after : MatchData.t) : list string :=
  omap keptClubId [MatchData.homeTeam after; MatchData.awayTeam after].

(** The [for ... of] loop with its awaited update. *)
Fixpoint countMatchFor (h : Host) (clubIds : list string) : Fn.t unit :=
  match clubIds with
  | [] => Fn.ret tt
  | clubId :: rest =>
      (incrementClubStat h clubId bumpMatches (newDate h) ;;;
       countMatchFor h rest)%club
  end.

Definition onMatchCompleted (h : Host) (before after : option MatchData.t)
  : Fn.t unit :=
  Fn.tryCatch
    (match before, after with
     | Some before, Some after =>
         if bool_decide (Match.status (MatchData.doc before) ≠ finished)
            && bool_decide (Match.status (MatchData.doc after) = finished)
         then countMatchFor h (clubIdsOf after)
         else Fn.ret tt
     | _, _ => Fn.ret tt
     end)
    (λ _, Fn.ret tt).

(** The club with one more in a counter, as the triggers leave it. *)
Definition bumped (bump : ClubStats.t → ClubStats.t) (h : Host) (c : Club.t)
  : Club.t :=
  withClubStats c (bump (Club.stats c)) (newDate h).

Module TriggerSample.
Definition wasLive : MatchData.t :=
  MatchData.mk (Match.mk "m1" "club1" "A" "B" 100 live None 100 100 1)
               (Some (mkTeamRef (Some "club1")))
               (Some (mkTeamRef (Some "club2"))).

Definition nowFinished : MatchData.t :=
  MatchData.mk Sample.homeWin
               (Some (mkTeamRef (Some "club1")))
               (Some (mkTeamRef (Some "club2"))).

(** The same finished match as a document that has the fields of the
    match interface and no others. *)
Definition asDeclared : MatchData.t := MatchData.mk Sample.homeWin None None.
End TriggerSample.

(* ===================================================================== *)
(** ** Running the function: the answers and the store afterwards *)
(* ===================================================================== *)

#[global] Arguments aggregate : simpl never.
#[global] Arguments finishedFor : simpl never.

Ltac unfold_fn :=
  unfold invoke, calculateTeamStats, hasClubPermission, getAuthContext,
    getTeamDoc, getMembershipDoc, queryMatches, updateTeamDoc, request_store,
    tryCatch, bind, ret, throw in *.

(** Case analysis on the next decision of a run recorded in [H]: the
    innermost scrutinee is split and impossible branches are closed. *)
Ltac run_step H :=
  match type of H with
  | context [match ?x with _ => _ end] =>
      lazymatch x with
      | context [match _ with _ => _ end] => fail
      | _ => destruct x eqn:?; cbn in H; try discriminate H
      end
  end.

(** A response is returned only along the one path that passes every
    check and every store request. *)
Lemma invoke_ok_inv env req s resp w' :
  invoke env req s = (inr resp, w') →
  ∃ a tid team,
    auth req = Some a ∧ data req = Some (mkRequestData (Some tid)) ∧ tid ≠ ""
    ∧ teams s !! tid = Some team
    ∧ isActiveMember s (Team.clubId team) (uid a)
    ∧ (∀ op, unavailable env op = false)
    ∧ resp = mkResponse true (statsFor tid (matches s))
    ∧ w' = mkWorld (storeAfter env s tid team (statsFor tid (matches s))) allCalls.
Proof.
  unfold_fn.
  destruct (auth req) as [a|] eqn:Ha; simpl; [|done].
  destruct (data req) as [[[tid|]]|] eqn:Hd; simpl; [|done|done].
  destruct (bool_decide (tid = "")) eqn:Hne; simpl; [done|].
  apply bool_decide_eq_false in Hne.
  destruct (unavailable env TeamGet) eqn:U1; simpl; [done|].
  destruct (teams s !! tid) as [team|] eqn:Ht; simpl; [|done].
  destruct (unavailable env MemberGet) eqn:U2; simpl; [done|].
  destruct (members s !! (Team.clubId team, uid a)) as [mb|] eqn:Hmb;
    simpl; [|done].
  destruct (bool_decide (ClubMembership.status mb = active)) eqn:Hact;
    simpl; [|done].
  apply bool_decide_eq_true in Hact.
  destruct (unavailable env HomeQuery) eqn:U3; simpl; [done|].
  destruct (unavailable env AwayQuery) eqn:U4; simpl; [done|].
  destruct (unavailable env TeamUpdate) eqn:U5; simpl; [done|].
  rewrite Ht. intros [= <- <-].
  exists a, tid, team. repeat split; try done.
  - by exists mb.
  - by intros [].
Qed.

(** Conversely, that path is taken whenever its conditions hold. *)
Lemma invoke_ok_intro env req s a tid team :
  auth req = Some a → data req = Some (mkRequestData (Some tid)) → tid ≠ "" →
  teams s !! tid = Some team →
  isActiveMember s (Team.clubId team) (uid a) →
  (∀ op, unavailable env op = false) →
  invoke env req s =
    (inr (mkResponse true (statsFor tid (matches s))),
     mkWorld (storeAfter env s tid team (statsFor tid (matches s))) allCalls).
Proof.
  intros Ha Hd Hne Ht (mb & Hmb & Hact) Hup.
  unfold_fn. rewrite Ha, Hd. simpl.
  rewrite bool_decide_eq_false_2 by done.
  rewrite !Hup. simpl. rewrite Ht. simpl. rewrite Hmb. simpl.
  rewrite bool_decide_eq_true_2 by done. simpl. rewrite Ht. done.
Qed.

(** Every failure reaches the caller as an [HttpsError] and leaves the
    store as it was. *)
Lemma invoke_err_inv env req s e w' :
  invoke env req s = (inl e, w') →
  db w' = s ∧ ∃ h, e = ThrowHttps h.
Proof.
  unfold_fn. intros Hrun. destruct s as [T Mb ms]. cbn in Hrun.
  repeat run_step Hrun.
  all: injection Hrun as <- <-; eauto.
Qed.

(** The store requests are issued in program order, each at most once. *)
Lemma invoke_calls_prefix env req s :
  calls (invoke env req s).2 `prefix_of` allCalls.
Proof.
  destruct (invoke env req s) as [r w'] eqn:Hrun.
  unfold_fn. unfold allCalls. cbn in *.
  repeat run_step Hrun.
  all: injection Hrun as <- <-; cbn;
    solve [ by apply prefix_nil
          | by eexists
          | by (eexists [_])
          | by (eexists [_; _])
          | by (eexists [_; _; _])
          | by (eexists [_; _; _; _]) ].
Qed.

Lemma allCalls_NoDup : NoDup allCalls.
Proof. unfold allCalls. compute_done. Qed.

Lemma invoke_calls_NoDup env req s : NoDup (calls (invoke env req s).2).
Proof.
  destruct (invoke_calls_prefix env req s) as [k Hk].
  pose proof allCalls_NoDup as Hnd. rewrite Hk in Hnd.
  by apply NoDup_app in Hnd as (? & _ & _).
Qed.

(** A rejected store request ends the run: it is the last request issued,
    and the answer is [permission-denied] when the membership read was
    the one rejected (the permission helper swallows it) and [internal]
    otherwise. *)
Lemma invoke_rejected env req s op :
  op ∈ calls (invoke env req s).2 →
  unavailable env op = true →
  last (calls (invoke env req s).2) = Some op
  ∧ ∃ h, (invoke env req s).1 = inl (ThrowHttps h)
         ∧ code h = (if bool_decide (op = MemberGet)
                     then permission_denied else internal).
Proof.
  destruct (invoke env req s) as [r w'] eqn:Hrun.
  unfold_fn. destruct s as [T Mb ms]. cbn in *.
  intros Hin Hop.
  repeat run_step Hrun.
  all: injection Hrun as <- <-; cbn in *.
  all: repeat (apply elem_of_cons in Hin as [->|Hin]);
    try by apply elem_of_nil in Hin.
  all: try congruence.
  all: split; [done|]; eexists; split; done.
Qed.

(* ===================================================================== *)
(** ** The reducer *)
(* ===================================================================== *)

Lemma tally_eq (a b : Tally) :
  t_wins a = t_wins b → t_draws a = t_draws b → t_losses a = t_losses b →
  t_goalsFor a = t_goalsFor b → t_goalsAgainst a = t_goalsAgainst b → a = b.
Proof. destruct a, b; simpl; congruence. Qed.

Ltac tally := apply tally_eq; simpl; lia.

Lemma addTally_comm a b : addTally a b = addTally b a.
Proof. tally. Qed.

Lemma addTally_assoc a b c : addTally a (addTally b c) = addTally (addTally a b) c.
Proof. tally. Qed.

Lemma addTally_0_l a : addTally tally0 a = a.
Proof. tally. Qed.

Lemma addTally_0_r a : addTally a tally0 = a.
Proof. tally. Qed.

Lemma processHome_add acc m :
  processHome acc m = addTally acc (processHome tally0 m).
Proof.
  unfold processHome. destruct (Match.result m) as [r|]; [|by rewrite addTally_0_r].
  destruct (homeGoals r >? awayGoals r); [tally|].
  destruct (homeGoals r =? awayGoals r); tally.
Qed.

Lemma processAway_add acc m :
  processAway acc m = addTally acc (processAway tally0 m).
Proof.
  unfold processAway. destruct (Match.result m) as [r|]; [|by rewrite addTally_0_r].
  destruct (awayGoals r >? homeGoals r); [tally|].
  destruct (awayGoals r =? homeGoals r); tally.
Qed.

Lemma processEntry_add acc e :
  processEntry acc e = addTally acc (processEntry tally0 e).
Proof.
  destruct e as [[] m]; unfold processEntry; simpl;
    [apply processHome_add | apply processAway_add].
Qed.

(** A loop started from any counters adds what it would add to zero. *)
Lemma fold_add {A} (f : Tally → A → Tally) :
  (∀ acc x, f acc x = addTally acc (f tally0 x)) →
  ∀ l acc, fold_left f l acc = addTally acc (fold_left f l tally0).
Proof.
  intros Hf l. induction l as [|x l IH]; intros acc; simpl.
  - by rewrite addTally_0_r.
  - rewrite (IH (f acc x)), (IH (f tally0 x)), (Hf acc x).
    by rewrite addTally_assoc.
Qed.

(** Visiting the same documents in another order leaves the counters the
    same. *)
Lemma fold_perm {A} (f : Tally → A → Tally) :
  (∀ acc x, f acc x = addTally acc (f tally0 x)) →
  ∀ l l', l ≡ₚ l' → ∀ acc, fold_left f l acc = fold_left f l' acc.
Proof.
  intros Hf l l' Hp.
  induction Hp as [|x l l' _ IH|x y l|l l' l'' _ IH1 _ IH2]; intros acc; simpl.
  - done.
  - apply IH.
  - f_equal. rewrite (Hf (f acc y) x), (Hf (f acc x) y), (Hf acc x), (Hf acc y).
    rewrite <- !addTally_assoc. f_equal. apply addTally_comm.
  - by rewrite IH1.
Qed.

Lemma runLoops_entries h a :
  runLoops h a = fold_left processEntry (processingOrder h a) tally0.
Proof.
  unfold runLoops, processingOrder. rewrite fold_left_app.
  assert (Hmap : ∀ (side : Side) g l acc,
            (∀ acc m, processEntry acc (side, m) = g acc m) →
            fold_left processEntry ((λ m, (side, m)) <$> l) acc
            = fold_left g l acc).
  { intros side g l. induction l as [|m l IH]; intros acc Hg; simpl; [done|].
    rewrite Hg. by apply IH. }
  rewrite (Hmap Home processHome), (Hmap Away processAway); done.
Qed.

Lemma finishedFor_cons field tid m ms :
  finishedFor field tid (m :: ms) =
    if bool_decide (field m = tid ∧ Match.status m = finished)
    then m :: finishedFor field tid ms else finishedFor field tid ms.
Proof.
  unfold finishedFor. rewrite filter_cons.
  case_decide; [by rewrite bool_decide_eq_true_2|by rewrite bool_decide_eq_false_2].
Qed.

Lemma finishedFor_perm field tid ms ms' :
  ms ≡ₚ ms' → finishedFor field tid ms ≡ₚ finishedFor field tid ms'.
Proof. intros Hp. unfold finishedFor. by rewrite Hp. Qed.

Lemma tallyFor_nil tid : tallyFor tid [] = tally0.
Proof. done. Qed.

Lemma tallyFor_cons tid m ms :
  tallyFor tid (m :: ms) = addTally (contribution tid m) (tallyFor tid ms).
Proof.
  unfold tallyFor, runLoops, contribution.
  rewrite !finishedFor_cons.
  rewrite (fold_add processAway processAway_add _ (fold_left processHome _ _)).
  rewrite (fold_add processAway processAway_add _
             (fold_left processHome (finishedFor _ _ ms) _)).
  destruct (bool_decide (Match.homeTeamId m = tid ∧ _));
    destruct (bool_decide (Match.awayTeamId m = tid ∧ _)); simpl.
  - rewrite (fold_add processHome processHome_add _ (processHome _ _)).
    rewrite (fold_add processAway processAway_add _ (processAway _ _)).
    set (H := fold_left processHome _ tally0).
    set (A := fold_left processAway _ tally0).
    set (h := processHome tally0 m). set (a := processAway tally0 m). tally.
  - rewrite (fold_add processHome processHome_add _ (processHome _ _)).
    set (H := fold_left processHome _ tally0).
    set (A := fold_left processAway _ tally0).
    set (h := processHome tally0 m). tally.
  - rewrite (fold_add processAway processAway_add _ (processAway _ _)).
    set (H := fold_left processHome _ tally0).
    set (A := fold_left processAway _ tally0).
    set (a := processAway tally0 m). tally.
  - set (H := fold_left processHome _ tally0).
    set (A := fold_left processAway _ tally0). tally.
Qed.

Lemma tallyFor_app tid ms1 ms2 :
  tallyFor tid (ms1 ++ ms2) = addTally (tallyFor tid ms1) (tallyFor tid ms2).
Proof.
  induction ms1 as [|m ms1 IH]; simpl.
  - by rewrite tallyFor_nil, addTally_0_l.
  - by rewrite !tallyFor_cons, IH, addTally_assoc.
Qed.

(** A document anywhere in the collection adds exactly its contribution. *)
Lemma tallyFor_insert tid ms1 m ms2 :
  tallyFor tid (ms1 ++ m :: ms2) =
    addTally (contribution tid m) (tallyFor tid (ms1 ++ ms2)).
Proof.
  rewrite !tallyFor_app, tallyFor_cons.
  rewrite !addTally_assoc. f_equal. apply addTally_comm.
Qed.

Lemma statsFor_tally tid ms : statsFor tid ms = buildStats (tallyFor tid ms).
Proof. done. Qed.

(** What one match adds when it is visited by either loop. *)
Lemma processHome_delta m :
  let d := processHome tally0 m in
  match Match.result m with
  | Some r =>
      t_goalsFor d = homeGoals r ∧ t_goalsAgainst d = awayGoals r
      ∧ t_wins d + t_draws d + t_losses d = 1
  | None => d = tally0
  end.
Proof.
  unfold processHome. destruct (Match.result m) as [r|]; [|done].
  destruct (homeGoals r >? awayGoals r); [done|].
  by destruct (homeGoals r =? awayGoals r).
Qed.

Lemma processAway_delta m :
  let d := processAway tally0 m in
  match Match.result m with
  | Some r =>
      t_goalsFor d = awayGoals r ∧ t_goalsAgainst d = homeGoals r
      ∧ t_wins d + t_draws d + t_losses d = 1
  | None => d = tally0
  end.
Proof.
  unfold processAway. destruct (Match.result m) as [r|]; [|done].
  destruct (awayGoals r >? homeGoals r); [done|].
  by destruct (awayGoals r =? homeGoals r).
Qed.

(** What a loop over one snapshot leaves in the counters. *)
Lemma homeLoop_sums docs :
  let t := fold_left processHome docs tally0 in
  t_goalsFor t = sumZ homeGoals (counted docs)
  ∧ t_goalsAgainst t = sumZ awayGoals (counted docs)
  ∧ t_wins t + t_draws t + t_losses t = Z.of_nat (length (counted docs)).
Proof.
  induction docs as [|m docs IH]; [done|].
  simpl. rewrite (fold_add processHome processHome_add).
  destruct IH as (IH1 & IH2 & IH3). unfold counted in *.
  pose proof (processHome_delta m) as Hd. simpl in Hd.
  destruct (Match.result m) as [r|]; simpl.
  - destruct Hd as (Hd1 & Hd2 & Hd3). lia.
  - rewrite Hd. simpl. lia.
Qed.

Lemma awayLoop_sums docs :
  let t := fold_left processAway docs tally0 in
  t_goalsFor t = sumZ awayGoals (counted docs)
  ∧ t_goalsAgainst t = sumZ homeGoals (counted docs)
  ∧ t_wins t + t_draws t + t_losses t = Z.of_nat (length (counted docs)).
Proof.
  induction docs as [|m docs IH]; [done|].
  simpl. rewrite (fold_add processAway processAway_add).
  destruct IH as (IH1 & IH2 & IH3). unfold counted in *.
  pose proof (processAway_delta m) as Hd. simpl in Hd.
  destruct (Match.result m) as [r|]; simpl.
  - destruct Hd as (Hd1 & Hd2 & Hd3). lia.
  - rewrite Hd. simpl. lia.
Qed.

Lemma runLoops_add h a :
  runLoops h a =
    addTally (fold_left processHome h tally0) (fold_left processAway a tally0).
Proof. unfold runLoops. apply (fold_add processAway processAway_add). Qed.

(** The answer and the teams written depend on the matches collection
    only through the statistics of the requested team. *)
Lemma invoke_matches_only_through_stats env req T Mb ms ms' :
  (∀ tid, statsFor tid ms = statsFor tid ms') →
  (invoke env req (mkStore T Mb ms)).1 = (invoke env req (mkStore T Mb ms')).1
  ∧ teams (db (invoke env req (mkStore T Mb ms)).2)
    = teams (db (invoke env req (mkStore T Mb ms')).2)
  ∧ calls (invoke env req (mkStore T Mb ms)).2
    = calls (invoke env req (mkStore T Mb ms')).2.
Proof.
  intros Hst. unfold statsFor in Hst. unfold_fn. cbn.
  repeat match goal with
  | |- context [match ?x with _ => _ end] =>
      lazymatch x with
      | context [match _ with _ => _ end] => fail
      | _ => destruct x eqn:?; cbn
      end
  end; try done.
  by rewrite Hst.
Qed.

(** A document id is not the empty string. *)
Lemma isDocId_nonempty id : isDocId id = true → id ≠ "".
Proof. intros H ->. discriminate H. Qed.

(** What [safeGoals] says, as propositions. *)
Lemma safeGoals_spec ms :
  safeGoals ms = true ↔
  (∀ m r, m ∈ ms → Match.result m = Some r → 0 ≤ homeGoals r ∧ 0 ≤ awayGoals r)
  ∧ sumZ goalsOf (counted ms) ≤ MAX_SAFE_INTEGER
  ∧ 6 * Z.of_nat (length ms) ≤ MAX_SAFE_INTEGER.
Proof.
  unfold safeGoals. rewrite !andb_true_iff, !Z.leb_le.
  rewrite forallb_forall.
  assert (Hnn : (∀ r, In r (counted ms) → safeResult r = true) ↔
                (∀ m r, m ∈ ms → Match.result m = Some r →
                        0 ≤ homeGoals r ∧ 0 ≤ awayGoals r)).
  { unfold safeResult, counted. split.
    - intros H m r Hin Hres.
      specialize (H r). rewrite andb_true_iff, !Z.leb_le in H. apply H.
      apply list_elem_of_In, list_elem_of_omap. by exists m.
    - intros H r Hin. rewrite andb_true_iff, !Z.leb_le.
      apply list_elem_of_In, list_elem_of_omap in Hin as (m & Hin & Hres).
      by apply (H m). }
  rewrite Hnn. tauto.
Qed.

(* ===================================================================== *)
(** ** Doubles within the safe range *)
(* ===================================================================== *)

(** On the integers from 0 to [MAX_SAFE_INTEGER] the arithmetic of
    doubles is the arithmetic of integers.  This is shown from the
    specification of the primitive operations ([SpecFloat]): such an
    integer is a double whose mantissa is the integer shifted to 53 bits
    ([canonSF]), and adding, multiplying and comparing two of them
    rounds nothing away as long as the result is in the range too. *)

Lemma digits2_size p : SpecFloat.digits2_pos p = Pos.size p.
Proof. induction p as [p IH|p IH|]; simpl; by rewrite ?IH. Qed.

Lemma iter_pos_nat {A} (f : A → A) p x :
  SpecFloat.iter_pos f p x = Nat.iter (Pos.to_nat p) f x.
Proof.
  revert x. induction p as [p IH|p IH|]; intros x.
  - rewrite Pos2Nat.inj_xI. cbn [SpecFloat.iter_pos]. rewrite !IH.
    replace (S (2 * Pos.to_nat p)) with (Pos.to_nat p + S (Pos.to_nat p))%nat by lia.
    rewrite Nat.iter_add, Nat.iter_succ_r. done.
  - rewrite Pos2Nat.inj_xO. cbn [SpecFloat.iter_pos]. rewrite !IH.
    replace (2 * Pos.to_nat p)%nat with (Pos.to_nat p + Pos.to_nat p)%nat by lia.
    by rewrite Nat.iter_add.
  - done.
Qed.

Lemma shl_S n k : shl n (S k) = xO (shl n k).
Proof. done. Qed.

Lemma shl_Z n k : Zpos (shl n k) = Zpos n * 2 ^ Z.of_nat k.
Proof.
  induction k as [|k IH]; [simpl; lia|].
  rewrite shl_S, Pos2Z.inj_xO, IH, Nat2Z.inj_succ, Z.pow_succ_r by lia. lia.
Qed.

Lemma size_shl n k : size (shl n k) = size n + Z.of_nat k.
Proof.
  unfold size. induction k as [|k IH]; [simpl; lia|].
  rewrite shl_S. simpl Pos.size. rewrite Pos2Z.inj_succ, IH. lia.
Qed.

Lemma pos_iter_shl m d : Pos.iter xO m d = shl m (Pos.to_nat d).
Proof. rewrite Pos2Nat.inj_iter. reflexivity. Qed.

Lemma shl_add n a b : shl (shl n a) b = shl n (a + b).
Proof. unfold shl. by rewrite Nat.add_comm, Nat.iter_add. Qed.

Lemma shl_sum a b j : (shl a j + shl b j)%positive = shl (a + b) j.
Proof.
  apply Pos2Z.inj. rewrite Pos2Z.inj_add, !shl_Z, Pos2Z.inj_add. lia.
Qed.

Lemma shl_mul a b j k : (shl a j * shl b k)%positive = shl (a * b) (j + k).
Proof.
  apply Pos2Z.inj. rewrite Pos2Z.inj_mul, !shl_Z, Pos2Z.inj_mul.
  rewrite Nat2Z.inj_add, Z.pow_add_r by lia. lia.
Qed.

(** Shifting right what was shifted left loses no bit. *)
Lemma shr_shl m k :
  Nat.iter k SpecFloat.shr_1
    (SpecFloat.Build_shr_record (Zpos (shl m k)) false false)
  = SpecFloat.Build_shr_record (Zpos m) false false.
Proof.
  induction k as [|k IH]; [done|].
  rewrite Nat.iter_succ_r, shl_S. simpl. exact IH.
Qed.

Lemma size_pos n : 1 ≤ size n.
Proof. unfold size. lia. Qed.

Lemma size_bounds n : 2 ^ (size n - 1) ≤ Zpos n < 2 ^ size n.
Proof.
  unfold size. split.
  - pose proof (Pos.size_le n) as H.
    assert (H' : 2 ^ Zpos (Pos.size n) ≤ 2 * Zpos n).
    { rewrite <- Pos2Z.inj_pow. change (2 * Zpos n) with (Zpos n~0). lia. }
    replace (Zpos (Pos.size n)) with (Z.succ (Zpos (Pos.size n) - 1)) in H' by lia.
    rewrite Z.pow_succ_r in H' by lia. lia.
  - pose proof (Pos.size_gt n) as H.
    rewrite <- Pos2Z.inj_pow. lia.
Qed.

Lemma size_mul a b : size a + size b - 1 ≤ size (a * b).
Proof.
  destruct (size_bounds a) as [Ha _]. destruct (size_bounds b) as [Hb _].
  destruct (size_bounds (a * b)) as [_ Hab].
  pose proof (size_pos a). pose proof (size_pos b). pose proof (size_pos (a * b)).
  assert (H2 : 2 ^ (size a - 1 + (size b - 1)) < 2 ^ size (a * b)).
  { rewrite Z.pow_add_r by lia. rewrite Pos2Z.inj_mul in Hab. nia. }
  apply Z.pow_lt_mono_r_iff in H2; lia.
Qed.

Lemma safe_size n : Zpos n ≤ MAX_SAFE_INTEGER → size n ≤ 53.
Proof.
  unfold MAX_SAFE_INTEGER. intros Hn. destruct (size_bounds n) as [Hlo _].
  destruct (Z_le_gt_dec (size n) 53) as [|Hgt]; [done|].
  assert (2 ^ 53 ≤ 2 ^ (size n - 1)) by (apply Z.pow_le_mono_r; lia). lia.
Qed.

Lemma fexp_eq e :
  SpecFloat.fexp FloatOps.prec FloatOps.emax e = Z.max (e - 53) (-1074).
Proof. reflexivity. Qed.

(** Rounding a 53-bit mantissa that was scaled by [2^j], at an exponent
    that is [j] too low, shifts it back and rounds nothing away. *)
Lemma shr_fexp_shl m0 j e :
  size m0 = 53 → -1074 ≤ e + Z.of_nat j →
  SpecFloat.shr_fexp FloatOps.prec FloatOps.emax (Zpos (shl m0 j)) e
    SpecFloat.loc_Exact
  = (SpecFloat.Build_shr_record (Zpos m0) false false, e + Z.of_nat j).
Proof.
  intros Hsz He. unfold SpecFloat.shr_fexp, SpecFloat.shr, SpecFloat.Zdigits2.
  rewrite digits2_size. change (Zpos (Pos.size (shl m0 j))) with (size (shl m0 j)).
  rewrite size_shl, Hsz, fexp_eq.
  replace (Z.max (53 + Z.of_nat j + e - 53) (-1074) - e) with (Z.of_nat j) by lia.
  destruct j as [|j].
  - simpl. f_equal. lia.
  - change (Z.of_nat (S j)) with (Zpos (Pos.of_succ_nat j)). cbv iota.
    rewrite iter_pos_nat, SuccNat2Pos.id_succ. unfold SpecFloat.shr_record_of_loc.
    rewrite shr_shl. reflexivity.
Qed.

Lemma round_aux_exact n k :
  size n ≤ 53 → 53 ≤ size n + Z.of_nat k →
  SpecFloat.binary_round_aux FloatOps.prec FloatOps.emax false
    (Zpos (shl n k)) (- Z.of_nat k) SpecFloat.loc_Exact
  = canonSF n.
Proof.
  intros Hn Hk. unfold SpecFloat.binary_round_aux, canonSF.
  set (a := Z.to_nat (53 - size n)).
  assert (Hm0 : size (shl n a) = 53).
  { rewrite size_shl. unfold a. rewrite Z2Nat.id by lia. lia. }
  assert (Hsplit : shl n k = shl (shl n a) (k - a)).
  { rewrite shl_add. f_equal. unfold a. lia. }
  rewrite Hsplit.
  rewrite (shr_fexp_shl (shl n a) (k - a) (- Z.of_nat k) Hm0)
    by (pose proof (size_pos n); unfold a; lia).
  simpl SpecFloat.shr_m. simpl SpecFloat.loc_of_shr_record.
  simpl SpecFloat.round_nearest_even.
  replace (- Z.of_nat k + Z.of_nat (k - a)) with (size n - 53)
    by (unfold a; lia).
  change (Zpos (shl n a)) with (Zpos (shl (shl n a) 0)).
  rewrite (shr_fexp_shl (shl n a) 0 (size n - 53) Hm0)
    by (pose proof (size_pos n); simpl; lia).
  simpl SpecFloat.shr_m. simpl Z.of_nat. rewrite Z.add_0_r.
  replace (size n - 53 <=? FloatOps.emax - FloatOps.prec) with true; [done|].
  symmetry. apply Z.leb_le. change (FloatOps.emax - FloatOps.prec) with 971. lia.
Qed.

Lemma round_exact n k :
  size n ≤ 53 →
  SpecFloat.binary_round FloatOps.prec FloatOps.emax false (shl n k)
    (- Z.of_nat k)
  = canonSF n.
Proof.
  intros Hn. unfold SpecFloat.binary_round, SpecFloat.shl_align.
  rewrite digits2_size. change (Zpos (Pos.size (shl n k))) with (size (shl n k)).
  rewrite size_shl, fexp_eq.
  replace (Z.max (size n + Z.of_nat k + - Z.of_nat k - 53) (-1074))
    with (size n - 53) by (pose proof (size_pos n); lia).
  destruct (size n - 53 - - Z.of_nat k) as [|d|d] eqn:Hd.
  - apply round_aux_exact; lia.
  - apply round_aux_exact; lia.
  - rewrite pos_iter_shl, shl_add.
    replace (size n - 53) with (- Z.of_nat (k + Pos.to_nat d)) by lia.
    apply round_aux_exact; lia.
Qed.

Lemma sfOf_pos n : Zpos n ≤ MAX_SAFE_INTEGER → sfOf (Zpos n) = canonSF n.
Proof. intros Hn. apply (round_exact n 0). by apply safe_size. Qed.

Lemma canonSF_valid n :
  size n ≤ 53 →
  SpecFloat.valid_binary FloatOps.prec FloatOps.emax (canonSF n) = true.
Proof.
  intros Hn.
  unfold canonSF, SpecFloat.valid_binary, SpecFloat.bounded,
    SpecFloat.canonical_mantissa.
  rewrite digits2_size.
  change (Zpos (Pos.size (shl n (Z.to_nat (53 - size n)))))
    with (size (shl n (Z.to_nat (53 - size n)))).
  rewrite size_shl, Z2Nat.id, fexp_eq by lia.
  pose proof (size_pos n).
  apply andb_true_intro. split; [apply Z.eqb_eq; lia|].
  apply Z.leb_le. change (FloatOps.emax - FloatOps.prec) with 971. lia.
Qed.

Lemma sfOf_valid z :
  safeNat z →
  SpecFloat.valid_binary FloatOps.prec FloatOps.emax (sfOf z) = true.
Proof.
  intros [H0 Hz]. destruct z as [|n|n]; [done| |lia].
  rewrite sfOf_pos by done. apply canonSF_valid. by apply safe_size.
Qed.

Lemma shl_align_fst mx ex ez :
  ez ≤ ex →
  fst (SpecFloat.shl_align mx ex ez) = shl mx (Z.to_nat (ex - ez)).
Proof.
  intros He. unfold SpecFloat.shl_align.
  destruct (ez - ex) as [|d|d] eqn:Hd; [|lia|].
  - replace (ex - ez) with 0 by lia. done.
  - simpl. rewrite pos_iter_shl. f_equal. lia.
Qed.

Lemma SFadd_exact a b :
  safeNat a → safeNat b → safeNat (a + b) →
  SpecFloat.SFadd FloatOps.prec FloatOps.emax (sfOf a) (sfOf b) = sfOf (a + b).
Proof.
  intros [Ha0 Ha] [Hb0 Hb] [_ Hab].
  destruct a as [|a|a]; [|destruct b as [|b|b]|]; try lia.
  - destruct b as [|b|b]; [done| |lia]. rewrite Z.add_0_l.
    by rewrite sfOf_pos by done.
  - rewrite Z.add_0_r. by rewrite sfOf_pos by done.
  - rewrite !sfOf_pos by done. change (Zpos a + Zpos b) with (Zpos (a + b)).
    rewrite sfOf_pos by done.
    pose proof (safe_size a Ha) as Hsa. pose proof (safe_size b Hb) as Hsb.
    pose proof (size_pos a). pose proof (size_pos b).
    unfold canonSF at 1 2. unfold SpecFloat.SFadd, SpecFloat.cond_Zopp.
    set (ez := Z.min (size a - 53) (size b - 53)).
    rewrite !shl_align_fst by (unfold ez; lia).
    rewrite !shl_add.
    replace (Z.to_nat (53 - size a) + Z.to_nat (size a - 53 - ez))%nat
      with (Z.to_nat (- ez)) by (unfold ez; lia).
    replace (Z.to_nat (53 - size b) + Z.to_nat (size b - 53 - ez))%nat
      with (Z.to_nat (- ez)) by (unfold ez; lia).
    change (Zpos (shl a (Z.to_nat (- ez))) + Zpos (shl b (Z.to_nat (- ez))))
      with (Zpos (shl a (Z.to_nat (- ez)) + shl b (Z.to_nat (- ez)))).
    rewrite shl_sum. unfold SpecFloat.binary_normalize.
    replace ez with (- Z.of_nat (Z.to_nat (- ez))) at 2 by (unfold ez; lia).
    apply round_exact. apply safe_size. lia.
Qed.

Lemma SFmul_exact a b :
  safeNat a → safeNat b → safeNat (a * b) →
  SpecFloat.SFmul FloatOps.prec FloatOps.emax (sfOf a) (sfOf b) = sfOf (a * b).
Proof.
  intros [Ha0 Ha] [Hb0 Hb] [_ Hab].
  destruct a as [|a|a]; [|destruct b as [|b|b]|]; try lia.
  - destruct b as [|b|b]; [done| |lia].
    by rewrite sfOf_pos by done.
  - rewrite Z.mul_0_r. by rewrite sfOf_pos by done.
  - rewrite !sfOf_pos by done. change (Zpos a * Zpos b) with (Zpos (a * b)).
    rewrite sfOf_pos by done.
    pose proof (safe_size a Ha) as Hsa. pose proof (safe_size b Hb) as Hsb.
    pose proof (safe_size (a * b) Hab) as Hsab.
    pose proof (size_pos a). pose proof (size_pos b). pose proof (size_mul a b).
    unfold canonSF at 1 2. unfold SpecFloat.SFmul. simpl xorb.
    rewrite shl_mul.
    replace (size a - 53 + (size b - 53))
      with (- Z.of_nat (Z.to_nat (53 - size a) + Z.to_nat (53 - size b))) by lia.
    apply round_aux_exact; lia.
Qed.

Lemma SFcompare_exact a b :
  safeNat a → safeNat b →
  SpecFloat.SFcompare (sfOf a) (sfOf b) = Some (a ?= b).
Proof.
  intros [Ha0 Ha] [Hb0 Hb].
  destruct a as [|a|a]; [|destruct b as [|b|b]|]; try lia.
  - destruct b as [|b|b]; [done| |lia]. by rewrite sfOf_pos by done.
  - by rewrite sfOf_pos by done.
  - rewrite !sfOf_pos by done.
    pose proof (safe_size a Ha) as Hsa. pose proof (safe_size b Hb) as Hsb.
    destruct (size_bounds a) as [Ha1 Ha2]. destruct (size_bounds b) as [Hb1 Hb2].
    unfold canonSF, SpecFloat.SFcompare. f_equal.
    destruct (Z.compare_spec (size a - 53) (size b - 53)) as [Heq|Hlt|Hgt].
    + assert (Hs : size a = size b) by lia. rewrite Hs.
      set (k := Z.to_nat (53 - size b)).
      change ((Zpos (shl a k) ?= Zpos (shl b k)) = (Zpos a ?= Zpos b)).
      rewrite !shl_Z. symmetry. apply Zmult_compare_compat_r.
      apply Z.lt_gt, Z.pow_pos_nonneg; lia.
    + symmetry. apply Z.compare_lt_iff.
      assert (2 ^ size a ≤ 2 ^ (size b - 1)) by (apply Z.pow_le_mono_r; lia).
      lia.
    + symmetry. apply Z.compare_gt_iff.
      assert (2 ^ size b ≤ 2 ^ (size a - 1)) by (apply Z.pow_le_mono_r; lia).
      lia.
Qed.

(** The same for the primitive operations the loops use. *)
Lemma Prim2SF_ofZ z : safeNat z → FloatOps.Prim2SF (Js.ofZ z) = sfOf z.
Proof.
  intros Hz. unfold Js.ofZ. apply FloatAxioms.Prim2SF_SF2Prim.
  by apply sfOf_valid.
Qed.

Lemma add_ofZ a b :
  safeNat a → safeNat b → safeNat (a + b) →
  PrimFloat.add (Js.ofZ a) (Js.ofZ b) = Js.ofZ (a + b).
Proof.
  intros Ha Hb Hab. apply FloatAxioms.Prim2SF_inj.
  rewrite FloatAxioms.add_spec, !Prim2SF_ofZ by done.
  by apply SFadd_exact.
Qed.

Lemma mul_ofZ a b :
  safeNat a → safeNat b → safeNat (a * b) →
  PrimFloat.mul (Js.ofZ a) (Js.ofZ b) = Js.ofZ (a * b).
Proof.
  intros Ha Hb Hab. apply FloatAxioms.Prim2SF_inj.
  rewrite FloatAxioms.mul_spec, !Prim2SF_ofZ by done.
  by apply SFmul_exact.
Qed.

Lemma gt_ofZ a b :
  safeNat a → safeNat b → Js.gt (Js.ofZ a) (Js.ofZ b) = (a >? b).
Proof.
  intros Ha Hb. unfold Js.gt.
  rewrite FloatAxioms.ltb_spec, !Prim2SF_ofZ by done.
  unfold SpecFloat.SFltb. rewrite SFcompare_exact by done.
  rewrite Z.gtb_ltb. unfold Z.ltb. by destruct (b ?= a).
Qed.

Lemma strictEq_ofZ a b :
  safeNat a → safeNat b → Js.strictEq (Js.ofZ a) (Js.ofZ b) = (a =? b).
Proof.
  intros Ha Hb. unfold Js.strictEq.
  rewrite FloatAxioms.eqb_spec, !Prim2SF_ofZ by done.
  unfold SpecFloat.SFeqb. rewrite SFcompare_exact by done.
  rewrite Z.eqb_compare. by destruct (a ?= b).
Qed.

Lemma toZ_ofZ z : safeNat z → Js.toZ (Js.ofZ z) = Some z.
Proof.
  intros Hz. unfold Js.toZ. rewrite Prim2SF_ofZ by done.
  destruct Hz as [H0 Hz]. destruct z as [|n|n]; [done| |lia].
  rewrite sfOf_pos by done. unfold canonSF.
  pose proof (safe_size n Hz) as Hs. pose proof (size_pos n).
  rewrite shl_Z, Z2Nat.id by lia.
  destruct (Z.leb_spec 0 (size n - 53)) as [Hle|Hlt].
  - replace (size n - 53) with 0 by lia. replace (53 - size n) with 0 by lia.
    f_equal. lia.
  - replace (- (size n - 53)) with (53 - size n) by lia.
    assert (0 < 2 ^ (53 - size n)) by (apply Z.pow_pos_nonneg; lia).
    rewrite Z.mod_mul by lia. simpl Z.eqb. cbv iota.
    rewrite Z.div_mul by lia. done.
Qed.

(* --------------------------------------------------------------------- *)
(** *** The loops on doubles are the loops on integers *)

Lemma safeNat_0 : safeNat 0.
Proof. unfold safeNat, MAX_SAFE_INTEGER. lia. Qed.

Lemma incr_ofZ w :
  safeNat w → safeNat (w + 1) → Js.incr (Js.ofZ w) = Js.ofZ (w + 1).
Proof.
  intros Hw Hw1. unfold Js.incr. apply add_ofZ; [done| |done].
  unfold safeNat, MAX_SAFE_INTEGER. lia.
Qed.

Lemma leTally_refl t : leTally t t.
Proof. unfold leTally. lia. Qed.

Lemma leTally_trans a b c : leTally a b → leTally b c → leTally a c.
Proof. unfold leTally. lia. Qed.

Lemma safeTally_between a b c :
  safeTally a → leTally a b → leTally b c → safeTally c → safeTally b.
Proof. unfold safeTally, leTally, safeNat. lia. Qed.

Lemma processHome_le acc m :
  (∀ r, Match.result m = Some r → 0 ≤ homeGoals r ∧ 0 ≤ awayGoals r) →
  leTally acc (processHome acc m).
Proof.
  intros Hnn. unfold processHome.
  destruct (Match.result m) as [r|]; [|apply leTally_refl].
  destruct (Hnn r eq_refl).
  destruct (homeGoals r >? awayGoals r); [unfold leTally; simpl; lia|].
  destruct (homeGoals r =? awayGoals r); unfold leTally; simpl; lia.
Qed.

Lemma processAway_le acc m :
  (∀ r, Match.result m = Some r → 0 ≤ homeGoals r ∧ 0 ≤ awayGoals r) →
  leTally acc (processAway acc m).
Proof.
  intros Hnn. unfold processAway.
  destruct (Match.result m) as [r|]; [|apply leTally_refl].
  destruct (Hnn r eq_refl).
  destruct (awayGoals r >? homeGoals r); [unfold leTally; simpl; lia|].
  destruct (awayGoals r =? homeGoals r); unfold leTally; simpl; lia.
Qed.

Lemma processHome_exact acc m :
  (∀ r, Match.result m = Some r → 0 ≤ homeGoals r ∧ 0 ≤ awayGoals r) →
  safeTally acc → safeTally (processHome acc m) →
  Js.processHome (toJsTally acc) m = toJsTally (processHome acc m).
Proof.
  intros Hnn Hacc Hres. unfold Js.processHome, processHome in *.
  destruct (Match.result m) as [r|]; [|done].
  destruct (Hnn r eq_refl) as [Hhg Hag].
  destruct acc as [w d l gf ga].
  destruct Hacc as (Hw & Hd & Hl & Hgf & Hga). simpl in Hw, Hd, Hl, Hgf, Hga.
  cbn [toJsTally Js.t_wins Js.t_draws Js.t_losses Js.t_goalsFor
       Js.t_goalsAgainst t_wins t_draws t_losses t_goalsFor t_goalsAgainst]
    in *.
  assert (Hsums : safeNat (gf + homeGoals r) ∧ safeNat (ga + awayGoals r)).
  { destruct (homeGoals r >? awayGoals r);
      [|destruct (homeGoals r =? awayGoals r)];
      destruct Hres as (_ & _ & _ & ? & ?); done. }
  destruct Hsums as [Hs1 Hs2].
  assert (Hh : safeNat (homeGoals r)) by (unfold safeNat in *; lia).
  assert (Ha : safeNat (awayGoals r)) by (unfold safeNat in *; lia).
  rewrite gt_ofZ, strictEq_ofZ, !add_ofZ by done.
  destruct (homeGoals r >? awayGoals r);
    [|destruct (homeGoals r =? awayGoals r)];
    destruct Hres as (Hw' & Hd' & Hl' & _ & _);
    simpl in Hw', Hd', Hl'; unfold toJsTally; simpl;
    by rewrite incr_ofZ.
Qed.

Lemma processAway_exact acc m :
  (∀ r, Match.result m = Some r → 0 ≤ homeGoals r ∧ 0 ≤ awayGoals r) →
  safeTally acc → safeTally (processAway acc m) →
  Js.processAway (toJsTally acc) m = toJsTally (processAway acc m).
Proof.
  intros Hnn Hacc Hres. unfold Js.processAway, processAway in *.
  destruct (Match.result m) as [r|]; [|done].
  destruct (Hnn r eq_refl) as [Hhg Hag].
  destruct acc as [w d l gf ga].
  destruct Hacc as (Hw & Hd & Hl & Hgf & Hga). simpl in Hw, Hd, Hl, Hgf, Hga.
  cbn [toJsTally Js.t_wins Js.t_draws Js.t_losses Js.t_goalsFor
       Js.t_goalsAgainst t_wins t_draws t_losses t_goalsFor t_goalsAgainst]
    in *.
  assert (Hsums : safeNat (gf + awayGoals r) ∧ safeNat (ga + homeGoals r)).
  { destruct (awayGoals r >? homeGoals r);
      [|destruct (awayGoals r =? homeGoals r)];
      destruct Hres as (_ & _ & _ & ? & ?); done. }
  destruct Hsums as [Hs1 Hs2].
  assert (Hh : safeNat (homeGoals r)) by (unfold safeNat in *; lia).
  assert (Ha : safeNat (awayGoals r)) by (unfold safeNat in *; lia).
  rewrite gt_ofZ, strictEq_ofZ, !add_ofZ by done.
  destruct (awayGoals r >? homeGoals r);
    [|destruct (awayGoals r =? homeGoals r)];
    destruct Hres as (Hw' & Hd' & Hl' & _ & _);
    simpl in Hw', Hd', Hl'; unfold toJsTally; simpl;
    by rewrite incr_ofZ.
Qed.

Lemma processEntry_le acc (e : Side * Match.t) :
  (∀ r, Match.result e.2 = Some r → 0 ≤ homeGoals r ∧ 0 ≤ awayGoals r) →
  leTally acc (processEntry acc e).
Proof.
  destruct e as [[] m]; unfold processEntry; simpl;
    [apply processHome_le | apply processAway_le].
Qed.

Lemma processEntry_exact acc (e : Side * Match.t) :
  (∀ r, Match.result e.2 = Some r → 0 ≤ homeGoals r ∧ 0 ≤ awayGoals r) →
  safeTally acc → safeTally (processEntry acc e) →
  Js.processEntry (toJsTally acc) e = toJsTally (processEntry acc e).
Proof.
  destruct e as [[] m]; unfold processEntry, Js.processEntry; simpl;
    [apply processHome_exact | apply processAway_exact].
Qed.

(** A loop whose body only adds leaves counters that are nowhere
    smaller, and on doubles it computes what it computes on integers as
    long as the counters it ends with are safe. *)
Lemma loop_le {A} (f : Tally → A → Tally) (ok : A → Prop) :
  (∀ acc x, ok x → leTally acc (f acc x)) →
  ∀ docs acc, (∀ x, x ∈ docs → ok x) → leTally acc (fold_left f docs acc).
Proof.
  intros Hle docs. induction docs as [|m docs IH]; intros acc Hok; simpl.
  - apply leTally_refl.
  - apply (leTally_trans _ (f acc m)).
    + apply Hle, Hok. by left.
    + apply IH. intros m' Hin. apply Hok. by right.
Qed.

Lemma loop_exact {A} (f : Tally → A → Tally)
    (jf : Js.Tally → A → Js.Tally) (ok : A → Prop) :
  (∀ acc x, ok x → leTally acc (f acc x)) →
  (∀ acc x, ok x → safeTally acc → safeTally (f acc x) →
            jf (toJsTally acc) x = toJsTally (f acc x)) →
  ∀ docs acc,
    (∀ x, x ∈ docs → ok x) →
    safeTally acc → safeTally (fold_left f docs acc) →
    fold_left jf docs (toJsTally acc) = toJsTally (fold_left f docs acc).
Proof.
  intros Hle Hstep docs.
  induction docs as [|m docs IH]; intros acc Hok Hacc Hend; simpl; [done|].
  assert (Hm : ok m) by (apply Hok; by left).
  assert (Hdocs : ∀ m', m' ∈ docs → ok m') by (intros m' Hin; apply Hok; by right).
  assert (Hmid : safeTally (f acc m)).
  { apply (safeTally_between acc _ (fold_left f docs (f acc m))); try done.
    - by apply Hle.
    - by apply (loop_le f ok). }
  rewrite Hstep by done. by apply IH.
Qed.

Lemma length_counted docs : (length (counted docs) ≤ length docs)%nat.
Proof.
  unfold counted. induction docs as [|m docs IH]; [done|].
  cbn [omap list_omap length].
  destruct (Match.result m); simpl; lia.
Qed.

Lemma sumZ_goalsOf l : sumZ goalsOf l = sumZ homeGoals l + sumZ awayGoals l.
Proof. induction l as [|r l IH]; simpl; [done|]. unfold goalsOf at 1. lia. Qed.

(** Over the documents a query returns, a field that is never negative
    adds up to no more than over the whole collection. *)
Lemma sum_finishedFor_le (g : MatchResult → Z) field tid ms :
  (∀ m r, m ∈ ms → Match.result m = Some r → 0 ≤ g r) →
  0 ≤ sumZ g (counted (finishedFor field tid ms)) ≤ sumZ g (counted ms).
Proof.
  induction ms as [|m ms IH]; intros Hnn.
  { unfold finishedFor. rewrite filter_nil. simpl. lia. }
  destruct IH as [IH1 IH2]; [intros m' r Hin; apply Hnn; by right|].
  rewrite finishedFor_cons. unfold counted in *.
  assert (Hm : ∀ r, Match.result m = Some r → 0 ≤ g r)
    by (intros r; apply Hnn; by left).
  destruct (bool_decide _); cbn [omap list_omap];
    destruct (Match.result m) as [r|];
    cbn [sumZ]; try specialize (Hm r eq_refl); lia.
Qed.

(** Within the safe range the counters the loops end with are safe, and
    so are the sums the statistics literal forms of them. *)
Lemma tallyFor_safe tid ms :
  safeGoals ms = true →
  let T := tallyFor tid ms in
  safeTally T ∧ safeNat (t_wins T + t_draws T)
  ∧ safeNat (t_wins T + t_draws T + t_losses T)
  ∧ safeNat (t_wins T * 3) ∧ safeNat (t_wins T * 3 + t_draws T).
Proof.
  intros (Hnn & Hsum & Hlen)%safeGoals_spec. cbn zeta. unfold tallyFor.
  set (home := finishedFor Match.homeTeamId tid ms).
  set (away := finishedFor Match.awayTeamId tid ms).
  set (ok := λ m : Match.t,
         ∀ r, Match.result m = Some r → 0 ≤ homeGoals r ∧ 0 ≤ awayGoals r).
  assert (Hhome : ∀ m, m ∈ home → ok m).
  { intros m [_ Hin]%list_elem_of_filter r. by apply Hnn. }
  assert (Haway : ∀ m, m ∈ away → ok m).
  { intros m [_ Hin]%list_elem_of_filter r. by apply Hnn. }
  set (T1 := fold_left processHome home tally0).
  set (T := runLoops home away).
  assert (H01 : leTally tally0 T1) by (by apply (loop_le processHome ok processHome_le)).
  assert (H1T : leTally T1 T) by (by apply (loop_le processAway ok processAway_le)).
  pose proof (leTally_trans _ _ _ H01 H1T) as (Lw & Ld & Ll & Lgf & Lga).
  simpl in Lw, Ld, Ll, Lgf, Lga.
  assert (HTeq : T = addTally T1 (fold_left processAway away tally0))
    by apply runLoops_add.
  destruct (homeLoop_sums home) as (Hh1 & Hh2 & Hh3).
  destruct (awayLoop_sums away) as (Ha1 & Ha2 & Ha3).
  cbn zeta in Hh1, Hh2, Hh3, Ha1, Ha2, Ha3. fold T1 in Hh1, Hh2, Hh3.
  assert (Hcount : t_wins T + t_draws T + t_losses T
                   ≤ 2 * Z.of_nat (length ms)).
  { rewrite HTeq. simpl.
    pose proof (length_counted home). pose proof (length_counted away).
    assert (length home ≤ length ms)%nat
      by (unfold home, finishedFor; apply length_filter).
    assert (length away ≤ length ms)%nat
      by (unfold away, finishedFor; apply length_filter).
    lia. }
  assert (Hnnh : ∀ m r, m ∈ ms → Match.result m = Some r → 0 ≤ homeGoals r)
    by (intros m r Hin Hr; by destruct (Hnn m r Hin Hr)).
  assert (Hnna : ∀ m r, m ∈ ms → Match.result m = Some r → 0 ≤ awayGoals r)
    by (intros m r Hin Hr; by destruct (Hnn m r Hin Hr)).
  pose proof (sum_finishedFor_le homeGoals Match.homeTeamId tid ms Hnnh) as S1.
  pose proof (sum_finishedFor_le awayGoals Match.homeTeamId tid ms Hnna) as S2.
  pose proof (sum_finishedFor_le homeGoals Match.awayTeamId tid ms Hnnh) as S3.
  pose proof (sum_finishedFor_le awayGoals Match.awayTeamId tid ms Hnna) as S4.
  fold home in S1, S2. fold away in S3, S4.
  rewrite sumZ_goalsOf in Hsum.
  assert (Hgf : t_goalsFor T ≤ MAX_SAFE_INTEGER)
    by (rewrite HTeq; simpl; lia).
  assert (Hga : t_goalsAgainst T ≤ MAX_SAFE_INTEGER)
    by (rewrite HTeq; simpl; lia).
  unfold safeTally, safeNat. lia.
Qed.

Lemma buildStats_exact T :
  safeTally T → safeNat (t_wins T + t_draws T)
  → safeNat (t_wins T + t_draws T + t_losses T)
  → safeNat (t_wins T * 3) → safeNat (t_wins T * 3 + t_draws T) →
  Js.buildStats (toJsTally T) = toJsStats (buildStats T).
Proof.
  intros (Hw & Hd & Hl & Hgf & Hga) Hwd Hmp Hw3 Hpts.
  unfold Js.buildStats, buildStats, toJsStats, toJsTally. simpl.
  assert (H3 : safeNat 3) by (unfold safeNat, MAX_SAFE_INTEGER; lia).
  by rewrite !add_ofZ, mul_ofZ, add_ofZ by done.
Qed.

Lemma Js_runLoops_entries h a :
  Js.runLoops h a
  = fold_left Js.processEntry (processingOrder h a) Js.tally0.
Proof.
  unfold Js.runLoops, processingOrder. rewrite fold_left_app.
  assert (Hmap : ∀ (side : Side) g l acc,
            (∀ acc m, Js.processEntry acc (side, m) = g acc m) →
            fold_left Js.processEntry ((λ m, (side, m)) <$> l) acc
            = fold_left g l acc).
  { intros side g l. induction l as [|m l IH]; intros acc Hg; simpl; [done|].
    rewrite Hg. by apply IH. }
  rewrite (Hmap Home Js.processHome), (Hmap Away Js.processAway); done.
Qed.

(** Within the safe range, visiting the documents of the two snapshots
    in any order leaves on doubles the counters the loops leave on
    integers. *)
Lemma order_on_doubles tid ms (order : list (Side * Match.t)) :
  safeGoals ms = true →
  order ≡ₚ processingOrder (finishedFor Match.homeTeamId tid ms)
                           (finishedFor Match.awayTeamId tid ms) →
  fold_left Js.processEntry order Js.tally0 = toJsTally (tallyFor tid ms).
Proof.
  intros Hsafe Horder.
  destruct (tallyFor_safe tid ms Hsafe) as (HT & _).
  apply safeGoals_spec in Hsafe as (Hnn & _ & _).
  assert (Hfold : fold_left processEntry order tally0 = tallyFor tid ms).
  { unfold tallyFor. rewrite runLoops_entries.
    by apply (fold_perm processEntry processEntry_add). }
  rewrite <- Hfold. change Js.tally0 with (toJsTally tally0).
  apply (loop_exact processEntry Js.processEntry
           (λ e, ∀ r, Match.result e.2 = Some r
                      → 0 ≤ homeGoals r ∧ 0 ≤ awayGoals r)).
  - intros acc e. apply processEntry_le.
  - intros acc e. apply processEntry_exact.
  - intros e Hin r Hr. rewrite Horder in Hin. unfold processingOrder in Hin.
    apply elem_of_app in Hin
      as [(m & -> & [_ Hm]%list_elem_of_filter)%list_elem_of_fmap
         |(m & -> & [_ Hm]%list_elem_of_filter)%list_elem_of_fmap];
      by apply (Hnn m).
  - unfold safeTally, tally0. simpl. repeat split; apply safeNat_0.
  - by rewrite Hfold.
Qed.

(** Within the safe range the statistics computed on doubles are the
    statistics computed on integers. *)
Lemma statsFor_on_doubles tid ms :
  safeGoals ms = true → Js.statsFor tid ms = toJsStats (statsFor tid ms).
Proof.
  intros Hsafe. unfold Js.statsFor, Js.aggregate.
  rewrite Js_runLoops_entries, (order_on_doubles tid ms) by done.
  destruct (tallyFor_safe tid ms Hsafe) as (HT & Hwd & Hmp & Hw3 & Hpts).
  by rewrite buildStats_exact.
Qed.

(** *** What does not depend on the numbers being safe *)

(** Which counter a document raises depends on the document alone, so on
    doubles too the win, draw and loss counters do not depend on the
    order of the documents, whatever the goal counts are. *)
Lemma Js_processEntry_respects a b e :
  Js.sameCounters a b →
  Js.sameCounters (Js.processEntry a e) (Js.processEntry b e).
Proof.
  intros (Hw & Hd & Hl).
  destruct e as [[] m]; unfold Js.processEntry, Js.processHome, Js.processAway;
    simpl; destruct (Match.result m) as [r|]; try done;
    repeat match goal with
           | |- context [if ?c then _ else _] => destruct c
           end; unfold Js.sameCounters; simpl; by rewrite ?Hw, ?Hd, ?Hl.
Qed.

Lemma Js_processEntry_swap a e1 e2 :
  Js.sameCounters (Js.processEntry (Js.processEntry a e1) e2)
               (Js.processEntry (Js.processEntry a e2) e1).
Proof.
  destruct e1 as [[] m1], e2 as [[] m2];
    unfold Js.processEntry, Js.processHome, Js.processAway; simpl;
    destruct (Match.result m1) as [r1|], (Match.result m2) as [r2|];
    try done;
    repeat match goal with
           | |- context [if ?c then _ else _] => destruct c
           end; done.
Qed.

Lemma Js_loop_respects l :
  ∀ a b, Js.sameCounters a b →
         Js.sameCounters (fold_left Js.processEntry l a)
                      (fold_left Js.processEntry l b).
Proof.
  induction l as [|e l IH]; intros a b Hab; simpl; [done|].
  by apply IH, Js_processEntry_respects.
Qed.

Lemma sameCounters_trans a b c :
  Js.sameCounters a b → Js.sameCounters b c → Js.sameCounters a c.
Proof. unfold Js.sameCounters. intros (-> & -> & ->) (-> & -> & ->). done. Qed.

Lemma Js_loop_perm l l' :
  l ≡ₚ l' →
  ∀ a, Js.sameCounters (fold_left Js.processEntry l a)
                    (fold_left Js.processEntry l' a).
Proof.
  intros Hp.
  induction Hp as [|x l l' _ IH|x y l|l l' l'' _ IH1 _ IH2]; intros a; simpl.
  - done.
  - apply IH.
  - apply Js_loop_respects, Js_processEntry_swap.
  - by apply (sameCounters_trans _ (fold_left Js.processEntry l' a)).
Qed.

Lemma Js_counts_sameCounters a b :
  Js.sameCounters a b →
  Js.counts (Js.buildStats a) = Js.counts (Js.buildStats b).
Proof.
  intros (Hw & Hd & Hl). unfold Js.counts, Js.buildStats. simpl.
  by rewrite Hw, Hd, Hl.
Qed.

(** Whatever the goals are, a document with a result raises exactly one
    of the three counters by one and a document without a result raises
    none.  As long as the documents are few enough for the counters to
    stay within the safe range, the counters are therefore integers. *)
Lemma Js_processEntry_counters acc (e : Side * Match.t) w d l :
  0 ≤ w → 0 ≤ d → 0 ≤ l → w + d + l + 1 ≤ MAX_SAFE_INTEGER →
  Js.t_wins acc = Js.ofZ w → Js.t_draws acc = Js.ofZ d →
  Js.t_losses acc = Js.ofZ l →
  ∃ w' d' l',
    (w ≤ w' ∧ d ≤ d' ∧ l ≤ l')
    ∧ w' + d' + l' = w + d + l + Z.of_nat (length (counted [e.2]))
    ∧ Js.t_wins (Js.processEntry acc e) = Js.ofZ w'
    ∧ Js.t_draws (Js.processEntry acc e) = Js.ofZ d'
    ∧ Js.t_losses (Js.processEntry acc e) = Js.ofZ l'.
Proof.
  intros Hw Hd Hl Hb Ew Ed El.
  assert (Hs : ∀ z, 0 ≤ z → z + 1 ≤ MAX_SAFE_INTEGER →
               Js.incr (Js.ofZ z) = Js.ofZ (z + 1)).
  { intros z Hz Hz1. apply incr_ofZ; unfold safeNat; lia. }
  destruct e as [[] m]; unfold Js.processEntry, Js.processHome, Js.processAway;
    unfold counted; cbn [fst snd omap list_omap];
    destruct (Match.result m) as [r|]; cbn [length];
    try (exists w, d, l; repeat split; try done; lia);
    repeat match goal with
           | |- context [if ?c then _ else _] => destruct c
           end; cbn [Js.t_wins Js.t_draws Js.t_losses];
    rewrite ?Ew, ?Ed, ?El.
  all: first
    [ exists (w + 1), d, l; rewrite ?Hs by lia;
      repeat split; try done; lia
    | exists w, (d + 1), l; rewrite ?Hs by lia;
      repeat split; try done; lia
    | exists w, d, (l + 1); rewrite ?Hs by lia;
      repeat split; try done; lia ].
Qed.

Lemma counted_app docs docs' :
  counted (docs ++ docs') = counted docs ++ counted docs'.
Proof. unfold counted. apply omap_app. Qed.

Lemma Js_loop_counters (es : list (Side * Match.t)) :
  ∀ acc w d l,
    0 ≤ w → 0 ≤ d → 0 ≤ l →
    w + d + l + Z.of_nat (length es) ≤ MAX_SAFE_INTEGER →
    Js.t_wins acc = Js.ofZ w → Js.t_draws acc = Js.ofZ d →
    Js.t_losses acc = Js.ofZ l →
    ∃ w' d' l',
      (w ≤ w' ∧ d ≤ d' ∧ l ≤ l')
      ∧ w' + d' + l' = w + d + l + Z.of_nat (length (counted es.*2))
      ∧ Js.t_wins (fold_left Js.processEntry es acc) = Js.ofZ w'
      ∧ Js.t_draws (fold_left Js.processEntry es acc) = Js.ofZ d'
      ∧ Js.t_losses (fold_left Js.processEntry es acc) = Js.ofZ l'.
Proof.
  induction es as [|e es IH]; intros acc w d l Hw Hd Hl Hb Ew Ed El.
  - exists w, d, l. simpl. repeat split; try done; lia.
  - cbn [length] in Hb.
    destruct (Js_processEntry_counters acc e w d l)
      as (w1 & d1 & l1 & (Hw1 & Hd1 & Hl1) & Hsum & Ew1 & Ed1 & El1);
      try done; [lia|].
    assert (Hone : (length (counted [e.2]) ≤ 1)%nat)
      by apply (length_counted [e.2]).
    destruct (IH (Js.processEntry acc e) w1 d1 l1)
      as (w2 & d2 & l2 & (Hw2 & Hd2 & Hl2) & Hsum2 & Ew2 & Ed2 & El2);
      try done; try lia.
    exists w2, d2, l2. cbn [fold_left].
    split; [lia|]. split; [|done].
    change (e :: es) with ([e] ++ es).
    rewrite fmap_app, counted_app, length_app. cbn [fmap list_fmap] in *.
    lia.
Qed.

(** The counters and the points the code computes for a team, whatever
    the goals: integers, as long as six times the number of documents
    stays within the safe range. *)
Lemma Js_counts_integers tid ms :
  6 * Z.of_nat (length ms) ≤ MAX_SAFE_INTEGER →
  ∃ w d l,
    (0 ≤ w ∧ 0 ≤ d ∧ 0 ≤ l)
    ∧ w + d + l
      = Z.of_nat (length (counted (finishedFor Match.homeTeamId tid ms))
                  + length (counted (finishedFor Match.awayTeamId tid ms)))
    ∧ Js.counts (Js.statsFor tid ms)
      = (Js.ofZ (w + d + l), Js.ofZ w, Js.ofZ d, Js.ofZ l,
         Js.ofZ (3 * w + d)).
Proof.
  intros Hlen.
  set (home := finishedFor Match.homeTeamId tid ms).
  set (away := finishedFor Match.awayTeamId tid ms).
  assert (Hh : (length home ≤ length ms)%nat)
    by (unfold home, finishedFor; apply length_filter).
  assert (Ha : (length away ≤ length ms)%nat)
    by (unfold away, finishedFor; apply length_filter).
  assert (Hch := length_counted home). assert (Hca := length_counted away).
  destruct (Js_loop_counters (processingOrder home away) Js.tally0 0 0 0)
    as (w & d & l & (Hw & Hd & Hl) & Hsum & Ew & Ed & El); try done.
  { unfold processingOrder. rewrite length_app, !length_fmap. lia. }
  assert (Hcnt : counted (processingOrder home away).*2
                 = counted home ++ counted away).
  { unfold processingOrder. rewrite fmap_app, counted_app, <- !list_fmap_compose.
    by rewrite !list_fmap_id. }
  rewrite Hcnt, length_app in Hsum.
  exists w, d, l. split; [done|]. split; [lia|].
  unfold Js.statsFor, Js.aggregate. fold home away.
  rewrite Js_runLoops_entries.
  unfold Js.counts, Js.buildStats. cbn [Js.matchesPlayed Js.wins Js.draws
    Js.losses Js.points]. rewrite Ew, Ed, El.
  rewrite !add_ofZ, mul_ofZ, add_ofZ
    by (unfold safeNat, MAX_SAFE_INTEGER in *; lia).
  by replace (w * 3 + d) with (3 * w + d) by lia.
Qed.

(** A collection with its documents in another order is within the safe
    range if the collection is. *)
Lemma safeGoals_perm ms ms' : ms ≡ₚ ms' → safeGoals ms = safeGoals ms'.
Proof.
  intros Hp.
  assert (Hc : counted ms ≡ₚ counted ms') by (unfold counted; by rewrite Hp).
  assert (Hs : ∀ l l' : list MatchResult,
             l ≡ₚ l' → sumZ goalsOf l = sumZ goalsOf l').
  { intros l l' H. induction H; simpl; lia. }
  assert (Hf : ∀ l l' : list MatchResult,
             l ≡ₚ l' → forallb safeResult l = forallb safeResult l').
  { intros l l' H. induction H; simpl; try congruence.
    by rewrite !andb_assoc, (andb_comm (safeResult y)). }
  unfold safeGoals.
  by rewrite (Hf _ _ Hc), (Hs _ _ Hc), (Permutation_length Hp).
Qed.

(** So is a collection with one document less. *)
Lemma safeGoals_drop ms1 m ms2 :
  safeGoals (ms1 ++ m :: ms2) = true → safeGoals (ms1 ++ ms2) = true.
Proof.
  rewrite (safeGoals_perm (ms1 ++ m :: ms2) (m :: ms1 ++ ms2))
    by (symmetry; apply Permutation_middle).
  rewrite !safeGoals_spec. intros (Hnn & Hsum & Hlen).
  split; [intros m' r Hin; apply Hnn; by right|].
  assert (Hm : ∀ r, Match.result m = Some r → 0 ≤ homeGoals r ∧ 0 ≤ awayGoals r)
    by (intros r; apply Hnn; by left).
  unfold counted in *. cbn [omap list_omap length] in Hsum, Hlen.
  destruct (Match.result m) as [r|].
  - destruct (Hm r eq_refl). cbn [sumZ] in Hsum. unfold goalsOf at 1 in Hsum.
    lia.
  - lia.
Qed.

(* ===================================================================== *)
(** ** The claims *)
(* ===================================================================== *)

(** What the doubles of [Js.statsFor] are is read back with
    [exactStats]: on the sample collection, the integers computed above. *)
Example js_agrees_within_safe_range :
  let ms := [Sample.homeWin; Sample.awayLoss; Sample.shootout] in
  safeGoals ms = true
  ∧ exactStats (Js.statsFor "A" ms) = Some (statsFor "A" ms)
  ∧ exactStats (Js.statsFor "B" ms) = Some (statsFor "B" ms).
Proof. cbn zeta. repeat split; vm_compute; reflexivity. Qed.

(** C1, as claimed for every collection, fails beyond the safe range.
    Team A has won 2^53 to nil and 1 to nil at home: the code's [+=]
    on doubles leaves goalsFor at 2^53, while the goals scored add up to
    2^53 + 1. *)
Lemma goal_sum_rounded_beyond_safe_range :
  let ms := [Sample.played "m1" "A" "B" (2 ^ 53) 0;
             Sample.played "m2" "A" "B" 1 0] in
  let home := counted (finishedFor Match.homeTeamId "A" ms) in
  let away := counted (finishedFor Match.awayTeamId "A" ms) in
  (goalsFor <$> exactStats (Js.statsFor "A" ms)) = Some (2 ^ 53)
  ∧ sumZ homeGoals home + sumZ awayGoals away = 2 ^ 53 + 1
  ∧ (goalsFor <$> exactStats (Js.statsFor "A" ms))
    ≠ Some (sumZ homeGoals home + sumZ awayGoals away).
Proof.
  cbn zeta. split; [vm_compute; reflexivity|].
  split; [vm_compute; reflexivity|].
  vm_compute. discriminate.
Qed.

(** C1. For every collection of finished matches with results, the
    statistics computed by [calculateTeamStats] satisfy
    matchesPlayed = wins + draws + losses and points = 3*wins + draws,
    and the counted matches are exactly the matches played.  This holds
    of the integer counters, and it holds of the doubles the code
    computes whatever the goals are, for a collection small enough for
    the counters to stay within the safe range of the number type (six
    times its size at most [MAX_SAFE_INTEGER]): the counters are then
    integers that are not negative.  When moreover the goal counts are
    within the safe range ([safeGoals]: non-negative integers that add
    up to at most [MAX_SAFE_INTEGER]), the doubles the two loops compute
    are the integers of the statistics returned, and goalsFor /
    goalsAgainst are the sums of the goals the team scored / conceded
    over all counted matches: home goals of the counted home matches
    plus away goals of the counted away matches, and the other way
    round. *)
Theorem calculateTeamStats_invariants env req s resp w' :
  invoke env req s = (inr resp, w') →
  ∃ tid,
    data req = Some (mkRequestData (Some tid))
    ∧ let st := stats resp in
      let js := Js.statsFor tid (matches s) in
      let home := counted (finishedFor Match.homeTeamId tid (matches s)) in
      let away := counted (finishedFor Match.awayTeamId tid (matches s)) in
      (matchesPlayed st = wins st + draws st + losses st
       ∧ points st = 3 * wins st + draws st
       ∧ matchesPlayed st = Z.of_nat (length home + length away))
      ∧ (6 * Z.of_nat (length (matches s)) ≤ MAX_SAFE_INTEGER →
         ∃ w d l,
           (0 ≤ w ∧ 0 ≤ d ∧ 0 ≤ l)
           ∧ w + d + l = Z.of_nat (length home + length away)
           ∧ Js.counts js
             = (Js.ofZ (w + d + l), Js.ofZ w, Js.ofZ d, Js.ofZ l,
                Js.ofZ (3 * w + d)))
      ∧ (safeGoals (matches s) = true →
         js = toJsStats st
         ∧ goalsFor st = sumZ homeGoals home + sumZ awayGoals away
         ∧ goalsAgainst st = sumZ awayGoals home + sumZ homeGoals away).
Proof.
  intros Hrun.
  apply invoke_ok_inv in Hrun
    as (a & tid & team & _ & Hd & _ & _ & _ & _ & -> & _).
  exists tid. split; [done|]. cbn zeta. simpl stats.
  assert (Hjs : safeGoals (matches s) = true →
                Js.statsFor tid (matches s)
                = toJsStats (statsFor tid (matches s)))
    by apply statsFor_on_doubles.
  split; [|split; [apply Js_counts_integers|]].
  - unfold statsFor, aggregate. rewrite runLoops_add.
    destruct (homeLoop_sums (finishedFor Match.homeTeamId tid (matches s)))
      as (Hh1 & Hh2 & Hh3).
    destruct (awayLoop_sums (finishedFor Match.awayTeamId tid (matches s)))
      as (Ha1 & Ha2 & Ha3).
    cbn zeta in *. unfold buildStats, addTally. simpl. lia.
  - intros Hsafe. split; [by apply Hjs|].
    unfold statsFor, aggregate. rewrite runLoops_add.
    destruct (homeLoop_sums (finishedFor Match.homeTeamId tid (matches s)))
      as (Hh1 & Hh2 & Hh3).
    destruct (awayLoop_sums (finishedFor Match.awayTeamId tid (matches s)))
      as (Ha1 & Ha2 & Ha3).
    cbn zeta in *. unfold buildStats, addTally. simpl. lia.
Qed.

Lemma calculateTeamStats_invariants_witness :
  let ms := [Sample.homeWin; Sample.shootout] in
  let st := statsFor "A" ms in
  let home := counted (finishedFor Match.homeTeamId "A" ms) in
  let away := counted (finishedFor Match.awayTeamId "A" ms) in
  matchesPlayed st = wins st + draws st + losses st
  ∧ points st = 3 * wins st + draws st
  ∧ matchesPlayed st = Z.of_nat (length home + length away)
  ∧ Js.statsFor "A" ms = toJsStats st
  ∧ goalsFor st = sumZ homeGoals home + sumZ awayGoals away
  ∧ goalsAgainst st = sumZ awayGoals home + sumZ homeGoals away.
Proof.
  cbn zeta.
  destruct (calculateTeamStats_invariants Sample.healthy
              (Sample.ask (Some Sample.ana) "A")
              (Sample.store [Sample.homeWin; Sample.shootout])
              (mkResponse true (statsFor "A" [Sample.homeWin; Sample.shootout]))
              (invoke Sample.healthy (Sample.ask (Some Sample.ana) "A")
                 (Sample.store [Sample.homeWin; Sample.shootout])).2)
    as (tid & Htid & (H1 & H2 & H3) & _ & H4).
  - vm_compute. reflexivity.
  - injection Htid as <-.
    destruct H4 as (H4 & H5 & H6); [vm_compute; reflexivity|].
    split; [exact H1|]. split; [exact H2|]. split; [exact H3|].
    split; [exact H4|]. split; [exact H5|exact H6].
Defined.

(** C2. A match whose status is "finished" but whose result is absent is
    left out of the aggregation of both teams: wherever it stands in the
    collection, every team's statistics are those computed without it,
    and the run answers exactly as it does without it, so no error is
    raised on its account. *)
Theorem finished_without_result_skipped (m : Match.t) :
  Match.status m = finished → Match.result m = None →
  ∀ ms1 ms2,
    (∀ tid, statsFor tid (ms1 ++ m :: ms2) = statsFor tid (ms1 ++ ms2))
    ∧ ∀ env req T Mb,
        (invoke env req (mkStore T Mb (ms1 ++ m :: ms2))).1
        = (invoke env req (mkStore T Mb (ms1 ++ ms2))).1
        ∧ teams (db (invoke env req (mkStore T Mb (ms1 ++ m :: ms2))).2)
          = teams (db (invoke env req (mkStore T Mb (ms1 ++ ms2))).2).
Proof.
  intros _ Hres ms1 ms2.
  assert (Hst : ∀ tid, statsFor tid (ms1 ++ m :: ms2) = statsFor tid (ms1 ++ ms2)).
  { intros tid. rewrite !statsFor_tally, tallyFor_insert. f_equal.
    unfold contribution, processHome, processAway. rewrite Hres.
    repeat case_bool_decide; by rewrite !addTally_0_l. }
  split; [done|]. intros env req T Mb.
  destruct (invoke_matches_only_through_stats env req T Mb _ _ Hst)
    as (? & ? & _).
  done.
Qed.

Lemma finished_without_result_skipped_witness :
  statsFor "A" [Sample.homeWin; Sample.unreported "m9" "A" "B"]
  = statsFor "A" [Sample.homeWin]
  ∧ statsFor "B" [Sample.homeWin; Sample.unreported "m9" "A" "B"]
    = statsFor "B" [Sample.homeWin].
Proof.
  pose proof (finished_without_result_skipped
                (Sample.unreported "m9" "A" "B") eq_refl eq_refl
                [Sample.homeWin] []) as [Hst _].
  split; apply Hst.
Defined.

(** C3. A finished match with home team A, away team B and result 3-1:
    aggregated for A it is one win with goalsFor up by 3 and goalsAgainst
    up by 1; aggregated for B it is one loss with goalsFor up by 1 and
    goalsAgainst up by 3.  On its own it gives A the statistics
    1 played, 1 won, 3:1, 3 points and B 1 played, 1 lost, 1:3, no point. *)
Theorem home_win_scenario (A B : string) (m : Match.t) (r : MatchResult) :
  A ≠ B →
  Match.homeTeamId m = A → Match.awayTeamId m = B →
  Match.status m = finished → Match.result m = Some r →
  homeGoals r = 3 → awayGoals r = 1 →
  (∀ ms1 ms2,
     let before := statsFor A (ms1 ++ ms2) in
     let after := statsFor A (ms1 ++ m :: ms2) in
     wins after = wins before + 1
     ∧ draws after = draws before ∧ losses after = losses before
     ∧ goalsFor after = goalsFor before + 3
     ∧ goalsAgainst after = goalsAgainst before + 1)
  ∧ (∀ ms1 ms2,
       let before := statsFor B (ms1 ++ ms2) in
       let after := statsFor B (ms1 ++ m :: ms2) in
       losses after = losses before + 1
       ∧ wins after = wins before ∧ draws after = draws before
       ∧ goalsFor after = goalsFor before + 1
       ∧ goalsAgainst after = goalsAgainst before + 3)
  ∧ statsFor A [m] = mkTeamStats 1 1 0 0 3 1 3 (mkStreakInfo win 0)
  ∧ statsFor B [m] = mkTeamStats 1 0 0 1 1 3 0 (mkStreakInfo win 0).
Proof.
  intros Hne Hh Ha Hfin Hres Hhg Hag.
  assert (HcA : contribution A m = mkTally 1 0 0 3 1).
  { unfold contribution, processHome, processAway.
    rewrite Hh, Ha, Hfin, Hres, Hhg, Hag.
    rewrite bool_decide_eq_true_2 by done.
    rewrite bool_decide_eq_false_2 by (intros [? _]; congruence).
    done. }
  assert (HcB : contribution B m = mkTally 0 0 1 1 3).
  { unfold contribution, processHome, processAway.
    rewrite Hh, Ha, Hfin, Hres, Hhg, Hag.
    rewrite bool_decide_eq_false_2 by (intros [? _]; congruence).
    rewrite bool_decide_eq_true_2 by done.
    done. }
  repeat split.
  1-5: rewrite !statsFor_tally, tallyFor_insert, HcA; simpl; lia.
  1-5: rewrite !statsFor_tally, tallyFor_insert, HcB; simpl; lia.
  - by rewrite statsFor_tally, tallyFor_cons, HcA.
  - by rewrite statsFor_tally, tallyFor_cons, HcB.
Qed.

Lemma home_win_scenario_witness :
  statsFor "A" [Sample.homeWin] = mkTeamStats 1 1 0 0 3 1 3 (mkStreakInfo win 0)
  ∧ statsFor "B" [Sample.homeWin] = mkTeamStats 1 0 0 1 1 3 0 (mkStreakInfo win 0).
Proof.
  assert (Hne : "A" ≠ "B") by discriminate.
  pose proof (home_win_scenario "A" "B" Sample.homeWin
                (mkMatchResult 3 1 None None None)
                Hne eq_refl eq_refl eq_refl eq_refl eq_refl eq_refl)
    as (_ & _ & HA & HB).
  by split.
Defined.

(** The same scenario through the callable, against a store that holds
    the one match. *)
Example home_win_invoked :
  (invoke Sample.healthy (Sample.ask (Some Sample.ana) "A")
     (Sample.store [Sample.homeWin])).1
  = inr (mkResponse true (mkTeamStats 1 1 0 0 3 1 3 (mkStreakInfo win 0)))
  ∧ (invoke Sample.healthy (Sample.ask (Some Sample.ana) "B")
       (Sample.store [Sample.homeWin])).1
    = inr (mkResponse true (mkTeamStats 1 0 0 1 1 3 0 (mkStreakInfo win 0))).
Proof. split; vm_compute; reflexivity. Qed.

(** C4. When the requested team does not exist, an authenticated request
    that names a team by a document id is answered with the not-found
    error once the store has answered the team read, and nothing is
    written: the store is as before and the only store request issued is
    that read.  More generally, whenever a run fails, the store, and with
    it every team's stored statistics, is unchanged. *)
Theorem missing_team_not_found env req s a tid :
  auth req = Some a →
  data req = Some (mkRequestData (Some tid)) → isDocId tid = true →
  unavailable env TeamGet = false →
  teams s !! tid = None →
  invoke env req s =
    (inl (ThrowHttps (mkHttpsError not_found "Team not found")),
     mkWorld s [TeamGet])
  ∧ (TeamUpdate ∉ calls (invoke env req s).2)
  ∧ ∀ env' req' s' e w',
      invoke env' req' s' = (inl e, w') →
      db w' = s' ∧ ∀ t, (Team.stats <$> teams (db w') !! t)
                        = (Team.stats <$> teams s' !! t).
Proof.
  intros Ha Hd Hid Hup Ht. apply isDocId_nonempty in Hid as Hne.
  assert (Hrun : invoke env req s =
                   (inl (ThrowHttps (mkHttpsError not_found "Team not found")),
                    mkWorld s [TeamGet])).
  { unfold_fn. rewrite Ha, Hd. cbn.
    rewrite bool_decide_eq_false_2 by done.
    rewrite Hup. cbn. rewrite Ht. by destruct s. }
  split; [done|]. split.
  - rewrite Hrun. simpl. intros Hin.
    apply list_elem_of_singleton in Hin. discriminate.
  - intros env' req' s' e w' Hfail.
    apply invoke_err_inv in Hfail as [-> _]. done.
Qed.

Lemma missing_team_not_found_witness :
  invoke Sample.healthy (Sample.ask (Some Sample.ana) "Z")
    (Sample.store [Sample.homeWin]) =
    (inl (ThrowHttps (mkHttpsError not_found "Team not found")),
     mkWorld (Sample.store [Sample.homeWin]) [TeamGet]).
Proof.
  exact (proj1 (missing_team_not_found Sample.healthy
                  (Sample.ask (Some Sample.ana) "Z")
                  (Sample.store [Sample.homeWin]) Sample.ana "Z"
                  eq_refl eq_refl eq_refl eq_refl eq_refl)).
Defined.

(** C5. Whatever the matches are, the statistics a successful run
    returns, which are the statistics it stores on the team, have
    currentStreak equal to a win streak of count 0. *)
Theorem streak_is_fixed env req s resp w' :
  invoke env req s = (inr resp, w') →
  currentStreak (stats resp) = {| type := win; count := 0 |}
  ∧ ∃ tid stored,
      data req = Some (mkRequestData (Some tid))
      ∧ teams (db w') !! tid = Some stored
      ∧ Team.stats stored = stats resp
      ∧ currentStreak (Team.stats stored) = {| type := win; count := 0 |}.
Proof.
  intros Hrun.
  apply invoke_ok_inv in Hrun
    as (a & tid & team & _ & Hd & _ & Ht & _ & _ & -> & ->).
  split; [done|].
  exists tid, (setStats team (statsFor tid (matches s)) (now env)).
  repeat split; try done.
  unfold storeAfter. simpl. by rewrite lookup_insert_eq.
Qed.

(** B has lost its only match, and its streak is still reported as a win
    streak of count 0. *)
Lemma streak_is_fixed_witness :
  losses (statsFor "B" [Sample.homeWin]) = 1
  ∧ currentStreak (statsFor "B" [Sample.homeWin]) = {| type := win; count := 0 |}.
Proof.
  split; [reflexivity|].
  refine (proj1 (streak_is_fixed Sample.healthy
                   (Sample.ask (Some Sample.ana) "B")
                   (Sample.store [Sample.homeWin])
                   (mkResponse true (statsFor "B" [Sample.homeWin]))
                   (invoke Sample.healthy (Sample.ask (Some Sample.ana) "B")
                      (Sample.store [Sample.homeWin])).2 _)).
  vm_compute. reflexivity.
Defined.

(** C6, as claimed for every match set, fails beyond the safe range.
    Team A has won 2^53 to nil and twice 1 to nil at home: with the big
    result processed first the code's [+=] on doubles leaves goalsFor at
    2^53, with the big result processed last at 2^53 + 2. *)
Lemma order_matters_beyond_safe_range :
  let big := Sample.played "m1" "A" "B" (2 ^ 53) 0 in
  let one := Sample.played "m2" "A" "B" 1 0 in
  let other := Sample.played "m3" "A" "B" 1 0 in
  [big; one; other] ≡ₚ [one; other; big]
  ∧ (goalsFor <$> exactStats (Js.statsFor "A" [big; one; other]))
    = Some (2 ^ 53)
  ∧ (goalsFor <$> exactStats (Js.statsFor "A" [one; other; big]))
    = Some (2 ^ 53 + 2)
  ∧ Js.statsFor "A" [big; one; other] ≠ Js.statsFor "A" [one; other; big].
Proof.
  cbn zeta. split.
  { change ([?x; ?y; ?z] ≡ₚ [?y; ?z; ?x]) with ([x] ++ [y; z] ≡ₚ [y; z] ++ [x]).
    apply Permutation_app_comm. }
  split; [vm_compute; reflexivity|].
  split; [vm_compute; reflexivity|].
  intros Heq.
  apply (f_equal (λ st, goalsFor <$> exactStats st)) in Heq.
  vm_compute in Heq. discriminate Heq.
Qed.

(** C6. The counts of matches played, wins, draws and losses and the
    points, as the code computes them on doubles, do not depend on the
    order in which the matches are processed: visiting the documents of
    the two snapshots in any order, home and away documents interleaved
    at will, leaves the counts the two loops leave, and a collection
    with its documents in another order gives the same counts.  For a
    collection within the safe range of the number type ([safeGoals])
    the same holds of goalsFor and goalsAgainst, hence of the whole
    statistics, which are then the statistics computed on integers. *)
Theorem aggregate_order_irrelevant (tid : string) (ms ms' : list Match.t)
    (order : list (Side * Match.t)) :
  ms ≡ₚ ms' →
  order ≡ₚ processingOrder (finishedFor Match.homeTeamId tid ms)
                           (finishedFor Match.awayTeamId tid ms) →
  let reordered := Js.buildStats (fold_left Js.processEntry order Js.tally0) in
  Js.counts reordered = Js.counts (Js.statsFor tid ms)
  ∧ Js.counts (Js.statsFor tid ms') = Js.counts (Js.statsFor tid ms)
  ∧ (safeGoals ms = true →
     reordered = Js.statsFor tid ms
     ∧ Js.statsFor tid ms' = Js.statsFor tid ms
     ∧ Js.statsFor tid ms = toJsStats (statsFor tid ms)).
Proof.
  intros Hms Horder. cbn zeta.
  assert (Hperm : processingOrder (finishedFor Match.homeTeamId tid ms')
                                  (finishedFor Match.awayTeamId tid ms')
                  ≡ₚ processingOrder (finishedFor Match.homeTeamId tid ms)
                                     (finishedFor Match.awayTeamId tid ms)).
  { unfold processingOrder.
    by rewrite (finishedFor_perm Match.homeTeamId tid ms' ms),
               (finishedFor_perm Match.awayTeamId tid ms' ms). }
  split; [|split].
  - unfold Js.statsFor, Js.aggregate. rewrite Js_runLoops_entries.
    by apply Js_counts_sameCounters, Js_loop_perm.
  - unfold Js.statsFor, Js.aggregate. rewrite !Js_runLoops_entries.
    by apply Js_counts_sameCounters, Js_loop_perm.
  - intros Hsafe.
    assert (Hsafe' : safeGoals ms' = true)
      by (by rewrite <- (safeGoals_perm ms ms' Hms)).
    assert (H2 : statsFor tid ms' = statsFor tid ms).
    { unfold statsFor, aggregate, runLoops. f_equal.
      rewrite (fold_perm processHome processHome_add _ _
                 (finishedFor_perm Match.homeTeamId tid _ _ Hms)).
      symmetry.
      apply (fold_perm processAway processAway_add).
      by apply finishedFor_perm. }
    split; [|split].
    + rewrite (order_on_doubles tid ms order) by done.
      unfold Js.statsFor, Js.aggregate.
      by rewrite Js_runLoops_entries, (order_on_doubles tid ms).
    + by rewrite (statsFor_on_doubles tid ms'), (statsFor_on_doubles tid ms),
                 H2.
    + by apply statsFor_on_doubles.
Qed.

Lemma aggregate_order_irrelevant_witness :
  Js.buildStats (fold_left Js.processEntry
                   [(Away, Sample.awayLoss); (Home, Sample.homeWin)] Js.tally0)
  = Js.statsFor "A" [Sample.homeWin; Sample.awayLoss]
  ∧ Js.statsFor "A" [Sample.awayLoss; Sample.homeWin]
    = Js.statsFor "A" [Sample.homeWin; Sample.awayLoss]
  ∧ Js.statsFor "A" [Sample.homeWin; Sample.awayLoss]
    = toJsStats (statsFor "A" [Sample.homeWin; Sample.awayLoss]).
Proof.
  destruct (aggregate_order_irrelevant "A"
              [Sample.homeWin; Sample.awayLoss]
              [Sample.awayLoss; Sample.homeWin]
              [(Away, Sample.awayLoss); (Home, Sample.homeWin)])
    as (_ & _ & Hall).
  - apply perm_swap.
  - vm_compute. apply perm_swap.
  - apply Hall. vm_compute. reflexivity.
Defined.

(** C7. The statistics are a function of the team identifier and the
    matches collection alone: two successful runs for the same team over
    the same matches return identical statistics, whoever calls, whenever,
    and whatever else the store holds; and running again on the store a
    successful run leaves behind returns the same response. *)
Theorem aggregation_deterministic env req s resp w' :
  invoke env req s = (inr resp, w') →
  (∀ env2 req2 s2 resp2 w2,
     invoke env2 req2 s2 = (inr resp2, w2) →
     data req2 = data req → matches s2 = matches s →
     stats resp2 = stats resp)
  ∧ (∀ env2, (∀ op, unavailable env2 op = false) →
       (invoke env2 req (db w')).1 = inr resp).
Proof.
  intros Hrun.
  apply invoke_ok_inv in Hrun
    as (a & tid & team & Ha & Hd & Hne & Ht & (mb & Hmb & Hact) & _ & -> & ->).
  split.
  - intros env2 req2 s2 resp2 w2 Hrun2 Hd2 Hms.
    apply invoke_ok_inv in Hrun2
      as (a2 & tid2 & team2 & _ & Hd2' & _ & _ & _ & _ & -> & _).
    simpl. rewrite Hd, Hd2' in Hd2. injection Hd2 as ->. by rewrite Hms.
  - intros env2 Hup. simpl.
    rewrite (invoke_ok_intro env2 req _ a tid
               (setStats team (statsFor tid (matches s)) (now env)));
      try done.
    + unfold storeAfter. simpl. by rewrite lookup_insert_eq.
    + exists mb. by split.
Qed.

Lemma aggregation_deterministic_witness :
  (invoke (mkEnv 900 (λ _, false)) (Sample.ask (Some Sample.ana) "A")
     (db (invoke Sample.healthy (Sample.ask (Some Sample.ana) "A")
            (Sample.store [Sample.homeWin])).2)).1
  = inr (mkResponse true (statsFor "A" [Sample.homeWin])).
Proof.
  refine (proj2 (aggregation_deterministic Sample.healthy
                   (Sample.ask (Some Sample.ana) "A")
                   (Sample.store [Sample.homeWin])
                   (mkResponse true (statsFor "A" [Sample.homeWin]))
                   (invoke Sample.healthy (Sample.ask (Some Sample.ana) "A")
                      (Sample.store [Sample.homeWin])).2 _)
            (mkEnv 900 (λ _, false)) (λ _, eq_refl)).
  vm_compute. reflexivity.
Defined.

(** C8, as stated, fails: when the store rejects the membership read, the
    permission helper catches the failure and answers false, and the
    caller is told permission-denied, not internal. *)
Lemma store_failure_not_always_internal :
  let run := invoke Sample.membersDown (Sample.ask (Some Sample.ana) "A")
               (Sample.store [Sample.homeWin]) in
  unavailable Sample.membersDown MemberGet = true
  ∧ MemberGet ∈ calls run.2
  ∧ run.1 = inl (ThrowHttps
                   (mkHttpsError permission_denied "No access to this team"))
  ∧ ¬ ∃ h, run.1 = inl (ThrowHttps h) ∧ code h = internal.
Proof.
  cbn zeta.
  assert (Hrun : invoke Sample.membersDown (Sample.ask (Some Sample.ana) "A")
                   (Sample.store [Sample.homeWin])
                 = (inl (ThrowHttps
                           (mkHttpsError permission_denied "No access to this team")),
                    mkWorld (Sample.store [Sample.homeWin]) [TeamGet; MemberGet]))
    by (vm_compute; reflexivity).
  rewrite Hrun. simpl. repeat split.
  - set_solver.
  - intros (h & [= <-] & Hcode). discriminate.
Qed.

(** C8, amended. When the store rejects a request of a run, the run ends
    there: that request is the last one issued, no request is issued
    twice, the store is unchanged and the caller gets an error.  The
    error is internal when the rejected request is the team read, one of
    the two match queries or the final write; it is permission-denied
    when the rejected request is the membership read. *)
Theorem store_failure_surfaces env req s op :
  op ∈ calls (invoke env req s).2 →
  unavailable env op = true →
  ∃ h, (invoke env req s).1 = inl (ThrowHttps h)
       ∧ code h = (if bool_decide (op = MemberGet)
                   then permission_denied else internal)
       ∧ last (calls (invoke env req s).2) = Some op
       ∧ NoDup (calls (invoke env req s).2)
       ∧ db (invoke env req s).2 = s.
Proof.
  intros Hin Hop.
  destruct (invoke_rejected env req s op Hin Hop) as (Hlast & h & Hans & Hcode).
  exists h. repeat split; try done.
  - apply invoke_calls_NoDup.
  - destruct (invoke env req s) as [r w'] eqn:Hrun. simpl in *. subst r.
    by apply invoke_err_inv in Hrun as [? _].
Qed.

Lemma store_failure_surfaces_witness :
  ∃ h, (invoke Sample.writesDown (Sample.ask (Some Sample.ana) "A")
          (Sample.store [Sample.homeWin])).1 = inl (ThrowHttps h)
       ∧ code h = internal.
Proof.
  assert (Hin : TeamUpdate ∈ calls (invoke Sample.writesDown
                                      (Sample.ask (Some Sample.ana) "A")
                                      (Sample.store [Sample.homeWin])).2).
  { vm_compute. set_solver. }
  destruct (store_failure_surfaces Sample.writesDown
              (Sample.ask (Some Sample.ana) "A")
              (Sample.store [Sample.homeWin]) TeamUpdate Hin eq_refl)
    as (h & Hans & Hcode & _).
  exists h. by split.
Defined.

(** C9. A successful run changes the store in one place: the document of
    the requested team, where [stats] becomes the returned statistics and
    [updatedAt] the time of the write.  Every other field of that
    document, every other team document, every membership and every
    match document is as before. *)
Theorem only_stats_and_updatedAt_written env req s resp w' :
  invoke env req s = (inr resp, w') →
  ∃ tid before after,
    data req = Some (mkRequestData (Some tid))
    ∧ teams s !! tid = Some before
    ∧ teams (db w') !! tid = Some after
    ∧ Team.stats after = stats resp
    ∧ Team.updatedAt after = now env
    ∧ sameOtherFields before after
    ∧ (∀ other, other ≠ tid → teams (db w') !! other = teams s !! other)
    ∧ members (db w') = members s
    ∧ matches (db w') = matches s.
Proof.
  intros Hrun.
  apply invoke_ok_inv in Hrun
    as (a & tid & team & _ & Hd & _ & Ht & _ & _ & -> & ->).
  exists tid, team, (setStats team (statsFor tid (matches s)) (now env)).
  unfold storeAfter. simpl.
  repeat split; try done.
  - by rewrite lookup_insert_eq.
  - intros other Hother. by rewrite lookup_insert_ne.
Qed.

Lemma only_stats_and_updatedAt_written_witness :
  ∃ after,
    teams (db (invoke Sample.healthy (Sample.ask (Some Sample.ana) "A")
                 (Sample.store [Sample.homeWin])).2) !! "A" = Some after
    ∧ Team.updatedAt after = 500
    ∧ sameOtherFields (Sample.mkTeam "A" "club1") after.
Proof.
  destruct (only_stats_and_updatedAt_written Sample.healthy
              (Sample.ask (Some Sample.ana) "A")
              (Sample.store [Sample.homeWin])
              (mkResponse true (statsFor "A" [Sample.homeWin]))
              (invoke Sample.healthy (Sample.ask (Some Sample.ana) "A")
                 (Sample.store [Sample.homeWin])).2)
    as (tid & before & after & Hd & Hb & Ha & _ & Hat & Hsame & _).
  { vm_compute. reflexivity. }
  injection Hd as <-.
  assert (Hb' : teams (Sample.store [Sample.homeWin]) !! "A"
                = Some (Sample.mkTeam "A" "club1")) by (vm_compute; reflexivity).
  rewrite Hb' in Hb. injection Hb as <-.
  exists after. split; [exact Ha|]. split; [exact Hat|exact Hsame].
Defined.

Lemma contribution_penalties tid m m' :
  samePenaltiesApart m m' → contribution tid m = contribution tid m'.
Proof.
  intros (_ & _ & Hh & Ha & _ & Hs & Hr & _).
  unfold contribution, processHome, processAway. rewrite Hh, Ha, Hs.
  destruct Hr as [r r' (Hhg & Hag & _)|]; [|done].
  by rewrite Hhg, Hag.
Qed.

(** C10. The penalty counts of a result never reach the statistics: two
    collections whose documents differ only in penalty counts give every
    team the same statistics and every request the same answer.  So a
    finished match with equal goals between two different teams counts as
    one draw and one point for each of them, whatever its penalty counts
    say about a winner. *)
Theorem penalties_never_count (ms ms' : list Match.t) :
  Forall2 samePenaltiesApart ms ms' →
  (∀ tid, statsFor tid ms = statsFor tid ms')
  ∧ (∀ env req T Mb,
       (invoke env req (mkStore T Mb ms)).1
       = (invoke env req (mkStore T Mb ms')).1)
  ∧ (∀ m r ms1 ms2 side,
       Match.status m = finished → Match.result m = Some r →
       homeGoals r = awayGoals r →
       Match.homeTeamId m ≠ Match.awayTeamId m →
       side = Match.homeTeamId m ∨ side = Match.awayTeamId m →
       let before := statsFor side (ms1 ++ ms2) in
       let after := statsFor side (ms1 ++ m :: ms2) in
       draws after = draws before + 1
       ∧ points after = points before + 1
       ∧ wins after = wins before
       ∧ losses after = losses before).
Proof.
  intros Hsame.
  assert (Hst : ∀ tid, statsFor tid ms = statsFor tid ms').
  { intros tid. rewrite !statsFor_tally. f_equal.
    induction Hsame as [|m m' ms ms' Hm _ IH]; [done|].
    by rewrite !tallyFor_cons, IH, (contribution_penalties tid m m'). }
  split; [done|]. split.
  - intros env req T Mb.
    by destruct (invoke_matches_only_through_stats env req T Mb _ _ Hst)
      as (? & _).
  - intros m r ms1 ms2 side Hfin Hres Heq Hne Hside. cbn zeta.
    rewrite !statsFor_tally, tallyFor_insert.
    assert (Hc : t_draws (contribution side m) = 1
                 ∧ t_wins (contribution side m) = 0
                 ∧ t_losses (contribution side m) = 0).
    { unfold contribution, processHome, processAway.
      rewrite Hfin, Hres, Heq, Z.gtb_ltb, Z.ltb_irrefl, Z.eqb_refl.
      destruct Hside as [-> | ->].
      - rewrite bool_decide_eq_true_2 by done.
        rewrite bool_decide_eq_false_2 by (intros [? _]; congruence).
        done.
      - rewrite bool_decide_eq_false_2 by (intros [? _]; congruence).
        rewrite bool_decide_eq_true_2 by done.
        done. }
    destruct Hc as (Hd & Hw & Hl).
    generalize dependent (contribution side m). intros c Hd Hw Hl.
    generalize (tallyFor side (ms1 ++ ms2)). intros t.
    simpl. lia.
Qed.

(** A 2-2 tie that the home team won 5-4 on penalties is a draw for both
    teams, with and without the penalty counts on record. *)
Lemma penalties_never_count_witness :
  draws (statsFor "A" [Sample.shootout]) = 1
  ∧ wins (statsFor "A" [Sample.shootout]) = 0
  ∧ statsFor "A" [Sample.shootout] = statsFor "A" [Sample.shootoutNoPens]
  ∧ statsFor "B" [Sample.shootout] = statsFor "B" [Sample.shootoutNoPens].
Proof.
  assert (Hsame : Forall2 samePenaltiesApart
                    [Sample.shootout] [Sample.shootoutNoPens]).
  { constructor; [|constructor].
    unfold samePenaltiesApart. simpl. repeat split.
    by constructor. }
  destruct (penalties_never_count _ _ Hsame) as (Hst & _).
  repeat split; try apply Hst; reflexivity.
Defined.

(* ===================================================================== *)
(** ** Further properties of the permission check and the guards *)
(* ===================================================================== *)

(** X1. For a club id and a user id that are document ids,
    [hasClubPermission] never throws and never writes: it issues the one
    membership read and answers true exactly when the store answers that
    read with a membership whose status is active.  A rejected read, a
    missing membership and any other status all answer false, and the
    required role plays no part in the answer. *)
Theorem hasClubPermission_answer env userId clubId requiredRole w :
  isDocId clubId = true → isDocId userId = true →
  ∃ b,
    hasClubPermission env userId clubId requiredRole w
    = (inr b, mkWorld (db w) (calls w ++ [MemberGet]))
    ∧ (b = true ↔ unavailable env MemberGet = false
                  ∧ isActiveMember (db w) clubId userId)
    ∧ ∀ otherRole,
        hasClubPermission env userId clubId otherRole w
        = hasClubPermission env userId clubId requiredRole w.
Proof.
  intros _ _.
  unfold hasClubPermission, getMembershipDoc, request_store, tryCatch, bind, ret,
    isActiveMember.
  destruct (unavailable env MemberGet) eqn:Hup; simpl.
  - exists false. split; [done|]. split; [|done].
    split; [done|]. by intros [? _].
  - destruct (members (db w) !! (clubId, userId)) as [mb|] eqn:Hmb; simpl.
    + exists (bool_decide (ClubMembership.status mb = active)).
      split; [done|]. split; [|done]. split.
      * intros Hb. apply bool_decide_eq_true in Hb. split; [done|]. by exists mb.
      * intros (_ & mb' & [= <-] & Hact). by apply bool_decide_eq_true.
    + exists false. split; [done|]. split; [|done].
      split; [done|]. by intros (_ & ? & ? & _).
Qed.

(** A user without a membership document is answered after the one
    read. *)
Lemma hasClubPermission_answer_witness :
  ∃ b,
    hasClubPermission Sample.healthy "bo" "club1" "member"
      (mkWorld (Sample.store []) [])
    = (inr b, mkWorld (Sample.store []) [MemberGet])
    ∧ (b = true ↔ unavailable Sample.healthy MemberGet = false
                  ∧ isActiveMember (Sample.store []) "club1" "bo")
    ∧ ∀ otherRole,
        hasClubPermission Sample.healthy "bo" "club1" otherRole
          (mkWorld (Sample.store []) [])
        = hasClubPermission Sample.healthy "bo" "club1" "member"
            (mkWorld (Sample.store []) []).
Proof.
  exact (hasClubPermission_answer Sample.healthy "bo" "club1" "member"
           (mkWorld (Sample.store []) []) eq_refl eq_refl).
Defined.

(** X2. On a request whose team id, when the payload has one, is a
    string that is empty or a document id, [calculateTeamStats] answers
    without asking the store exactly when the caller is not signed in or
    the payload names no team, and the guards apply in this order: an
    unauthenticated caller is told unauthenticated whatever the payload;
    a signed-in caller without any payload is told internal; one whose
    payload has no team id, or the empty string as team id, is told
    invalid-argument.  In every other case the team read is issued. *)
Theorem guards_before_store env req s :
  (∀ d t, data req = Some d → teamId d = Some t → t = "" ∨ isDocId t = true) →
  (calls (invoke env req s).2 = []
   ↔ auth req = None ∨ data req = None
     ∨ ∃ d, data req = Some d ∧ (teamId d = None ∨ teamId d = Some ""))
  ∧ (auth req = None →
     invoke env req s =
       (inl (ThrowHttps (mkHttpsError unauthenticated "Authentication required")),
        mkWorld s []))
  ∧ (is_Some (auth req) → data req = None →
     invoke env req s =
       (inl (ThrowHttps
               (mkHttpsError internal "Failed to calculate team stats")),
        mkWorld s []))
  ∧ (is_Some (auth req) →
     (∃ d, data req = Some d ∧ (teamId d = None ∨ teamId d = Some "")) →
     invoke env req s =
       (inl (ThrowHttps (mkHttpsError invalid_argument "Team ID is required")),
        mkWorld s [])).
Proof.
  intros _.
  split; [|split; [|split]].
  - unfold_fn.
    destruct (auth req) as [a|]; cbn; [|split; [by left|done]].
    destruct (data req) as [[[tid|]]|]; cbn.
    + destruct (bool_decide (tid = "")) eqn:Htid; cbn.
      * apply bool_decide_eq_true in Htid as ->.
        split; [|done]. intros _. right. right. eexists. split; [done|by right].
      * apply bool_decide_eq_false in Htid.
        split.
        -- destruct (unavailable env TeamGet); cbn; [done|].
           repeat match goal with
           | |- context [match ?x with _ => _ end] =>
               lazymatch x with
               | context [match _ with _ => _ end] => fail
               | _ => destruct x; cbn
               end
           end; done.
        -- intros [? | [? | (d & [= <-] & [? | [= ?]])]]; done.
    + split; [|done]. intros _. right. right. eexists. split; [done|by left].
    + split; [|done]. intros _. right. by left.
  - intros Ha. unfold_fn. by rewrite Ha.
  - intros [a Ha] Hd. unfold_fn. by rewrite Ha, Hd.
  - intros [a Ha] (d & Hd & [Ht | Ht]); unfold_fn; rewrite Ha, Hd; cbn;
      by rewrite Ht.
Qed.

(** A signed-in caller who sends the empty string as team id is told
    invalid-argument and the store is not asked. *)
Lemma guards_before_store_witness :
  invoke Sample.healthy (Sample.ask (Some Sample.ana) "") (Sample.store [])
  = (inl (ThrowHttps (mkHttpsError invalid_argument "Team ID is required")),
     mkWorld (Sample.store []) []).
Proof.
  destruct (guards_before_store Sample.healthy
              (Sample.ask (Some Sample.ana) "") (Sample.store []))
    as (_ & _ & _ & Hbad).
  - intros d t [= <-] [= <-]. by left.
  - apply Hbad.
    + by exists Sample.ana.
    + eexists. split; [reflexivity|]. by right.
Defined.



(* ===================================================================== *)
(** ** Further properties of the reducer *)
(* ===================================================================== *)

Lemma contribution_nothing tid m :
  (Match.status m = finished →
   Match.homeTeamId m = tid ∨ Match.awayTeamId m = tid →
   Match.result m = None) →
  contribution tid m = tally0.
Proof.
  intros Hm. unfold contribution, processHome, processAway.
  destruct (bool_decide (Match.homeTeamId m = tid ∧ _)) eqn:Hh.
  - apply bool_decide_eq_true in Hh as [Hh Hfin]. rewrite Hm by auto.
    by destruct (bool_decide _).
  - destruct (bool_decide (Match.awayTeamId m = tid ∧ _)) eqn:Ha; [|done].
    apply bool_decide_eq_true in Ha as [Ha Hfin]. by rewrite Hm by auto.
Qed.

(** X4. A team that no finished match with a result refers to, as home
    or as away team, gets all-zero statistics: in particular over an
    empty collection, and over a collection of other teams' matches. *)
Theorem no_counted_match_empty_stats tid (ms : list Match.t) :
  (∀ m, m ∈ ms → Match.status m = finished →
        Match.homeTeamId m = tid ∨ Match.awayTeamId m = tid →
        Match.result m = None) →
  statsFor tid ms = emptyStats.
Proof.
  intros Hms. rewrite statsFor_tally.
  assert (Ht : tallyFor tid ms = tally0); [|by rewrite Ht].
  induction ms as [|m ms IH]; [done|].
  rewrite tallyFor_cons, contribution_nothing, addTally_0_l.
  - apply IH. intros m' Hin. apply Hms. by right.
  - apply Hms. by left.
Qed.

Lemma no_counted_match_empty_stats_witness :
  statsFor "C" [Sample.homeWin; Sample.unreported "m9" "C" "A"] = emptyStats.
Proof.
  apply no_counted_match_empty_stats.
  intros m Hin Hfin Hside.
  apply elem_of_cons in Hin as [-> | Hin].
  - destruct Hside as [Hside | Hside]; discriminate Hside.
  - apply list_elem_of_singleton in Hin as ->. reflexivity.
Defined.

(** X5. A match counts for a team only if its status is finished and the
    team is its home or its away team: a scheduled, live, postponed or
    cancelled match changes nothing even when it carries a result, and
    neither does a match between two other teams. *)
Theorem only_own_finished_matches_count tid (m : Match.t) ms1 ms2 :
  Match.status m ≠ finished
  ∨ (Match.homeTeamId m ≠ tid ∧ Match.awayTeamId m ≠ tid) →
  statsFor tid (ms1 ++ m :: ms2) = statsFor tid (ms1 ++ ms2).
Proof.
  intros Hm. rewrite !statsFor_tally, tallyFor_insert.
  rewrite contribution_nothing, addTally_0_l; [done|].
  intros Hfin Hside. destruct Hm as [Hst | [Hh Ha]]; [done|].
  by destruct Hside.
Qed.

Lemma only_own_finished_matches_count_witness :
  statsFor "A"
    [Sample.homeWin;
     Match.mk "m7" "club1" "A" "B" 300 live
              (Some (mkMatchResult 0 4 None None None)) 300 300 1]
  = statsFor "A" [Sample.homeWin].
Proof.
  apply (only_own_finished_matches_count "A"
           (Match.mk "m7" "club1" "A" "B" 300 live
                     (Some (mkMatchResult 0 4 None None None)) 300 300 1)
           [Sample.homeWin] []).
  left. discriminate.
Defined.

(** X6. In a collection within the safe range of the number type
    ([safeGoals]), where the doubles the loops compute are the integers
    of the statistics, a finished match that names the same team as home
    and as away team is returned by both queries and counted twice for
    that team: two matches played, its goals added on both sides, and
    either two draws or one win and one loss. *)
Theorem self_match_counted_twice tid (m : Match.t) r ms1 ms2 :
  safeGoals (ms1 ++ m :: ms2) = true →
  Match.homeTeamId m = tid → Match.awayTeamId m = tid →
  Match.status m = finished → Match.result m = Some r →
  let before := statsFor tid (ms1 ++ ms2) in
  let after := statsFor tid (ms1 ++ m :: ms2) in
  let decided := if level r then 0 else 1 in
  Js.statsFor tid (ms1 ++ ms2) = toJsStats before
  ∧ Js.statsFor tid (ms1 ++ m :: ms2) = toJsStats after
  ∧ matchesPlayed after = matchesPlayed before + 2
  ∧ wins after = wins before + decided
  ∧ losses after = losses before + decided
  ∧ draws after = draws before + (if level r then 2 else 0)
  ∧ goalsFor after = goalsFor before + homeGoals r + awayGoals r
  ∧ goalsAgainst after = goalsAgainst before + homeGoals r + awayGoals r.
Proof.
  intros Hsafe Hh Ha Hfin Hres. cbn zeta.
  split; [apply statsFor_on_doubles; by apply (safeGoals_drop ms1 m ms2)|].
  split; [by apply statsFor_on_doubles|].
  rewrite !statsFor_tally, tallyFor_insert.
  unfold contribution, processHome, processAway, level.
  rewrite Hh, Ha, Hfin, Hres.
  rewrite bool_decide_eq_true_2 by done.
  generalize (tallyFor tid (ms1 ++ ms2)). intros t.
  destruct (Z.gtb_spec (homeGoals r) (awayGoals r));
    destruct (Z.gtb_spec (awayGoals r) (homeGoals r));
    destruct (Z.eqb_spec (homeGoals r) (awayGoals r));
    destruct (Z.eqb_spec (awayGoals r) (homeGoals r));
    simpl; lia.
Qed.

Lemma self_match_counted_twice_witness :
  matchesPlayed (statsFor "A" [Sample.played "m8" "A" "A" 2 1]) = 2
  ∧ wins (statsFor "A" [Sample.played "m8" "A" "A" 2 1]) = 1
  ∧ losses (statsFor "A" [Sample.played "m8" "A" "A" 2 1]) = 1.
Proof.
  destruct (self_match_counted_twice "A" (Sample.played "m8" "A" "A" 2 1)
              (mkMatchResult 2 1 None None None) [] []
              eq_refl eq_refl eq_refl eq_refl eq_refl)
    as (_ & _ & Hmp & Hw & Hl & _).
  split; [exact Hmp|]. split; [exact Hw|exact Hl].
Defined.

Lemma processHome_outcome m r :
  Match.result m = Some r →
  let d := processHome tally0 m in
  t_wins d = (if homeWon r then 1 else 0)
  ∧ t_draws d = (if level r then 1 else 0)
  ∧ t_losses d = (if awayWon r then 1 else 0)
  ∧ t_goalsFor d = homeGoals r ∧ t_goalsAgainst d = awayGoals r.
Proof.
  intros Hres. unfold processHome, homeWon, awayWon, level. rewrite Hres.
  destruct (Z.gtb_spec (homeGoals r) (awayGoals r));
    destruct (Z.gtb_spec (awayGoals r) (homeGoals r));
    destruct (Z.eqb_spec (homeGoals r) (awayGoals r));
    simpl; repeat split; lia.
Qed.

Lemma processAway_outcome m r :
  Match.result m = Some r →
  let d := processAway tally0 m in
  t_wins d = (if awayWon r then 1 else 0)
  ∧ t_draws d = (if level r then 1 else 0)
  ∧ t_losses d = (if homeWon r then 1 else 0)
  ∧ t_goalsFor d = awayGoals r ∧ t_goalsAgainst d = homeGoals r.
Proof.
  intros Hres. unfold processAway, homeWon, awayWon, level. rewrite Hres.
  destruct (Z.gtb_spec (homeGoals r) (awayGoals r));
    destruct (Z.gtb_spec (awayGoals r) (homeGoals r));
    destruct (Z.eqb_spec (homeGoals r) (awayGoals r));
    destruct (Z.eqb_spec (awayGoals r) (homeGoals r));
    simpl; repeat split; lia.
Qed.

Lemma homeLoop_outcomes docs :
  let t := fold_left processHome docs tally0 in
  t_wins t = countIf homeWon (counted docs)
  ∧ t_draws t = countIf level (counted docs)
  ∧ t_losses t = countIf awayWon (counted docs).
Proof.
  induction docs as [|m docs IH]; [done|].
  simpl. rewrite (fold_add processHome processHome_add).
  destruct IH as (IH1 & IH2 & IH3). unfold counted, countIf in *. simpl.
  destruct (Match.result m) as [r|] eqn:Hres; simpl.
  - destruct (processHome_outcome m r Hres) as (H1 & H2 & H3 & _). lia.
  - pose proof (processHome_delta m) as Hd. rewrite Hres in Hd.
    simpl in Hd. rewrite Hd. simpl. lia.
Qed.

Lemma awayLoop_outcomes docs :
  let t := fold_left processAway docs tally0 in
  t_wins t = countIf awayWon (counted docs)
  ∧ t_draws t = countIf level (counted docs)
  ∧ t_losses t = countIf homeWon (counted docs).
Proof.
  induction docs as [|m docs IH]; [done|].
  simpl. rewrite (fold_add processAway processAway_add).
  destruct IH as (IH1 & IH2 & IH3). unfold counted, countIf in *. simpl.
  destruct (Match.result m) as [r|] eqn:Hres; simpl.
  - destruct (processAway_outcome m r Hres) as (H1 & H2 & H3 & _). lia.
  - pose proof (processAway_delta m) as Hd. rewrite Hres in Hd.
    simpl in Hd. rewrite Hd. simpl. lia.
Qed.

(** X7. Over a collection within the safe range of the number type
    ([safeGoals]), where the doubles the loops compute are the integers
    of the statistics, the outcome counters are the numbers of counted
    matches of each outcome: wins are the home matches the home side won
    plus the away matches the away side won, losses the other way round,
    and draws the matches with equal goals in either snapshot. *)
Theorem outcome_counts tid (ms : list Match.t) :
  safeGoals ms = true →
  let st := statsFor tid ms in
  let home := counted (finishedFor Match.homeTeamId tid ms) in
  let away := counted (finishedFor Match.awayTeamId tid ms) in
  Js.statsFor tid ms = toJsStats st
  ∧ wins st = countIf homeWon home + countIf awayWon away
  ∧ draws st = countIf level home + countIf level away
  ∧ losses st = countIf awayWon home + countIf homeWon away.
Proof.
  intros Hsafe. cbn zeta. split; [by apply statsFor_on_doubles|].
  unfold statsFor, aggregate. rewrite runLoops_add.
  destruct (homeLoop_outcomes (finishedFor Match.homeTeamId tid ms))
    as (Hh1 & Hh2 & Hh3).
  destruct (awayLoop_outcomes (finishedFor Match.awayTeamId tid ms))
    as (Ha1 & Ha2 & Ha3).
  cbn zeta in *. unfold buildStats, addTally. simpl. lia.
Qed.

(** Team A over a home win, an away loss and a drawn away match. *)
Lemma outcome_counts_witness :
  let ms := [Sample.homeWin; Sample.awayLoss; Sample.shootout] in
  let st := statsFor "A" ms in
  let home := counted (finishedFor Match.homeTeamId "A" ms) in
  let away := counted (finishedFor Match.awayTeamId "A" ms) in
  Js.statsFor "A" ms = toJsStats st
  ∧ wins st = countIf homeWon home + countIf awayWon away
  ∧ draws st = countIf level home + countIf level away
  ∧ losses st = countIf awayWon home + countIf homeWon away.
Proof.
  exact (outcome_counts "A"
           [Sample.homeWin; Sample.awayLoss; Sample.shootout] eq_refl).
Defined.

Lemma contribution_bounds tid m :
  let c := contribution tid m in
  0 ≤ t_wins c ∧ 0 ≤ t_draws c ∧ 0 ≤ t_losses c
  ∧ ((∀ r, Match.result m = Some r → 0 ≤ homeGoals r ∧ 0 ≤ awayGoals r) →
     0 ≤ t_goalsFor c ∧ 0 ≤ t_goalsAgainst c
     ∧ t_wins c ≤ t_goalsFor c ∧ t_losses c ≤ t_goalsAgainst c).
Proof.
  unfold contribution.
  destruct (Match.result m) as [r|] eqn:Hres.
  - destruct (processHome_outcome m r Hres) as (H1 & H2 & H3 & H4 & H5).
    destruct (processAway_outcome m r Hres) as (A1 & A2 & A3 & A4 & A5).
    cbn zeta in *.
    assert (Hgoals : (0 ≤ homeGoals r ∧ 0 ≤ awayGoals r) →
                     (if homeWon r then 1 else 0) ≤ homeGoals r
                     ∧ (if awayWon r then 1 else 0) ≤ awayGoals r).
    { unfold homeWon, awayWon.
      destruct (Z.gtb_spec (homeGoals r) (awayGoals r));
        destruct (Z.gtb_spec (awayGoals r) (homeGoals r)); lia. }
    assert (Hbits : 0 ≤ (if homeWon r then 1 else 0)
                    ∧ 0 ≤ (if awayWon r then 1 else 0)
                    ∧ 0 ≤ (if level r then 1 else 0)).
    { destruct (homeWon r), (awayWon r), (level r); lia. }
    destruct (bool_decide (Match.homeTeamId m = tid ∧ _));
      destruct (bool_decide (Match.awayTeamId m = tid ∧ _)); simpl;
      (split; [lia|]; split; [lia|]; split; [lia|];
       intros Hnn; specialize (Hnn r eq_refl); specialize (Hgoals Hnn); lia).
  - pose proof (processHome_delta m) as Hh. pose proof (processAway_delta m) as Ha.
    rewrite Hres in Hh, Ha. cbn zeta in *. rewrite Hh, Ha.
    destruct (bool_decide (Match.homeTeamId m = tid ∧ _));
      destruct (bool_decide (Match.awayTeamId m = tid ∧ _)); simpl; lia.
Qed.

(** X8. The counters never go negative and the points lie between the
    number of draws and three times the matches played, whatever the
    results are: on the integer counters, and on the doubles the code
    computes for a collection small enough for the counters to stay
    within the safe range of the number type (six times its size at most
    [MAX_SAFE_INTEGER]), which are then integers.  Over a collection
    whose goal counts are within the safe range as well ([safeGoals]:
    non-negative integers that add up to at most [MAX_SAFE_INTEGER]),
    where the doubles the loops compute are the integers of the
    statistics, the goal totals are not negative either, and a team has
    at least as many goals for as wins and at least as many goals
    against as losses. *)
Theorem stats_bounds tid (ms : list Match.t) :
  let st := statsFor tid ms in
  (0 ≤ wins st ∧ 0 ≤ draws st ∧ 0 ≤ losses st
   ∧ draws st ≤ points st ≤ 3 * matchesPlayed st)
  ∧ (6 * Z.of_nat (length ms) ≤ MAX_SAFE_INTEGER →
     ∃ mp w d l p,
       Js.counts (Js.statsFor tid ms)
       = (Js.ofZ mp, Js.ofZ w, Js.ofZ d, Js.ofZ l, Js.ofZ p)
       ∧ 0 ≤ w ∧ 0 ≤ d ∧ 0 ≤ l ∧ d ≤ p ≤ 3 * mp)
  ∧ (safeGoals ms = true →
     Js.statsFor tid ms = toJsStats st
     ∧ 0 ≤ goalsFor st ∧ 0 ≤ goalsAgainst st
     ∧ wins st ≤ goalsFor st ∧ losses st ≤ goalsAgainst st).
Proof.
  cbn zeta. split; [|split].
  - rewrite statsFor_tally.
    assert (Ht : 0 ≤ t_wins (tallyFor tid ms) ∧ 0 ≤ t_draws (tallyFor tid ms)
                 ∧ 0 ≤ t_losses (tallyFor tid ms)).
    { induction ms as [|m ms IH]; [rewrite tallyFor_nil; simpl; lia|].
      rewrite tallyFor_cons.
      destruct (contribution_bounds tid m) as (C1 & C2 & C3 & _).
      cbn zeta in *.
      set (c := contribution tid m) in *. set (t := tallyFor tid ms) in *.
      clearbody c t. simpl. lia. }
    set (t := tallyFor tid ms) in *. clearbody t. simpl. lia.
  - intros Hlen.
    destruct (Js_counts_integers tid ms Hlen)
      as (w & d & l & (Hw & Hd & Hl) & _ & Hc).
    exists (w + d + l), w, d, l, (3 * w + d). split; [done|]. lia.
  - intros Hsafe. split; [by apply statsFor_on_doubles|].
    apply safeGoals_spec in Hsafe as [Hnn _].
    rewrite statsFor_tally.
    assert (Ht : 0 ≤ t_goalsFor (tallyFor tid ms)
                 ∧ 0 ≤ t_goalsAgainst (tallyFor tid ms)
                 ∧ t_wins (tallyFor tid ms) ≤ t_goalsFor (tallyFor tid ms)
                 ∧ t_losses (tallyFor tid ms) ≤ t_goalsAgainst (tallyFor tid ms)).
    { induction ms as [|m ms IH]; [rewrite tallyFor_nil; simpl; lia|].
      rewrite tallyFor_cons.
      destruct IH as (I4 & I5 & I6 & I7).
      { intros m' r Hin. apply Hnn. by right. }
      destruct (contribution_bounds tid m) as (_ & _ & _ & C4).
      destruct C4 as (C4 & C5 & C6 & C7).
      { intros r. apply Hnn. by left. }
      cbn zeta in *.
      set (c := contribution tid m) in *. set (t := tallyFor tid ms) in *.
      clearbody c t. simpl. lia. }
    set (t := tallyFor tid ms) in *. clearbody t. simpl. lia.
Qed.

Lemma stats_bounds_witness :
  let st := statsFor "A" [Sample.homeWin; Sample.awayLoss] in
  Js.statsFor "A" [Sample.homeWin; Sample.awayLoss] = toJsStats st
  ∧ 0 ≤ goalsFor st ∧ 0 ≤ goalsAgainst st
  ∧ wins st ≤ goalsFor st ∧ losses st ≤ goalsAgainst st.
Proof.
  exact (proj2 (proj2 (stats_bounds "A" [Sample.homeWin; Sample.awayLoss]))
               eq_refl).
Defined.

Lemma swapTally_add a b :
  swapTally (addTally a b) = addTally (swapTally a) (swapTally b).
Proof. tally. Qed.

Lemma contribution_swap A B m :
  A ≠ B →
  (Match.homeTeamId m = A ∧ Match.awayTeamId m = B)
  ∨ (Match.homeTeamId m = B ∧ Match.awayTeamId m = A) →
  contribution B m = swapTally (contribution A m).
Proof.
  intros Hne Hsides. unfold contribution.
  destruct (decide (Match.status m = finished)) as [Hfin|Hfin].
  - destruct (Match.result m) as [r|] eqn:Hres.
    + destruct (processHome_outcome m r Hres) as (H1 & H2 & H3 & H4 & H5).
      destruct (processAway_outcome m r Hres) as (A1 & A2 & A3 & A4 & A5).
      cbn zeta in *.
      destruct Hsides as [[Hh Ha] | [Hh Ha]]; rewrite Hh, Ha.
      * rewrite (bool_decide_eq_false_2 (A = B ∧ _)) by (by intros [? _]).
        rewrite (bool_decide_eq_false_2 (B = A ∧ _)) by (by intros [? _]).
        rewrite !bool_decide_eq_true_2 by done.
        apply tally_eq; simpl; lia.
      * rewrite (bool_decide_eq_false_2 (A = B ∧ _)) by (by intros [? _]).
        rewrite (bool_decide_eq_false_2 (B = A ∧ _)) by (by intros [? _]).
        rewrite !bool_decide_eq_true_2 by done.
        apply tally_eq; simpl; lia.
    + pose proof (processHome_delta m) as Hh.
      pose proof (processAway_delta m) as Ha.
      rewrite Hres in Hh, Ha. cbn zeta in *. rewrite Hh, Ha.
      by repeat destruct (bool_decide _).
  - rewrite !bool_decide_eq_false_2 by (by intros [_ ?]). done.
Qed.

(** X9. Over a collection within the safe range of the number type
    ([safeGoals]), where the doubles the loops compute are the integers
    of the statistics, that holds matches played between two different
    teams only, the two teams' statistics mirror each other: the wins of
    one are the losses of the other, their draws and matches played
    agree, and the goals for of one are the goals against of the other. *)
Theorem head_to_head_mirror A B (ms : list Match.t) :
  safeGoals ms = true →
  A ≠ B →
  (∀ m, m ∈ ms →
        (Match.homeTeamId m = A ∧ Match.awayTeamId m = B)
        ∨ (Match.homeTeamId m = B ∧ Match.awayTeamId m = A)) →
  Js.statsFor A ms = toJsStats (statsFor A ms)
  ∧ Js.statsFor B ms = toJsStats (statsFor B ms)
  ∧ wins (statsFor B ms) = losses (statsFor A ms)
  ∧ losses (statsFor B ms) = wins (statsFor A ms)
  ∧ draws (statsFor B ms) = draws (statsFor A ms)
  ∧ matchesPlayed (statsFor B ms) = matchesPlayed (statsFor A ms)
  ∧ goalsFor (statsFor B ms) = goalsAgainst (statsFor A ms)
  ∧ goalsAgainst (statsFor B ms) = goalsFor (statsFor A ms).
Proof.
  intros Hsafe Hne Hms.
  split; [by apply statsFor_on_doubles|].
  split; [by apply statsFor_on_doubles|].
  rewrite !statsFor_tally.
  assert (Ht : tallyFor B ms = swapTally (tallyFor A ms)).
  { clear Hsafe. induction ms as [|m ms IH]; [done|].
    rewrite !tallyFor_cons, swapTally_add, IH.
    - f_equal. apply contribution_swap; [done|]. apply Hms. by left.
    - intros m' Hin. apply Hms. by right. }
  rewrite Ht. generalize (tallyFor A ms). intros t. simpl. lia.
Qed.

Lemma head_to_head_mirror_witness :
  wins (statsFor "B" [Sample.homeWin; Sample.awayLoss])
  = losses (statsFor "A" [Sample.homeWin; Sample.awayLoss])
  ∧ goalsFor (statsFor "B" [Sample.homeWin; Sample.awayLoss])
    = goalsAgainst (statsFor "A" [Sample.homeWin; Sample.awayLoss]).
Proof.
  assert (Hne : "A" ≠ "B") by discriminate.
  destruct (head_to_head_mirror "A" "B" [Sample.homeWin; Sample.awayLoss]
              eq_refl Hne)
    as (_ & _ & Hw & _ & _ & _ & Hg & _).
  - intros m Hin. apply elem_of_cons in Hin as [-> | Hin].
    + left. split; reflexivity.
    + apply list_elem_of_singleton in Hin as ->. right. split; reflexivity.
  - split; [exact Hw|exact Hg].
Defined.

Lemma setStats_withStats t old st at_ :
  setStats (withStats t old) st at_ = setStats t st at_.
Proof. done. Qed.

(** X10. The statistics are recomputed from the matches, not updated
    from what is stored: whatever statistics the team document held
    before, the run gives the same answer, and a successful run leaves
    the same store behind. *)
Theorem stored_stats_overwritten env req s tid team old :
  data req = Some (mkRequestData (Some tid)) →
  teams s !! tid = Some team →
  let s' := mkStore (<[tid := withStats team old]> (teams s))
                    (members s) (matches s) in
  (invoke env req s').1 = (invoke env req s).1
  ∧ (∀ resp w, invoke env req s = (inr resp, w) →
               invoke env req s' = (inr resp, w)).
Proof.
  intros Hd Ht. cbn zeta. split.
  - unfold_fn. rewrite Hd. cbn -[lookup insert].
    destruct (auth req) as [a|]; cbn -[lookup insert]; [|done].
    destruct (bool_decide (tid = "")); cbn -[lookup insert]; [done|].
    destruct (unavailable env TeamGet); cbn -[lookup insert]; [done|].
    repeat first [ rewrite lookup_insert_eq; cbn -[lookup insert]
                 | rewrite Ht; cbn -[lookup insert]
                 | match goal with
                   | |- context [match ?x with _ => _ end] =>
                       lazymatch x with
                       | context [match _ with _ => _ end] => fail
                       | _ => destruct x eqn:?; cbn -[lookup insert]
                       end
                   end ];
      done.
  - intros resp w Hrun.
    apply invoke_ok_inv in Hrun
      as (a & tid' & team' & Ha & Hd' & Hne & Ht' & (mb & Hmb & Hact) & Hup & -> & ->).
    rewrite Hd in Hd'. injection Hd' as <-.
    rewrite Ht in Ht'. injection Ht' as <-.
    rewrite (invoke_ok_intro env req _ a tid (withStats team old)); try done.
    + unfold storeAfter. simpl. by rewrite setStats_withStats, insert_insert_eq.
    + simpl. by rewrite lookup_insert_eq.
    + exists mb. by split.
Qed.

Lemma stored_stats_overwritten_witness :
  (invoke Sample.healthy (Sample.ask (Some Sample.ana) "A")
     (mkStore (<["A" := withStats (Sample.mkTeam "A" "club1")
                          (mkTeamStats 9 9 0 0 40 2 27 (mkStreakInfo win 9))]>
                 (teams (Sample.store [Sample.homeWin])))
              (members (Sample.store [Sample.homeWin]))
              (matches (Sample.store [Sample.homeWin])))).1
  = (invoke Sample.healthy (Sample.ask (Some Sample.ana) "A")
       (Sample.store [Sample.homeWin])).1.
Proof.
  refine (proj1 (stored_stats_overwritten Sample.healthy
                   (Sample.ask (Some Sample.ana) "A")
                   (Sample.store [Sample.homeWin]) "A"
                   (Sample.mkTeam "A" "club1")
                   (mkTeamStats 9 9 0 0 40 2 27 (mkStreakInfo win 9))
                   eq_refl _)).
  vm_compute. reflexivity.
Defined.

(* ===================================================================== *)
(** ** joinClub *)
(* ===================================================================== *)

Ltac unfold_club :=
  unfold authContext, getAuthContext, parse, getClubDoc, getMemberDoc,
    setMemberDoc, incrementClubStat, Fn.tryCatch, Fn.bind, Fn.ret, Fn.throw,
    Fn.ask, Fn.read, Fn.write, ret, throw in *.

Lemma joinClubSchema_Some d p :
  joinClubSchema d = Some p ↔
  ∃ c r, d = Some (RawJoin.mk (Str c) (Str r)) ∧ r ∈ joinableRoles
         ∧ p = JoinData.mk c r.
Proof.
  unfold joinClubSchema, joinableRoles. split.
  - destruct d as [[[ |c| ] [ |r| ]]|]; try done.
    case_bool_decide; [|done]. intros [= <-]. by exists c, r.
  - intros (c & r & -> & Hr & ->). by rewrite bool_decide_eq_true_2.
Qed.

(** A join succeeds only along the one path that passes every check and
    both writes. *)
Lemma joinClub_ok_inv h req w resp w' :
  joinClub h req w = (inr resp, w') →
  ∃ a c r club,
    caller req = Some a
    ∧ payload req = Some (RawJoin.mk (Str c) (Str r)) ∧ r ∈ joinableRoles
    ∧ clubs (dbOf w) !! c = Some club
    ∧ Settings.allowRegistration (Club.settings club) = true
    ∧ memberDocs (dbOf w) !! (c, uid a) = None
    ∧ hasFieldValue h = true
    ∧ resp = mkJoinResponse true
               (if Settings.requireApproval (Club.settings club)
                then pending else active)
               (Settings.requireApproval (Club.settings club))
    ∧ w' = mkSys (joinedDb h (dbOf w) c (uid a) club)
                 (asked w ++ [AskClub c; AskMember c (uid a);
                              PutMember c (uid a); PatchClub c]).
Proof.
  unfold joinClub. unfold_club.
  destruct (caller req) as [a|] eqn:Ha; cbn; [|done].
  destruct (joinClubSchema (payload req)) as [p|] eqn:Hp; cbn; [|done].
  apply joinClubSchema_Some in Hp as (c & r & Hpay & Hr & ->). cbn.
  destruct (rejects h (AskClub c)); cbn; [done|].
  destruct (clubs (dbOf w) !! c) as [club|] eqn:Hc; cbn; [|done].
  destruct (Settings.allowRegistration (Club.settings club)) eqn:Hopen;
    cbn; [|done].
  destruct (rejects h (AskMember c (uid a))); cbn; [done|].
  destruct (memberDocs (dbOf w) !! (c, uid a)) eqn:Hm; cbn; [done|].
  destruct (rejects h (PutMember c (uid a))); cbn; [done|].
  destruct (hasFieldValue h) eqn:Hfv; cbn; [|done].
  destruct (rejects h (PatchClub c)); cbn; [done|].
  rewrite Hc. cbn. intros [= <- <-].
  exists a, c, r, club. repeat split; try done.
  unfold joinedDb, joinedMember. by rewrite <- !app_assoc.
Qed.


Lemma joinClub_already_member h req w a c r club existing :
  caller req = Some a →
  payload req = Some (RawJoin.mk (Str c) (Str r)) → r ∈ joinableRoles →
  rejects h (AskClub c) = false → rejects h (AskMember c (uid a)) = false →
  clubs (dbOf w) !! c = Some club →
  Settings.allowRegistration (Club.settings club) = true →
  memberDocs (dbOf w) !! (c, uid a) = Some existing →
  joinClub h req w =
    (inl (RaisedHttps
            (mkHttpsError already_exists "Already a member of this club")),
     mkSys (dbOf w) (asked w ++ [AskClub c; AskMember c (uid a)])).
Proof.
  intros Ha Hpay Hr Hq1 Hq2 Hc Hopen Hm.
  assert (Hp : joinClubSchema (payload req) = Some (JoinData.mk c r)).
  { apply joinClubSchema_Some. by exists c, r. }
  unfold joinClub. unfold_club. rewrite Ha. cbn. rewrite Hp. cbn.
  rewrite Hq1. cbn. rewrite Hc. cbn. rewrite Hopen. cbn.
  rewrite Hq2. cbn. rewrite Hm. cbn. by rewrite <- app_assoc.
Qed.



(** X12. With a well-formed request whose club id is a document id, a
    caller whose uid is one, and a store that answers, [joinClub]
    refuses in this order: not-found when the club does not exist,
    permission-denied when the club does not allow registration, and
    already-exists when the caller has a membership document of the club,
    whatever its status.  None of the three writes anything, and the
    membership is not even read in the first two. *)
Theorem joinClub_refusals h req w a c r :
  caller req = Some a →
  payload req = Some (RawJoin.mk (Str c) (Str r)) → r ∈ joinableRoles →
  isDocId c = true → isDocId (uid a) = true →
  rejects h (AskClub c) = false → rejects h (AskMember c (uid a)) = false →
  match clubs (dbOf w) !! c with
  | None =>
      joinClub h req w =
        (inl (RaisedHttps (mkHttpsError not_found "Club not found")),
         mkSys (dbOf w) (asked w ++ [AskClub c]))
  | Some club =>
      if Settings.allowRegistration (Club.settings club) then
        ∀ existing, memberDocs (dbOf w) !! (c, uid a) = Some existing →
          joinClub h req w =
            (inl (RaisedHttps
                    (mkHttpsError already_exists "Already a member of this club")),
             mkSys (dbOf w) (asked w ++ [AskClub c; AskMember c (uid a)]))
      else
        joinClub h req w =
          (inl (RaisedHttps
                  (mkHttpsError permission_denied "Club registration is closed")),
           mkSys (dbOf w) (asked w ++ [AskClub c]))
  end.
Proof.
  intros Ha Hpay Hr _ _ Hq1 Hq2.
  assert (Hp : joinClubSchema (payload req) = Some (JoinData.mk c r)).
  { apply joinClubSchema_Some. by exists c, r. }
  unfold joinClub. unfold_club. rewrite Ha. cbn. rewrite Hp. cbn.
  rewrite Hq1. cbn.
  destruct (clubs (dbOf w) !! c) as [club|]; cbn; [|done].
  destruct (Settings.allowRegistration (Club.settings club)); cbn; [|done].
  intros existing Hm. rewrite Hq2. cbn. rewrite Hm. cbn.
  by rewrite <- app_assoc.
Qed.

Lemma joinClub_refusals_witness :
  joinClub ClubSample.host (ClubSample.join (Some Sample.ana) "club1" "coach")
    (mkSys (ClubSample.db false) [])
  = (inl (RaisedHttps
            (mkHttpsError already_exists "Already a member of this club")),
     mkSys (ClubSample.db false) [AskClub "club1"; AskMember "club1" "ana"]).
Proof.
  assert (Hr : "coach" ∈ joinableRoles) by compute_done.
  pose proof (joinClub_refusals ClubSample.host
                (ClubSample.join (Some Sample.ana) "club1" "coach")
                (mkSys (ClubSample.db false) []) Sample.ana "club1" "coach"
                eq_refl eq_refl Hr eq_refl eq_refl eq_refl eq_refl) as H.
  assert (Hc : clubs (dbOf (mkSys (ClubSample.db false) [])) !! "club1"
               = Some (ClubSample.fcOpen false)) by reflexivity.
  rewrite Hc in H. simpl Settings.allowRegistration in H. cbv iota in H.
  apply (H ClubSample.anaDoc). reflexivity.
Defined.

(** X13. A request whose payload is not an object with a string [clubId]
    and a [role] among player, coach, parent and supporter is answered
    invalid-argument before the store is asked anything; the roles admin
    and manager cannot be asked for. *)
Theorem joinClub_validation h req w a :
  caller req = Some a →
  (∀ c r, payload req = Some (RawJoin.mk (Str c) (Str r)) →
          r ∉ joinableRoles) →
  joinClub h req w =
    (inl (RaisedHttps (mkHttpsError invalid_argument "Validation failed")), w).
Proof.
  intros Ha Hbad.
  assert (Hp : joinClubSchema (payload req) = None).
  { destruct (joinClubSchema (payload req)) as [p|] eqn:Hp; [|done].
    apply joinClubSchema_Some in Hp as (c & r & Hpay & Hr & _).
    by destruct (Hbad c r Hpay). }
  unfold joinClub. unfold_club. rewrite Ha. cbn. rewrite Hp. done.
Qed.

Lemma joinClub_validation_witness :
  joinClub ClubSample.host (ClubSample.join (Some ClubSample.bo) "club1" "admin")
    (mkSys (ClubSample.db false) [])
  = (inl (RaisedHttps (mkHttpsError invalid_argument "Validation failed")),
     mkSys (ClubSample.db false) []).
Proof.
  apply (joinClub_validation ClubSample.host
           (ClubSample.join (Some ClubSample.bo) "club1" "admin")
           (mkSys (ClubSample.db false) []) ClubSample.bo eq_refl).
  intros c r [= <- <-]. compute_done.
Defined.

(** X14. However [joinClub] fails, the caller gets an [HttpsError], and
    no club document, no user document and no existing member document
    is changed.  Unless the error is internal the whole store is
    unchanged; an internal error may leave one thing behind, a member
    document that was not there before. *)
Theorem joinClub_failure_modes h req w e w' :
  joinClub h req w = (inl e, w') →
  ∃ he, e = RaisedHttps he
        ∧ clubs (dbOf w') = clubs (dbOf w)
        ∧ users (dbOf w') = users (dbOf w)
        ∧ (∀ k m, memberDocs (dbOf w) !! k = Some m →
                  memberDocs (dbOf w') !! k = Some m)
        ∧ (code he ≠ internal → dbOf w' = dbOf w).
Proof.
  unfold joinClub. unfold_club. intros Hrun.
  destruct w as [[cl mb us] log]. cbn -[lookup insert] in Hrun.
  repeat match type of Hrun with
  | context [match ?x with _ => _ end] =>
      lazymatch x with
      | context [match _ with _ => _ end] => fail
      | _ => destruct x eqn:?; cbn -[lookup insert] in Hrun; try discriminate Hrun
      end
  end.
  all: injection Hrun as <- <-; eexists; split; [reflexivity|]; cbn -[lookup insert].
  all: repeat split; try done.
  all: intros k m Hk; rewrite lookup_insert_ne; [done|]; congruence.
Qed.

Lemma joinClub_failure_modes_witness :
  dbOf (joinClub ClubSample.host
          (ClubSample.join (Some ClubSample.bo) "club2" "player")
          (mkSys (ClubSample.db true) [])).2
  = ClubSample.db true.
Proof.
  destruct (joinClub_failure_modes ClubSample.host
              (ClubSample.join (Some ClubSample.bo) "club2" "player")
              (mkSys (ClubSample.db true) [])
              (RaisedHttps
                 (mkHttpsError permission_denied "Club registration is closed"))
              (joinClub ClubSample.host
                 (ClubSample.join (Some ClubSample.bo) "club2" "player")
                 (mkSys (ClubSample.db true) [])).2 eq_refl)
    as (he & [= <-] & _ & _ & _ & Hsame).
  apply Hsame. discriminate.
Defined.



Lemma joinClub_ok_answered h req w resp w' a c r :
  joinClub h req w = (inr resp, w') →
  caller req = Some a →
  payload req = Some (RawJoin.mk (Str c) (Str r)) →
  rejects h (AskClub c) = false ∧ rejects h (AskMember c (uid a)) = false.
Proof.
  intros Hrun Ha Hpay.
  unfold joinClub in Hrun. unfold_club. rewrite Ha in Hrun. cbn in Hrun.
  destruct (joinClubSchema (payload req)) as [p|] eqn:Hp; cbn in Hrun; [|done].
  apply joinClubSchema_Some in Hp as (c' & r' & Hpay' & _ & ->).
  rewrite Hpay in Hpay'. injection Hpay' as <- <-. cbn in Hrun.
  destruct (rejects h (AskClub c)); cbn in Hrun; [done|].
  destruct (clubs (dbOf w) !! c) as [club|]; cbn in Hrun; [|done].
  destruct (Settings.allowRegistration (Club.settings club)); cbn in Hrun; [|done].
  by destruct (rejects h (AskMember c (uid a))).
Qed.

(** X16. Joining twice counts once: after a successful join, the same
    request is answered already-exists and changes nothing, so the
    member count has gone up by exactly one. *)
Theorem joinClub_twice h req w resp w' :
  joinClub h req w = (inr resp, w') →
  ∃ log,
    joinClub h req w' =
      (inl (RaisedHttps
              (mkHttpsError already_exists "Already a member of this club")),
       mkSys (dbOf w') log).
Proof.
  intros Hrun.
  pose proof Hrun as Hinv.
  apply joinClub_ok_inv in Hinv
    as (a & c & r & club & Ha & Hpay & Hr & Hc & Hopen & Hm & Hfv & _ & ->).
  destruct (joinClub_ok_answered h req w resp _ a c r Hrun Ha Hpay) as [Hq1 Hq2].
  eexists.
  apply (joinClub_already_member h req
           (mkSys (joinedDb h (dbOf w) c (uid a) club)
                  (asked w ++ [AskClub c; AskMember c (uid a);
                               PutMember c (uid a); PatchClub c]))
           a c r
           (withClubStats club (bumpMembers (Club.stats club)) (newDate h))
           (joinedMember h c (uid a)
              (Settings.requireApproval (Club.settings club))));
    try done.
  - cbn -[lookup insert]. by rewrite lookup_insert_eq.
  - cbn -[lookup insert]. by rewrite lookup_insert_eq.
Qed.

Lemma joinClub_twice_witness :
  ∃ log,
    joinClub ClubSample.host
      (ClubSample.join (Some ClubSample.bo) "club1" "player")
      (joinClub ClubSample.host
         (ClubSample.join (Some ClubSample.bo) "club1" "player")
         (mkSys (ClubSample.db true) [])).2
    = (inl (RaisedHttps
              (mkHttpsError already_exists "Already a member of this club")),
       mkSys (dbOf (joinClub ClubSample.host
                      (ClubSample.join (Some ClubSample.bo) "club1" "player")
                      (mkSys (ClubSample.db true) [])).2) log).
Proof.
  apply (joinClub_twice ClubSample.host
           (ClubSample.join (Some ClubSample.bo) "club1" "player")
           (mkSys (ClubSample.db true) [])
           (mkJoinResponse true pending true)).
  vm_compute. reflexivity.
Defined.





(* ===================================================================== *)
(** ** generateUniqueSlug *)
(* ===================================================================== *)

Lemma append_self_inv (s x : string) : s = s +:+ x → x = "".
Proof.
  induction s as [|a s IH]; simpl.
  - intros H. by symmetry.
  - intros [= Hs]. by apply IH.
Qed.

Lemma slugCandidate_inj base j k :
  slugCandidate base j = slugCandidate base k → j = k.
Proof.
  destruct j as [|j], k as [|k]; simpl; [done|..].
  - intros H. apply append_self_inv in H. discriminate.
  - intros H. symmetry in H. apply append_self_inv in H. discriminate.
  - intros H. apply (inj (String.append base)) in H.
    simpl in H. injection H as H. by apply pretty.pretty_nat_inj in H.
Qed.

(** A round of the loop asks for its slug and, finding it taken, moves
    to the next candidate. *)
Lemma slugLoop_runs h base (taken : nat) :
  (∀ s, rejects h (AskSlug s) = false) →
  ∀ k fuel w,
    (taken < fuel)%nat →
    (∀ j, (k ≤ j < k + taken)%nat → slugCandidate base j ∈ slugsOf (dbOf w)) →
    slugCandidate base (k + taken) ∉ slugsOf (dbOf w) →
    slugLoop fuel h base (slugCandidate base k) (S k) w
    = (inr (Some (slugCandidate base (k + taken))),
       mkSys (dbOf w)
             (asked w ++ ((λ j, AskSlug (slugCandidate base j))
                            <$> seq k (S taken)))).
Proof.
  intros Hrej. induction taken as [|taken IH]; intros k fuel w Hfuel Htaken Hfree.
  - destruct fuel as [|fuel]; [lia|].
    rewrite Nat.add_0_r in *. simpl.
    unfold slugQueryEmpty, Fn.bind, Fn.ask, Fn.read, Fn.ret.
    rewrite Hrej. cbn. by rewrite bool_decide_eq_true_2.
  - destruct fuel as [|fuel]; [lia|].
    simpl slugLoop.
    unfold slugQueryEmpty, Fn.bind, Fn.ask, Fn.read, Fn.ret.
    rewrite Hrej. cbn -[slugLoop seq].
    rewrite bool_decide_eq_false_2.
    2:{ intros Hnot. apply Hnot, Htaken. lia. }
    change (base +:+ "-" +:+ pretty.pretty (S k)) with (slugCandidate base (S k)).
    rewrite (IH (S k) fuel); cbn [dbOf asked].
    + replace (S k + taken)%nat with (k + S taken)%nat by lia.
      f_equal. f_equal. rewrite <- app_assoc. f_equal.
    + lia.
    + intros j Hj. apply Htaken. lia.
    + by replace (S k + taken)%nat with (k + S taken)%nat by lia.
Qed.

(** There are at most as many taken candidates in a row as there are
    clubs. *)
Lemma taken_candidates_bounded base (slugs : list string) n :
  (∀ j, (j < n)%nat → slugCandidate base j ∈ slugs) → (n ≤ length slugs)%nat.
Proof.
  intros Hall.
  assert (Hsub : (slugCandidate base <$> seq 0 n) ⊆+ slugs).
  { apply NoDup_submseteq.
    - apply NoDup_fmap_2_strong; [|apply NoDup_seq].
      intros j k _ _. apply slugCandidate_inj.
    - intros s (j & -> & Hj)%list_elem_of_fmap.
      apply Hall. apply elem_of_seq in Hj. lia. }
  apply submseteq_length in Hsub.
  by rewrite length_fmap, length_seq in Hsub.
Qed.

Lemma first_free_candidate base (slugs : list string) n :
  (∃ m, (m ≤ n)%nat ∧ (slugCandidate base m ∉ slugs)
        ∧ ∀ j, (j < m)%nat → slugCandidate base j ∈ slugs)
  ∨ (∀ j, (j ≤ n)%nat → slugCandidate base j ∈ slugs).
Proof.
  induction n as [|n [(m & Hm & Hfree & Hbelow) | Hall]].
  - destruct (decide (slugCandidate base 0 ∈ slugs)) as [Hin | Hout].
    + right. intros j Hj. by replace j with 0%nat by lia.
    + left. exists 0%nat. split; [lia|]. split; [done|]. intros j Hj. lia.
  - left. exists m. split; [lia|]. by split.
  - destruct (decide (slugCandidate base (S n) ∈ slugs)) as [Hin | Hout].
    + right. intros j Hj.
      destruct (decide (j = S n)) as [-> | Hne]; [done|]. apply Hall. lia.
    + left. exists (S n). split; [lia|]. split; [done|].
      intros j Hj. apply Hall. lia.
Qed.

Lemma generateUniqueSlug_first_free h base w :
  (∀ s, rejects h (AskSlug s) = false) →
  ∃ k,
    (k ≤ length (slugsOf (dbOf w)))%nat
    ∧ generateUniqueSlug h base w
      = (inr (Some (slugCandidate base k)),
         mkSys (dbOf w)
               (asked w ++ ((λ j, AskSlug (slugCandidate base j))
                              <$> seq 0 (S k))))
    ∧ (slugCandidate base k ∉ slugsOf (dbOf w))
    ∧ (∀ j, (j < k)%nat → slugCandidate base j ∈ slugsOf (dbOf w)).
Proof.
  intros Hrej.
  destruct (first_free_candidate base (slugsOf (dbOf w))
              (length (slugsOf (dbOf w))))
    as [(k & Hk & Hfree & Hbelow) | Hall].
  - exists k. split; [done|]. split; [|by split].
    unfold generateUniqueSlug.
    apply (slugLoop_runs h base k Hrej 0); [lia| |done].
    intros j Hj. apply Hbelow. lia.
  - pose proof (taken_candidates_bounded base (slugsOf (dbOf w))
                  (S (length (slugsOf (dbOf w))))) as Hbound.
    assert (S (length (slugsOf (dbOf w))) ≤ length (slugsOf (dbOf w)))%nat; [|lia].
    apply Hbound. intros j Hj. apply Hall. lia.
Qed.

(** X18. [generateUniqueSlug] always comes back: when the store answers
    its queries, it returns the first slug nobody uses among the base
    slug, base-1, base-2, ..., having asked for each candidate up to
    that one and no further, and it needs at most one query more than
    there are clubs.  The base slug itself is returned whenever it is
    free.  Nothing is written. *)
Theorem generateUniqueSlug_returns h base w :
  (∀ s, rejects h (AskSlug s) = false) →
  ∃ k,
    (k ≤ length (slugsOf (dbOf w)))%nat
    ∧ generateUniqueSlug h base w
      = (inr (Some (slugCandidate base k)),
         mkSys (dbOf w)
               (asked w ++ ((λ j, AskSlug (slugCandidate base j))
                              <$> seq 0 (S k))))
    ∧ (slugCandidate base k ∉ slugsOf (dbOf w))
    ∧ (∀ j, (j < k)%nat → slugCandidate base j ∈ slugsOf (dbOf w))
    ∧ (base ∉ slugsOf (dbOf w) → slugCandidate base k = base).
Proof.
  intros Hrej.
  destruct (generateUniqueSlug_first_free h base w Hrej)
    as (k & Hk & Hrun & Hfree & Hbelow).
  exists k. split; [done|]. split; [done|]. split; [done|]. split; [done|].
  intros Hbase. destruct k as [|k]; [done|].
  destruct Hbase. apply (Hbelow 0%nat). lia.
Qed.

Lemma generateUniqueSlug_returns_witness :
  (generateUniqueSlug ClubSample.host "fc-open"
     (mkSys (ClubSample.db true) [])).1
  = inr (Some "fc-open-1").
Proof.
  destruct (generateUniqueSlug_returns ClubSample.host "fc-open"
              (mkSys (ClubSample.db true) []) (λ _, eq_refl))
    as (k & Hk & Hrun & Hfree & Hbelow & _).
  rewrite Hrun. simpl. f_equal. f_equal.
  destruct k as [|[|k]].
  - destruct Hfree. compute_done.
  - reflexivity.
  - assert (Hin : slugCandidate "fc-open" 1 ∈ slugsOf (ClubSample.db true)).
    { apply Hbelow. lia. }
    assert (Hout : slugCandidate "fc-open" 1 ∉ slugsOf (ClubSample.db true))
      by compute_done.
    by destruct Hout.
Defined.

(* ===================================================================== *)
(** ** createClub *)
(* ===================================================================== *)

#[global] Arguments generateUniqueSlug : simpl never.

(** Whatever the loop answers, it has not written, a slug it returns was
    reported free, and what it throws is a rejected query. *)
Lemma slugLoop_sound h base fuel :
  ∀ slug counter w r w',
    slugLoop fuel h base slug counter w = (r, w') →
    dbOf w' = dbOf w
    ∧ (∀ s, r = inr (Some s) → s ∉ slugsOf (dbOf w))
    ∧ (∀ e, r = inl e → e = RaisedOther).
Proof.
  induction fuel as [|fuel IH]; intros slug counter w r w'; simpl.
  - unfold Fn.ret. intros [= <- <-]. by repeat split.
  - unfold slugQueryEmpty, Fn.bind, Fn.ask, Fn.read, Fn.ret.
    destruct (rejects h (AskSlug slug)); cbn -[slugLoop].
    + intros [= <- <-]. repeat split; [done|]. by intros e [= <-].
    + destruct (bool_decide (slug ∉ slugsOf (dbOf w))) eqn:Hfree; cbn -[slugLoop].
      * intros [= <- <-]. apply bool_decide_eq_true in Hfree.
        repeat split; [|done]. by intros s [= <-].
      * intros Hrun. apply IH in Hrun as (Hdb & Hs & He). by repeat split.
Qed.

Lemma generateUniqueSlug_sound h base w r w' :
  generateUniqueSlug h base w = (r, w') →
  dbOf w' = dbOf w
  ∧ (∀ s, r = inr (Some s) → s ∉ slugsOf (dbOf w))
  ∧ (∀ e, r = inl e → e = RaisedOther).
Proof. unfold generateUniqueSlug. apply slugLoop_sound. Qed.

(** A club is created only along the one path that passes every check
    and the commit. *)
Lemma createClub_ok_inv h req w resp w' :
  createClub h req w = (inr resp, w') →
  ∃ a data slug u,
    caller req = Some a
    ∧ createClubSchema h (payload req) = Some data
    ∧ (slug ∉ slugsOf (dbOf w))
    ∧ users (dbOf w) !! uid a = Some u
    ∧ hasFieldValue h = true
    ∧ resp = mkCreateResponse true (autoId h) slug
    ∧ dbOf w' = createdDb h (dbOf w) data slug (uid a) u.
Proof.
  unfold createClub. unfold authContext, getAuthContext, parse, commitCreateBatch,
    Fn.tryCatch, Fn.bind, Fn.ret, Fn.throw, Fn.ask, Fn.write, ret, throw.
  destruct (caller req) as [a|] eqn:Ha; cbn; [|done].
  destruct (createClubSchema h (payload req)) as [data|] eqn:Hp; cbn; [|done].
  destruct (generateUniqueSlug h (ClubInput.slug data) w) as [[e|[slug|]] w1]
    eqn:Hslug; cbn.
  - apply generateUniqueSlug_sound in Hslug as (_ & _ & He).
    by rewrite (He e eq_refl).
  - apply generateUniqueSlug_sound in Hslug as (Hdb & Hs & _).
    destruct (hasFieldValue h) eqn:Hfv; cbn; [|done].
    destruct (rejects h CommitBatch); cbn; [done|].
    destruct (users (dbOf w1) !! uid a) as [u|] eqn:Hu; cbn; [|done].
    intros [= <- <-]. rewrite Hdb in Hu.
    exists a, data, slug, u. cbn. rewrite Hdb. repeat split; try done.
    by apply Hs.
  - done.
Qed.

Lemma createClub_err_db h req w e w' :
  createClub h req w = (inl e, w') → dbOf w' = dbOf w.
Proof.
  unfold createClub. unfold authContext, getAuthContext, parse, commitCreateBatch,
    Fn.tryCatch, Fn.bind, Fn.ret, Fn.throw, Fn.ask, Fn.write, ret, throw.
  destruct (caller req) as [a|]; cbn; [|by intros [= <- <-]].
  destruct (createClubSchema h (payload req)) as [data|]; cbn;
    [|by intros [= <- <-]].
  destruct (generateUniqueSlug h (ClubInput.slug data) w) as [r w1] eqn:Hslug.
  apply generateUniqueSlug_sound in Hslug as (Hdb & _ & _).
  destruct r as [e1|[slug|]]; cbn.
  - destruct e1; by intros [= <- <-].
  - destruct (hasFieldValue h); cbn; [|by intros [= <- <-]].
    destruct (rejects h CommitBatch); cbn; [by intros [= <- <-]|].
    destruct (users (dbOf w1) !! uid a); cbn; [done|by intros [= <- <-]].
  - by intros [= <- <-].
Qed.

(** X19. [createClub] has two errors only, invalid-argument and
    internal, and whichever it answers, nothing has been written: the
    three documents are committed together or not at all. *)
Theorem createClub_all_or_nothing h req w e w' :
  createClub h req w = (inl e, w') →
  dbOf w' = dbOf w
  ∧ ∃ he, e = RaisedHttps he
          ∧ (code he = invalid_argument ∨ code he = internal).
Proof.
  unfold createClub. unfold authContext, getAuthContext, parse, commitCreateBatch,
    Fn.tryCatch, Fn.bind, Fn.ret, Fn.throw, Fn.ask, Fn.write, ret, throw.
  destruct (caller req) as [a|] eqn:Ha; cbn.
  2:{ intros [= <- <-]. split; [done|]. eexists. split; [done|]. by right. }
  destruct (createClubSchema h (payload req)) as [data|] eqn:Hp; cbn.
  2:{ intros [= <- <-]. split; [done|]. eexists. split; [done|]. by left. }
  destruct (generateUniqueSlug h (ClubInput.slug data) w) as [[e1|[slug|]] w1]
    eqn:Hslug; cbn;
    apply generateUniqueSlug_sound in Hslug as (Hdb & _ & He).
  - rewrite (He e1 eq_refl). intros [= <- <-].
    split; [done|]. eexists. split; [done|]. by right.
  - destruct (hasFieldValue h); cbn.
    + destruct (rejects h CommitBatch); cbn.
      * intros [= <- <-]. split; [done|]. eexists. split; [done|]. by right.
      * destruct (users (dbOf w1) !! uid a); cbn; [done|].
        intros [= <- <-]. split; [done|]. eexists. split; [done|]. by right.
    + intros [= <- <-]. split; [done|]. eexists. split; [done|]. by right.
  - intros [= <- <-]. split; [done|]. eexists. split; [done|]. by right.
Qed.

Lemma createClub_all_or_nothing_witness :
  dbOf (createClub ClubSample.noFieldValue
          (CreateSample.create (Some ClubSample.bo) "FC New" "fc-new")
          (mkSys (ClubSample.db true) [])).2
  = ClubSample.db true.
Proof.
  refine (proj1 (createClub_all_or_nothing ClubSample.noFieldValue
                   (CreateSample.create (Some ClubSample.bo) "FC New" "fc-new")
                   (mkSys (ClubSample.db true) [])
                   (RaisedHttps (mkHttpsError internal "Failed to create club"))
                   _ _)).
  vm_compute. reflexivity.
Defined.

(** X20. An unauthenticated caller of [createClub] is not told so: the
    error thrown by the authentication check falls into the catch-all
    and comes back as internal, before the payload is looked at and
    without a store request. *)
Theorem createClub_unauthenticated_internal h req w :
  caller req = None →
  createClub h req w =
    (inl (RaisedHttps (mkHttpsError internal "Failed to create club")), w)
  ∧ ∀ (join : Call RawJoin.t) hj wj,
      caller join = None →
      joinClub hj join wj =
        (inl (RaisedHttps
                (mkHttpsError unauthenticated "Authentication required")), wj).
Proof.
  intros Ha. split.
  - unfold createClub. unfold_club. by rewrite Ha.
  - intros join hj wj Hj. unfold joinClub. unfold_club. by rewrite Hj.
Qed.

Lemma createClub_unauthenticated_internal_witness :
  createClub ClubSample.host (CreateSample.create None "FC New" "fc-new")
    (mkSys (ClubSample.db true) [])
  = (inl (RaisedHttps (mkHttpsError internal "Failed to create club")),
     mkSys (ClubSample.db true) []).
Proof.
  exact (proj1 (createClub_unauthenticated_internal ClubSample.host
                  (CreateSample.create None "FC New" "fc-new")
                  (mkSys (ClubSample.db true) []) eq_refl)).
Defined.

(** X21. When [FieldValue] is available and the store rejects nothing,
    a signed-in user with a user document and a payload the schema
    accepts (the lengths of name, slug and description counted in UTF-16
    code units) gets a club: under the generated identifier, with the
    payload's fields, the first free slug after the one asked for, not
    public, registration closed, approval required, the features teams
    and matches, a free active plan that expires thirty days after the
    clock reading, a member count of one and no team or match, created
    by the caller at the time of the call, version 1.  The creator
    becomes its active member, approved by themselves, and the club is
    added to their [clubMemberships] with the admin role.  No other club
    document, member document or user document changes. *)
Theorem createClub_creates h req w a data u :
  caller req = Some a →
  createClubSchema h (payload req) = Some data →
  users (dbOf w) !! uid a = Some u →
  hasFieldValue h = true →
  (∀ q, rejects h q = false) →
  ∃ k w',
    let slug := slugCandidate (ClubInput.slug data) k in
    createClub h req w = (inr (mkCreateResponse true (autoId h) slug), w')
    ∧ (slug ∉ slugsOf (dbOf w))
    ∧ clubs (dbOf w') !! autoId h
      = Some (Club.mk (ClubInput.name data) slug (ClubInput.description data)
                (ClubInput.colors data) (ClubInput.address data)
                (ClubInput.contact data)
                (Settings.mk false false true [Feature.teams; Feature.matches])
                (Subscription.mk Plan.free SubscriptionStatus.active
                   (dateNow h + 30 * 24 * 60 * 60 * 1000)
                   [Feature.teams; Feature.matches])
                (ClubStats.mk 1 0 0 [])
                (uid a) (uid a) (newDate h) (newDate h) 1)
    ∧ memberDocs (dbOf w') !! (autoId h, uid a)
      = Some (MemberDoc.mk
                (ClubMembership.mk (autoId h) (uid a) active (newDate h)
                                   (Some (uid a)) (Some (newDate h)))
                (newDate h) (newDate h) 1)
    ∧ users (dbOf w') !! uid a
      = Some (withClubMemberships u
                (arrayUnion (UserClub.mk (autoId h) Role.admin (newDate h))
                            (User.clubMemberships u))
                (newDate h))
    ∧ (∀ c, c ≠ autoId h → clubs (dbOf w') !! c = clubs (dbOf w) !! c)
    ∧ (∀ k', k' ≠ (autoId h, uid a) →
             memberDocs (dbOf w') !! k' = memberDocs (dbOf w) !! k')
    ∧ (∀ v, v ≠ uid a → users (dbOf w') !! v = users (dbOf w) !! v).
Proof.
  intros Ha Hp Hu Hfv Hrej.
  destruct (generateUniqueSlug_first_free h (ClubInput.slug data) w)
    as (k & _ & Hslug & Hfree & _); [by intros s|].
  exists k. eexists. cbn zeta.
  split.
  { unfold createClub. unfold authContext, getAuthContext, parse,
      commitCreateBatch, Fn.tryCatch, Fn.bind, Fn.ret, Fn.throw, Fn.ask,
      Fn.write, ret, throw.
    rewrite Ha. cbn. rewrite Hp. cbn. rewrite Hslug. cbn -[lookup insert].
    rewrite Hfv, Hrej. cbn -[lookup insert]. rewrite Hu.
    cbn -[lookup insert]. reflexivity. }
  cbn -[lookup insert].
  split; [done|].
  split; [by rewrite lookup_insert_eq|].
  split; [by rewrite lookup_insert_eq|].
  split; [by rewrite lookup_insert_eq|].
  split; [intros c Hc; by rewrite lookup_insert_ne|].
  split; [intros k' Hk'; by rewrite lookup_insert_ne|].
  intros v Hv. by rewrite lookup_insert_ne.
Qed.

Lemma createClub_creates_witness :
  (createClub ClubSample.host
     (CreateSample.create (Some ClubSample.bo) "FC New" "fc-open")
     (mkSys (ClubSample.db true) [])).1
  = inr (mkCreateResponse true "club9" "fc-open-1").
Proof.
  destruct (createClub_creates ClubSample.host
              (CreateSample.create (Some ClubSample.bo) "FC New" "fc-open")
              (mkSys (ClubSample.db true) []) ClubSample.bo
              (ClubInput.mk "FC New" "fc-open" None
                 (Colors.mk "green" "white" None)
                 (Address.mk "Park 3" "Rome" "00100" "IT")
                 (Contact.mk "club@example.org" None None))
              (ClubSample.user "bo@example.org")
              eq_refl eq_refl eq_refl eq_refl (λ _, eq_refl))
    as (k & w' & Hrun & _).
  cbn zeta in Hrun.
  assert (Hval : (createClub ClubSample.host
                    (CreateSample.create (Some ClubSample.bo) "FC New" "fc-open")
                    (mkSys (ClubSample.db true) [])).1
                 = inr (mkCreateResponse true "club9" "fc-open-1"))
    by (vm_compute; reflexivity).
  rewrite Hrun in Hval |- *. exact Hval.
Defined.

Lemma slugChar_codeUnits a : slugChar a = true → codeUnits a = 1%nat.
Proof.
  unfold slugChar, codeUnits. cbn zeta. intros H.
  destruct (Nat.ltb_spec (Ascii.nat_of_ascii a) 128); [done|].
  rewrite !orb_true_iff, !andb_true_iff, !Nat.leb_le, Nat.eqb_eq in H. lia.
Qed.

(** On the characters the slug pattern admits, one byte is one code
    unit. *)
Lemma jsLength_slugChars s :
  allChars slugChar s = true → jsLength s = String.length s.
Proof.
  induction s as [|a s IH]; simpl; [done|].
  intros [Ha Hs]%andb_true_iff. by rewrite slugChar_codeUnits, IH.
Qed.

(** A name of one accented letter is two bytes and one code unit: it is
    shorter than the two the schema asks for and refused, while with a
    second letter it is accepted. *)
Example createClub_name_in_code_units :
  jsLength "é" = 1%nat
  ∧ createClub ClubSample.host
      (CreateSample.create (Some ClubSample.bo) "é" "fc-new")
      (mkSys (ClubSample.db true) [])
    = (inl (RaisedHttps (mkHttpsError invalid_argument "Validation failed")),
       mkSys (ClubSample.db true) [])
  ∧ (createClub ClubSample.host
       (CreateSample.create (Some ClubSample.bo) "éa" "fc-new")
       (mkSys (ClubSample.db true) [])).1
    = inr (mkCreateResponse true "club9" "fc-new").
Proof. repeat split; vm_compute; reflexivity. Qed.

Lemma zString_Some ok r s :
  zString ok r = Some s → r = Str s ∧ ok s = true.
Proof.
  unfold zString. destruct r as [|s'|]; try done.
  destruct (ok s') eqn:Hok; [|done]. by intros [= <-].
Qed.

Lemma createClubSchema_slug h d data :
  createClubSchema h d = Some data →
  ∃ raw name s,
    d = Some raw ∧ RawClub.name raw = Str name ∧ RawClub.slug raw = Str s
    ∧ ClubInput.name data = name ∧ ClubInput.slug data = s
    ∧ lengthBetween 2 100 name = true
    ∧ lengthBetween 3 50 s = true ∧ slugPattern s = true.
Proof.
  unfold createClubSchema. intros H.
  apply bind_Some in H as (raw & -> & H).
  apply bind_Some in H as (name & Hname & H).
  apply bind_Some in H as (s & Hslug & H).
  repeat (apply bind_Some in H as (? & _ & H)).
  injection H as <-. cbn.
  apply zString_Some in Hname as [Hn Hln], Hslug as [Hs Hls].
  apply andb_true_iff in Hls as [Hls Hps].
  exists raw, name, s. by repeat split.
Qed.

(** X22. A payload whose slug is not a string of 3 to 50 characters, all
    of them lower-case letters, digits or hyphens, is answered
    invalid-argument before the store is asked anything: no slug query
    is made for it and nothing is written. *)
Theorem createClub_validation h req w a raw :
  caller req = Some a →
  payload req = Some raw →
  (∀ s, RawClub.slug raw = Str s →
        (String.length s < 3)%nat ∨ (50 < String.length s)%nat
        ∨ allChars slugChar s = false) →
  createClub h req w =
    (inl (RaisedHttps (mkHttpsError invalid_argument "Validation failed")), w).
Proof.
  intros Ha Hpay Hbad.
  assert (Hp : createClubSchema h (payload req) = None).
  { destruct (createClubSchema h (payload req)) as [data|] eqn:Hp; [|done].
    apply createClubSchema_slug in Hp
      as (raw' & name & s & Hpay' & Hn & Hs & _ & _ & _ & Hls & Hps).
    rewrite Hpay in Hpay'. injection Hpay' as <-.
    unfold lengthBetween in Hls. unfold slugPattern in Hps.
    apply andb_true_iff in Hls as [Hs1 Hs2], Hps as [_ Hch].
    apply Nat.leb_le in Hs1, Hs2.
    rewrite (jsLength_slugChars s Hch) in Hs1, Hs2.
    destruct (Hbad s Hs) as [? | [? | Hc]]; [lia|lia|congruence]. }
  unfold createClub. unfold_club. rewrite Ha. cbn. by rewrite Hp.
Qed.

Lemma createClub_validation_witness :
  createClub ClubSample.host
    (CreateSample.create (Some ClubSample.bo) "FC New" "FC-New")
    (mkSys (ClubSample.db true) [])
  = (inl (RaisedHttps (mkHttpsError invalid_argument "Validation failed")),
     mkSys (ClubSample.db true) []).
Proof.
  apply (createClub_validation ClubSample.host
           (CreateSample.create (Some ClubSample.bo) "FC New" "FC-New")
           (mkSys (ClubSample.db true) []) ClubSample.bo
           (CreateSample.payload "FC New" "FC-New") eq_refl eq_refl).
  intros s [= <-]. right. right. reflexivity.
Defined.

Lemma slugs_after_set (cl : gmap string Club.t) k c mb us :
  ∃ rest,
    slugsOf (mkDb (<[k := c]> cl) mb us) ≡ₚ Club.slug c :: rest
    ∧ rest ⊆+ slugsOf (mkDb cl mb us).
Proof.
  exists ((λ kv, Club.slug kv.2) <$> map_to_list (delete k cl)).
  unfold slugsOf. cbn -[insert]. split.
  - rewrite <- insert_delete_eq.
    by rewrite map_to_list_insert by apply lookup_delete_eq.
  - apply fmap_submseteq, map_to_list_submseteq, delete_subseteq.
Qed.

(** X23. [createClub] keeps slugs unique: if no two clubs share a slug
    before a call, none do after it, whether the call succeeds or fails
    and even when the generated identifier is that of an existing club. *)
Theorem createClub_keeps_slugs_unique h req w :
  NoDup (slugsOf (dbOf w)) →
  NoDup (slugsOf (dbOf (createClub h req w).2)).
Proof.
  intros Hnd.
  destruct (createClub h req w) as [[e|resp] w'] eqn:Hrun; cbn.
  - by rewrite (createClub_err_db h req w e w' Hrun).
  - apply createClub_ok_inv in Hrun
      as (a & data & slug & u & _ & _ & Hfree & _ & _ & _ & ->).
    destruct w as [[cl mb us] log]. unfold createdDb. cbn -[insert slugsOf] in *.
    destruct (slugs_after_set cl (autoId h) (newClub h data slug (uid a))
                (<[(autoId h, uid a) := founderDoc h (autoId h) (uid a)]> mb)
                (<[uid a :=
                     withClubMemberships u
                       (arrayUnion (UserClub.mk (autoId h) Role.admin (newDate h))
                                   (User.clubMemberships u)) (newDate h)]> us))
      as (rest & Hperm & Hsub).
    rewrite Hperm. cbn.
    assert (Hsame : slugsOf (mkDb cl
                      (<[(autoId h, uid a) := founderDoc h (autoId h) (uid a)]> mb)
                      (<[uid a :=
                           withClubMemberships u
                             (arrayUnion
                                (UserClub.mk (autoId h) Role.admin (newDate h))
                                (User.clubMemberships u)) (newDate h)]> us))
                    = slugsOf (mkDb cl mb us)) by done.
    rewrite Hsame in Hsub.
    apply submseteq_Permutation in Hsub as (extra & Hextra).
    rewrite Hextra in Hnd, Hfree.
    apply NoDup_app in Hnd as (Hrest & _ & _).
    constructor; [|done].
    intros Hin. apply Hfree. apply elem_of_app. by left.
Qed.

Lemma createClub_keeps_slugs_unique_witness :
  NoDup (slugsOf (dbOf (createClub ClubSample.host
                          (CreateSample.create (Some ClubSample.bo)
                                               "FC New" "fc-open")
                          (mkSys (ClubSample.db true) [])).2)).
Proof.
  apply createClub_keeps_slugs_unique. vm_compute.
  constructor; [|constructor; [|constructor]].
  - intros Hin. apply list_elem_of_singleton in Hin. discriminate.
  - intros Hin. by apply elem_of_nil in Hin.
Defined.



(** X25. A club is created closed: after a successful [createClub],
    every well-formed [joinClub] request for the new club, from anyone,
    is answered permission-denied because registration is closed, and
    the membership is not even read. *)
Theorem createClub_then_join_closed h req w resp w' hj (join : Call RawJoin.t)
    b r log :
  createClub h req w = (inr resp, w') →
  caller join = Some b →
  payload join = Some (RawJoin.mk (Str (create_clubId resp)) (Str r)) →
  r ∈ joinableRoles →
  rejects hj (AskClub (create_clubId resp)) = false →
  joinClub hj join (mkSys (dbOf w') log) =
    (inl (RaisedHttps
            (mkHttpsError permission_denied "Club registration is closed")),
     mkSys (dbOf w') (log ++ [AskClub (create_clubId resp)])).
Proof.
  intros Hrun Hb Hpay Hr Hq.
  apply createClub_ok_inv in Hrun
    as (a & data & slug & u & _ & _ & _ & _ & _ & -> & ->).
  cbn in Hpay, Hq |- *.
  assert (Hp : joinClubSchema (payload join) = Some (JoinData.mk (autoId h) r)).
  { apply joinClubSchema_Some. by exists (autoId h), r. }
  unfold joinClub. unfold_club. rewrite Hb. cbn -[lookup insert].
  rewrite Hp. cbn -[lookup insert]. rewrite Hq. cbn -[lookup insert].
  unfold createdDb. cbn -[lookup insert]. rewrite lookup_insert_eq. done.
Qed.

Lemma createClub_then_join_closed_witness :
  (joinClub ClubSample.host (ClubSample.join (Some Sample.ana) "club9" "player")
     (mkSys (dbOf (createClub ClubSample.host
                     (CreateSample.create (Some ClubSample.bo) "FC New" "fc-new")
                     (mkSys (ClubSample.db true) [])).2) [])).1
  = inl (RaisedHttps
           (mkHttpsError permission_denied "Club registration is closed")).
Proof.
  assert (Hr : "player" ∈ joinableRoles) by compute_done.
  rewrite (createClub_then_join_closed ClubSample.host
             (CreateSample.create (Some ClubSample.bo) "FC New" "fc-new")
             (mkSys (ClubSample.db true) [])
             (mkCreateResponse true "club9" "fc-new")
             (createClub ClubSample.host
                (CreateSample.create (Some ClubSample.bo) "FC New" "fc-new")
                (mkSys (ClubSample.db true) [])).2
             ClubSample.host
             (ClubSample.join (Some Sample.ana) "club9" "player")
             Sample.ana "player" []); try done.
Defined.

Lemma allChars_app p s1 s2 :
  allChars p (s1 +:+ s2) = allChars p s1 && allChars p s2.
Proof.
  induction s1 as [|a s1 IH]; simpl; [done|].
  by rewrite IH, andb_assoc.
Qed.

Lemma length_append (s1 s2 : string) :
  String.length (s1 +:+ s2) = (String.length s1 + String.length s2)%nat.
Proof. induction s1 as [|a s1 IH]; simpl; [done|]. by rewrite IH. Qed.

Lemma pretty_N_char_slugChar x : slugChar (pretty.pretty_N_char x) = true.
Proof.
  unfold pretty.pretty_N_char.
  repeat match goal with
         | |- context [match ?y with _ => _ end] => destruct y
         end; reflexivity.
Qed.

Lemma pretty_N_go_slugChars x s :
  allChars slugChar s = true →
  allChars slugChar (pretty.pretty_N_go x s) = true.
Proof.
  revert s. induction (N.lt_wf_0 x) as [x _ IH]; intros s Hs.
  destruct (decide (x = 0)%N) as [-> | Hx].
  - by rewrite pretty.pretty_N_go_0.
  - rewrite pretty.pretty_N_go_step by lia. apply IH.
    + apply N.div_lt; lia.
    + simpl. by rewrite pretty_N_char_slugChar, Hs.
Qed.

Lemma pretty_nat_slugChars (k : nat) :
  allChars slugChar (pretty.pretty k) = true.
Proof.
  unfold pretty.pretty, pretty.pretty_nat, pretty.pretty, pretty.pretty_N.
  destruct (decide (N.of_nat k = 0)%N); [done|].
  by apply pretty_N_go_slugChars.
Qed.

(** A slug the loop returns is the one it was entered with or the base
    slug with a hyphen and a number. *)
Lemma slugLoop_shape h base fuel :
  ∀ slug counter w s w',
    slugLoop fuel h base slug counter w = (inr (Some s), w') →
    s = slug ∨ ∃ k : nat, s = base +:+ "-" +:+ pretty.pretty k.
Proof.
  induction fuel as [|fuel IH]; intros slug counter w s w'; simpl; [done|].
  unfold slugQueryEmpty, Fn.bind, Fn.ask, Fn.read, Fn.ret.
  destruct (rejects h (AskSlug slug)); cbn -[slugLoop]; [done|].
  destruct (bool_decide (slug ∉ slugsOf (dbOf w))); cbn -[slugLoop].
  - intros [= <- <-]. by left.
  - intros Hrun. apply IH in Hrun as [-> | Hk]; [|by right].
    right. by exists counter.
Qed.

(** X26. Every slug [createClub] stores is the requested slug or the
    requested slug followed by a hyphen and a decimal number, has at
    least three characters and consists of lower-case letters, digits
    and hyphens only.  Its length is not checked again after the suffix
    is added, so it can exceed the fifty characters the validation
    allows. *)
Theorem createClub_slug_shape h req w resp w' :
  createClub h req w = (inr resp, w') →
  ∃ club data,
    clubs (dbOf w') !! create_clubId resp = Some club
    ∧ Club.slug club = create_slug resp
    ∧ createClubSchema h (payload req) = Some data
    ∧ (create_slug resp = ClubInput.slug data
       ∨ ∃ k : nat,
           create_slug resp = ClubInput.slug data +:+ "-" +:+ pretty.pretty k)
    ∧ allChars slugChar (create_slug resp) = true
    ∧ (3 ≤ String.length (create_slug resp))%nat.
Proof.
  intros Hrun.
  assert (Hshape : ∃ data,
            createClubSchema h (payload req) = Some data
            ∧ (create_slug resp = ClubInput.slug data
               ∨ ∃ k : nat,
                   create_slug resp
                   = ClubInput.slug data +:+ "-" +:+ pretty.pretty k)).
  { revert Hrun. unfold createClub.
    unfold authContext, getAuthContext, parse, commitCreateBatch,
      Fn.tryCatch, Fn.bind, Fn.ret, Fn.throw, Fn.ask, Fn.write, ret, throw.
    destruct (caller req) as [a|]; cbn; [|done].
    destruct (createClubSchema h (payload req)) as [data|]; cbn; [|done].
    destruct (generateUniqueSlug h (ClubInput.slug data) w) as [[e|[slug|]] w1]
      eqn:Hslug; cbn.
    - by destruct e.
    - apply slugLoop_shape in Hslug.
      destruct (hasFieldValue h); cbn; [|done].
      destruct (rejects h CommitBatch); cbn; [done|].
      destruct (users (dbOf w1) !! uid a); cbn; [|done].
      intros [= <- <-]. by exists data.
    - done. }
  destruct Hshape as (data & Hp & Hslug).
  apply createClub_ok_inv in Hrun
    as (a & data' & slug & u & _ & Hp' & _ & _ & _ & -> & ->).
  rewrite Hp in Hp'. injection Hp' as <-. cbn in Hslug |- *.
  exists (newClub h data slug (uid a)), data.
  split; [by rewrite lookup_insert_eq|]. split; [done|]. split; [done|].
  split; [done|].
  apply createClubSchema_slug in Hp
    as (raw & name & s & _ & _ & _ & _ & Hs & _ & Hls & Hps).
  unfold lengthBetween in Hls. unfold slugPattern in Hps.
  apply andb_true_iff in Hls as [Hlo _], Hps as [_ Hch].
  apply Nat.leb_le in Hlo. rewrite (jsLength_slugChars s Hch) in Hlo.
  rewrite Hs in Hslug.
  destruct Hslug as [-> | (k & ->)]; [done|].
  rewrite !allChars_app, Hch, pretty_nat_slugChars, !length_append.
  split; [done|]. lia.
Qed.

Lemma createClub_slug_shape_witness :
  ∃ club data,
    clubs (dbOf (createClub ClubSample.host
                   (CreateSample.create (Some ClubSample.bo) "FC New" "fc-open")
                   (mkSys (ClubSample.db true) [])).2) !! "club9" = Some club
    ∧ Club.slug club = "fc-open-1"
    ∧ createClubSchema ClubSample.host
        (payload (CreateSample.create (Some ClubSample.bo) "FC New" "fc-open"))
      = Some data
    ∧ ("fc-open-1" = ClubInput.slug data
       ∨ ∃ k : nat, "fc-open-1" = ClubInput.slug data +:+ "-" +:+ pretty.pretty k)
    ∧ allChars slugChar "fc-open-1" = true
    ∧ (3 ≤ String.length "fc-open-1")%nat.
Proof.
  apply (createClub_slug_shape ClubSample.host
           (CreateSample.create (Some ClubSample.bo) "FC New" "fc-open")
           (mkSys (ClubSample.db true) [])
           (mkCreateResponse true "club9" "fc-open-1")
           (createClub ClubSample.host
              (CreateSample.create (Some ClubSample.bo) "FC New" "fc-open")
              (mkSys (ClubSample.db true) [])).2).
  vm_compute. reflexivity.
Defined.

(** A requested slug of the full fifty characters that is taken comes
    back fifty-two characters long. *)
Example createClub_slug_longer_than_validated :
  let fifty := "aaaaaaaaaaaaaaaaaaaaaaaaaaaaaaaaaaaaaaaaaaaaaaaaaa" in
  let taken :=
    mkDb {[ "club1" :=
              Club.mk "A" fifty None
                      (Club.colors (ClubSample.fcOpen true))
                      (Club.address (ClubSample.fcOpen true))
                      (Club.contact (ClubSample.fcOpen true))
                      (Club.settings (ClubSample.fcOpen true))
                      (Club.subscription (ClubSample.fcOpen true))
                      (ClubStats.mk 1 0 0 []) "ana" "ana" 10 10 1 ]}
         ∅ {[ "bo" := ClubSample.user "bo@example.org" ]} in
  String.length fifty = 50%nat
  ∧ (createClub ClubSample.host
       (CreateSample.create (Some ClubSample.bo) "FC New" fifty)
       (mkSys taken [])).1
    = inr (mkCreateResponse true "club9" (fifty +:+ "-1"))
  ∧ String.length (fifty +:+ "-1") = 52%nat.
Proof. cbn zeta. repeat split; vm_compute; reflexivity. Qed.

(* ===================================================================== *)
(** ** The triggers *)
(* ===================================================================== *)

Lemma incrementClubStat_ok h c bump at_ w club :
  hasFieldValue h = true → rejects h (PatchClub c) = false →
  clubs (dbOf w) !! c = Some club →
  incrementClubStat h c bump at_ w
  = (inr tt,
     mkSys (mkDb (<[c := withClubStats club (bump (Club.stats club)) at_]>
                    (clubs (dbOf w)))
                 (memberDocs (dbOf w)) (users (dbOf w)))
           (asked w ++ [PatchClub c])).
Proof.
  intros Hfv Hq Hc. unfold incrementClubStat, Fn.bind, Fn.ask, Fn.write.
  rewrite Hfv, Hq. cbn -[lookup insert]. by rewrite Hc.
Qed.

Lemma incrementClubStat_fails h c bump at_ w :
  hasFieldValue h = false ∨ rejects h (PatchClub c) = true
  ∨ clubs (dbOf w) !! c = None →
  ∃ log, incrementClubStat h c bump at_ w = (inl RaisedOther, mkSys (dbOf w) log).
Proof.
  intros Hbad. unfold incrementClubStat, Fn.bind, Fn.ask, Fn.write, Fn.throw.
  destruct (hasFieldValue h); cbn -[lookup insert]; [|by destruct w; eexists].
  destruct (rejects h (PatchClub c)); cbn -[lookup insert]; [by eexists|].
  destruct Hbad as [? | [? | Hc]]; [done..|]. rewrite Hc. by eexists.
Qed.

(** X27. [onTeamCreated] never throws.  When the event carries a team
    whose club exists and the update goes through, that club's team
    count goes up by one and its [updatedAt] is set, and nothing else
    changes.  When the event carries no data, the club does not exist,
    the store rejects the update or the store handle has no
    [FieldValue], the store is left as it was and the team is simply not
    counted. *)
Theorem onTeamCreated_counts h team w :
  ∃ w',
    onTeamCreated h team w = (inr tt, w')
    ∧ (∀ t club,
         team = Some t → clubs (dbOf w) !! Team.clubId t = Some club →
         hasFieldValue h = true → rejects h (PatchClub (Team.clubId t)) = false →
         dbOf w' =
           mkDb (<[Team.clubId t :=
                     withClubStats club
                       (ClubStats.mk (ClubStats.memberCount (Club.stats club))
                                     (ClubStats.teamCount (Club.stats club) + 1)
                                     (ClubStats.matchCount (Club.stats club))
                                     (ClubStats.activeSeasons (Club.stats club)))
                       (newDate h)]> (clubs (dbOf w)))
                (memberDocs (dbOf w)) (users (dbOf w)))
    ∧ (team = None
       ∨ (∃ t, team = Some t
               ∧ (clubs (dbOf w) !! Team.clubId t = None
                  ∨ hasFieldValue h = false
                  ∨ rejects h (PatchClub (Team.clubId t)) = true)) →
       dbOf w' = dbOf w).
Proof.
  unfold onTeamCreated, Fn.tryCatch, Fn.ret.
  destruct team as [t|].
  - destruct (clubs (dbOf w) !! Team.clubId t) as [club|] eqn:Hc.
    + destruct (hasFieldValue h) eqn:Hfv.
      * destruct (rejects h (PatchClub (Team.clubId t))) eqn:Hq.
        -- destruct (incrementClubStat_fails h (Team.clubId t) bumpTeams
                       (newDate h) w) as (log & ->); [auto|].
           eexists. split; [done|]. split; [|done].
           intros t' club' [= <-] ? ? ?. congruence.
        -- rewrite (incrementClubStat_ok h _ _ _ w club Hfv Hq Hc).
           eexists. split; [done|]. split.
           ++ intros t' club' [= <-] Hc' _ _. rewrite Hc in Hc'.
              by injection Hc' as <-.
           ++ intros [? | (t' & [= <-] & [? | [? | ?]])]; congruence.
      * destruct (incrementClubStat_fails h (Team.clubId t) bumpTeams
                    (newDate h) w) as (log & ->); [auto|].
        eexists. split; [done|]. split; [|done].
        intros t' club' [= <-] ? ? ?. congruence.
    + destruct (incrementClubStat_fails h (Team.clubId t) bumpTeams
                  (newDate h) w) as (log & ->); [auto|].
      eexists. split; [done|]. split; [|done].
      intros t' club' [= <-] Hc'. congruence.
  - exists w. split; [done|]. split; [done|done].
Qed.

(** X28. [onMatchCompleted] asks the store nothing and changes nothing
    unless the update takes the match from another status to finished
    and the new snapshot names a club under [homeTeam] or [awayTeam]:
    an update of a match that was finished already, an update to any
    other status, and a finished match whose document has the declared
    match fields only, are all left uncounted. *)
Theorem onMatchCompleted_idle h before after w :
  before = None ∨ after = None
  ∨ (∃ b, before = Some b ∧ Match.status (MatchData.doc b) = finished)
  ∨ (∃ a, after = Some a
          ∧ (Match.status (MatchData.doc a) ≠ finished
             ∨ (MatchData.homeTeam a = None ∧ MatchData.awayTeam a = None))) →
  onMatchCompleted h before after w = (inr tt, w).
Proof.
  unfold onMatchCompleted, Fn.tryCatch, Fn.ret.
  intros [-> | [-> | [(b & -> & Hb) | (a & -> & Ha)]]].
  - done.
  - by destruct before.
  - destruct after as [a|]; [|done].
    by rewrite (bool_decide_eq_false_2 (_ ≠ finished)) by (intros ?; done).
  - destruct before as [b|]; [|done].
    destruct Ha as [Ha | [Hh Haw]].
    + rewrite (bool_decide_eq_false_2 (_ = finished)) by done.
      by rewrite andb_false_r.
    + unfold clubIdsOf. rewrite Hh, Haw. cbn.
      by destruct (bool_decide _ && bool_decide _).
Qed.

Lemma onMatchCompleted_idle_witness :
  onMatchCompleted ClubSample.host (Some TriggerSample.wasLive)
    (Some TriggerSample.asDeclared) (mkSys (ClubSample.db true) [])
  = (inr tt, mkSys (ClubSample.db true) []).
Proof.
  apply onMatchCompleted_idle. right. right. right.
  exists TriggerSample.asDeclared. split; [reflexivity|].
  right. split; reflexivity.
Defined.

Lemma onMatchCompleted_transition h b a w c1 c2 :
  Match.status (MatchData.doc b) ≠ finished →
  Match.status (MatchData.doc a) = finished →
  MatchData.homeTeam a = Some (mkTeamRef (Some c1)) →
  MatchData.awayTeam a = Some (mkTeamRef (Some c2)) →
  c1 ≠ "" → c2 ≠ "" →
  onMatchCompleted h (Some b) (Some a) w
  = Fn.tryCatch (countMatchFor h [c1; c2]) (λ _, Fn.ret tt) w.
Proof.
  intros Hb Ha Hh Haw Hc1 Hc2. unfold onMatchCompleted, clubIdsOf, keptClubId.
  rewrite Hh, Haw. cbn.
  rewrite (bool_decide_eq_true_2 (_ ≠ finished)) by done.
  rewrite (bool_decide_eq_true_2 (_ = finished)) by done.
  by rewrite !bool_decide_eq_false_2 by done.
Qed.

(** X29. Provided that [FieldValue] is available on the handle, that the
    store rejects no request and that the two clubs exist: when a match
    becomes finished and its snapshot names the clubs of both teams, each
    of the two gets one more in its match count, so a club that is named
    twice gets two more, while member and team counts and all other
    clubs, members and users stay as they are; the two updates are
    issued in order, home first. *)
Theorem onMatchCompleted_counts h b a w c1 c2 k1 k2 :
  Match.status (MatchData.doc b) ≠ finished →
  Match.status (MatchData.doc a) = finished →
  MatchData.homeTeam a = Some (mkTeamRef (Some c1)) →
  MatchData.awayTeam a = Some (mkTeamRef (Some c2)) →
  c1 ≠ "" → c2 ≠ "" →
  clubs (dbOf w) !! c1 = Some k1 → clubs (dbOf w) !! c2 = Some k2 →
  hasFieldValue h = true → (∀ q, rejects h q = false) →
  ∃ w',
    onMatchCompleted h (Some b) (Some a) w = (inr tt, w')
    ∧ asked w' = asked w ++ [PatchClub c1; PatchClub c2]
    ∧ memberDocs (dbOf w') = memberDocs (dbOf w)
    ∧ users (dbOf w') = users (dbOf w)
    ∧ ∀ c club,
        clubs (dbOf w) !! c = Some club →
        ∃ club',
          clubs (dbOf w') !! c = Some club'
          ∧ ClubStats.matchCount (Club.stats club')
            = ClubStats.matchCount (Club.stats club)
              + (if bool_decide (c = c1) then 1 else 0)
              + (if bool_decide (c = c2) then 1 else 0)
          ∧ ClubStats.memberCount (Club.stats club')
            = ClubStats.memberCount (Club.stats club)
          ∧ ClubStats.teamCount (Club.stats club')
            = ClubStats.teamCount (Club.stats club).
Proof.
  intros Hb Ha Hh Haw Hc1 Hc2 Hk1 Hk2 Hfv Hrej.
  rewrite (onMatchCompleted_transition h b a w c1 c2) by done.
  unfold Fn.tryCatch, countMatchFor, Fn.bind, Fn.ret.
  rewrite (incrementClubStat_ok h c1 bumpMatches (newDate h) w k1) by done.
  set (w1 := mkSys _ _).
  assert (Hk2' : ∃ k2', clubs (dbOf w1) !! c2 = Some k2'
                        ∧ k2' = if bool_decide (c2 = c1)
                                then bumped bumpMatches h k1 else k2).
  { subst w1. cbn -[lookup insert]. case_bool_decide as Heq.
    - subst c2. rewrite lookup_insert_eq. by eexists.
    - rewrite lookup_insert_ne by done. by eexists. }
  destruct Hk2' as (k2' & Hk2' & Hval).
  rewrite (incrementClubStat_ok h c2 bumpMatches (newDate h) w1 k2') by done.
  eexists. split; [done|]. subst w1. cbn -[lookup insert].
  split; [by rewrite <- app_assoc|]. split; [done|]. split; [done|].
  intros c club Hc.
  destruct (decide (c = c2)) as [-> | Hne2].
  - rewrite lookup_insert_eq. eexists. split; [done|].
    rewrite Hk2 in Hc. injection Hc as <-. subst k2'.
    rewrite (bool_decide_eq_true_2 (c2 = c2)) by done.
    case_bool_decide as Heq; cbn.
    + subst c1. rewrite Hk1 in Hk2. injection Hk2 as <-. cbn. lia.
    + cbn. lia.
  - rewrite lookup_insert_ne by done.
    rewrite (bool_decide_eq_false_2 (c = c2)) by done.
    destruct (decide (c = c1)) as [-> | Hne1].
    + rewrite lookup_insert_eq. eexists. split; [done|].
      rewrite Hk1 in Hc. injection Hc as <-.
      rewrite bool_decide_eq_true_2 by done. cbn. lia.
    + rewrite lookup_insert_ne by done. exists club. split; [done|].
      rewrite bool_decide_eq_false_2 by done. lia.
Qed.

Lemma onMatchCompleted_counts_witness :
  (ClubStats.matchCount ∘ Club.stats)
    <$> clubs (dbOf (onMatchCompleted ClubSample.host
                       (Some TriggerSample.wasLive)
                       (Some TriggerSample.nowFinished)
                       (mkSys (ClubSample.db true) [])).2) !! "club2"
  = Some 1.
Proof.
  assert (Hn1 : "club1" ≠ "") by discriminate.
  assert (Hn2 : "club2" ≠ "") by discriminate.
  assert (Hb : Match.status (MatchData.doc TriggerSample.wasLive) ≠ finished)
    by discriminate.
  destruct (onMatchCompleted_counts ClubSample.host TriggerSample.wasLive
              TriggerSample.nowFinished (mkSys (ClubSample.db true) [])
              "club1" "club2" (ClubSample.fcOpen true) ClubSample.fcClosed
              Hb eq_refl eq_refl eq_refl Hn1 Hn2 eq_refl eq_refl eq_refl
              (λ _, eq_refl))
    as (w' & Hrun & _ & _ & _ & Hclubs).
  rewrite Hrun. cbn [snd].
  destruct (Hclubs "club2" ClubSample.fcClosed eq_refl)
    as (club' & Hc & Hcount & _).
  rewrite Hc. cbn. f_equal. rewrite Hcount. reflexivity.
Defined.

(** X30. The loop of [onMatchCompleted] stops at the first update that
    fails, and the failure is swallowed: when the home team's club does
    not exist, the away team's club is never asked for and its match
    count stays as it was, although that club exists; the store is
    unchanged and the trigger ends without an error. *)
Theorem onMatchCompleted_stops_at_first_failure h b a w c1 c2 :
  Match.status (MatchData.doc b) ≠ finished →
  Match.status (MatchData.doc a) = finished →
  MatchData.homeTeam a = Some (mkTeamRef (Some c1)) →
  MatchData.awayTeam a = Some (mkTeamRef (Some c2)) →
  c1 ≠ "" → c2 ≠ "" →
  clubs (dbOf w) !! c1 = None →
  ∃ w',
    onMatchCompleted h (Some b) (Some a) w = (inr tt, w')
    ∧ dbOf w' = dbOf w
    ∧ (asked w' = asked w ∨ asked w' = asked w ++ [PatchClub c1]).
Proof.
  intros Hb Ha Hh Haw Hc1 Hc2 Hmissing.
  rewrite (onMatchCompleted_transition h b a w c1 c2) by done.
  unfold Fn.tryCatch, countMatchFor, Fn.bind, Fn.ret.
  unfold incrementClubStat, Fn.bind, Fn.ask, Fn.write, Fn.throw.
  destruct (hasFieldValue h); cbn -[lookup insert].
  - destruct (rejects h (PatchClub c1)); cbn -[lookup insert].
    + eexists. split; [done|]. split; [done|]. by right.
    + rewrite Hmissing. eexists. split; [done|]. split; [done|]. by right.
  - exists w. split; [by destruct w|]. split; [done|]. by left.
Qed.

Lemma onMatchCompleted_stops_at_first_failure_witness :
  dbOf (onMatchCompleted ClubSample.host (Some TriggerSample.wasLive)
          (Some (MatchData.mk Sample.homeWin
                   (Some (mkTeamRef (Some "club7")))
                   (Some (mkTeamRef (Some "club2")))))
          (mkSys (ClubSample.db true) [])).2
  = ClubSample.db true.
Proof.
  assert (Hn1 : "club7" ≠ "") by discriminate.
  assert (Hn2 : "club2" ≠ "") by discriminate.
  assert (Hb : Match.status (MatchData.doc TriggerSample.wasLive) ≠ finished)
    by discriminate.
  destruct (onMatchCompleted_stops_at_first_failure ClubSample.host
              TriggerSample.wasLive
              (MatchData.mk Sample.homeWin
                 (Some (mkTeamRef (Some "club7")))
                 (Some (mkTeamRef (Some "club2"))))
              (mkSys (ClubSample.db true) []) "club7" "club2"
              Hb eq_refl eq_refl eq_refl Hn1 Hn2 eq_refl)
    as (w' & Hrun & Hdb & _).
  rewrite Hrun. exact Hdb.
Defined.
